(** * TextTicketManager: a shallow embedding of [src/managers/TextTicketManager.js]

    The manager keeps the ticket records of a Discord bot in a JavaScript
    array backed by one JSON file, and an index of ticket entities keyed by
    ticket number.  The embedding follows the source method by method:

    - JavaScript objects that are shared and mutated (the raw ticket records)
      live in an object store and are named by references, so that
      [ticket._data.status = ...] is visible through every alias;
    - a method is a computation in a state-and-exception monad over the
      manager object, the object store, the file system, the Discord client
      and a log of the effects performed;
    - an [async] method is run to its end in one piece: the interleaving of two
      methods at their [await]s is not part of the model.

    The definitions come first: the data model, the monad, the methods, a
    running example, and the notions the theorems speak of.  The lemmas
    follow: how runs are taken apart, the properties of the methods one by
    one, and the invariants of the manager's state. *)

From Stdlib Require Import ZArith NArith List Bool String Ascii.
From Stdlib Require Import Decimal DecimalString DecimalN.
From stdpp Require Import base gmap strings list.

Local Open Scope string_scope.
Local Open Scope list_scope.

(** ** JavaScript values and numerals *)

(** Discord's ids are strings of digits. *)
Abbreviation Snowflake := string.

(** [a === b] on two strings. *)
Definition strict_eq (a b : string) : bool := String.eqb a b.

(** The decimal numeral of a non-negative integer. *)
Definition toString (n : N) : string := NilEmpty.string_of_uint (N.to_uint n).

(** The value of a string made of decimal digits only ([None] for any other
    string); the empty string has no digit and the value 0. *)
Definition digits (s : string) : option N := N.of_uint <$> NilEmpty.uint_of_string s.

(** *** Doubles

    JavaScript's numbers are IEEE 754 doubles.  The manager computes with the
    [number] of a record in two places: the comparison function of the sort,
    which subtracts two numbers and looks at the sign, and
    [(parseInt(String(n)) + 1).toString()].  Strings are sequences of bytes
    (UTF-8). *)

(** A double: NaN, an infinity, or [m * 2^e] with a sign. *)
Inductive double :=
  | NaN
  | Infinity (negative : bool)
  | Finite (negative : bool) (m : N) (e : Z).

(** [p / q] rounded to the nearest double, ties to even: [m * 2^e] with
    [m <= 2^53] and [e >= -1074], or [None] past the largest double. *)
Definition round_ratio (p q : N) : option (N * Z) :=
  if (p =? 0)%N then Some (0%N, 0%Z) else
  let e0 := (Z.of_N (N.log2 p) - Z.of_N (N.log2 q) - 52)%Z in
  let scale (e : Z) : N * N :=
    if (0 <=? e)%Z then (p, (q * 2 ^ Z.to_N e)%N) else ((p * 2 ^ Z.to_N (- e))%N, q) in
  let e1 := if (let '(n, d) := scale e0 in n / d <? 2 ^ 52)%N then (e0 - 1)%Z else e0 in
  let e := Z.max e1 (-1074) in
  let '(n, d) := scale e in
  let m := (n / d)%N in
  let r := (n mod d)%N in
  let m' := if ((d <? 2 * r) || ((d =? 2 * r) && N.odd m))%N then (m + 1)%N else m in
  if ((971 <? e) || ((971 =? e) && (2 ^ 53 <=? Z.of_N m')))%Z then None else Some (m', e).

(** The double nearest to a non-negative integer. *)
Definition double_of_N (n : N) : double :=
  if (n <? 2 ^ 53)%N then Finite false n 0
  else match round_ratio n 1 with
       | Some (m, e) => Finite false m e
       | None => Infinity false
       end.

(** The sign of [x - y], as -1, 0 or 1; [None] when the difference is NaN. *)
Definition minus_sign (x y : double) : option Z :=
  let signed (negative : bool) (m : N) (e e' : Z) : Z :=
    ((if negative then -1 else 1) * Z.of_N m * 2 ^ (e - e'))%Z in
  match x, y with
  | NaN, _ | _, NaN => None
  | Infinity n1, Infinity n2 => if eqb n1 n2 then None else Some (if n1 then -1 else 1)%Z
  | Infinity n1, Finite _ _ _ => Some (if n1 then -1 else 1)%Z
  | Finite _ _ _, Infinity n2 => Some (if n2 then 1 else -1)%Z
  | Finite n1 m1 e1, Finite n2 m2 e2 =>
      let e' := Z.min e1 e2 in
      Some (Z.sgn (signed n1 m1 e1 e' - signed n2 m2 e2 e'))
  end.

(** *** Reading a number in a string *)

(** The rest of a string after the white space or line terminator it starts
    with, if it starts with one: TAB, LF, VT, FF, CR, SP, and (in UTF-8)
    U+00A0, U+1680, U+2000 to U+200A, U+2028, U+2029, U+202F, U+205F, U+3000
    and U+FEFF. *)
Definition white_space (s : string) : option string :=
  match s with
  | String a r =>
      let n := N_of_ascii a in
      if ((9 <=? n) && (n <=? 13) || (n =? 32))%N then Some r else
      match r with
      | String b r1 =>
          let b := N_of_ascii b in
          if ((n =? 194) && (b =? 160))%N then Some r1 else
          match r1 with
          | String c r2 =>
              let c := N_of_ascii c in
              if ((n =? 225) && (b =? 154) && (c =? 128)
                  || (n =? 226) && (b =? 128)
                     && ((128 <=? c) && (c <=? 138) || (c =? 168) || (c =? 169) || (c =? 175))
                  || (n =? 226) && (b =? 129) && (c =? 159)
                  || (n =? 227) && (b =? 128) && (c =? 128)
                  || (n =? 239) && (b =? 187) && (c =? 191))%N
              then Some r2 else None
          | EmptyString => None
          end
      | EmptyString => None
      end
  | EmptyString => None
  end.

Fixpoint trim_start_from (fuel : nat) (s : string) : string :=
  match fuel with
  | O => s
  | S fuel => match white_space s with
              | Some r => trim_start_from fuel r
              | None => s
              end
  end.

Definition trim_start (s : string) : string := trim_start_from (String.length s) s.

Fixpoint trim_end (s : string) : string :=
  match s with
  | EmptyString => EmptyString
  | String a r => if strict_eq (trim_start s) "" then "" else String a (trim_end r)
  end.

(** The value of a digit in a radix up to 36. *)
Definition digit_value (radix : N) (a : ascii) : option N :=
  let n := N_of_ascii a in
  let v := if ((48 <=? n) && (n <=? 57))%N then Some (n - 48)%N
           else if ((97 <=? n) && (n <=? 122))%N then Some (n - 87)%N
           else if ((65 <=? n) && (n <=? 90))%N then Some (n - 55)%N
           else None in
  v ≫= λ d, if (d <? radix)%N then Some d else None.

(** The longest prefix of digits: how many there are, their value, and the
    rest of the string. *)
Fixpoint leading_digits (radix : N) (s : string) (count : nat) (value : N) : nat * N * string :=
  match s with
  | String a r =>
      match digit_value radix a with
      | Some d => leading_digits radix r (S count) (value * radix + d)%N
      | None => (count, value, s)
      end
  | EmptyString => (count, value, s)
  end.

(** A sign, and the rest of the string. *)
Definition leading_sign (s : string) : bool * string :=
  match s with
  | String "-" r => (true, r)
  | String "+" r => (false, r)
  | _ => (false, s)
  end.

(** The radix a prefix [0x], [0o] or [0b] announces, and the rest. *)
Definition radix_prefix (s : string) : option (N * string) :=
  match s with
  | String "0" (String a r) =>
      if (Ascii.eqb a "x" || Ascii.eqb a "X") then Some (16%N, r)
      else if (Ascii.eqb a "o" || Ascii.eqb a "O") then Some (8%N, r)
      else if (Ascii.eqb a "b" || Ascii.eqb a "B") then Some (2%N, r)
      else None
  | _ => None
  end.

Definition signed_double (negative : bool) (p q : N) : double :=
  match round_ratio p q with
  | Some (m, e) => Finite negative m e
  | None => Infinity negative
  end.

(** [ToNumber] on a string that is not made of digits only: the grammar of
    numeric literals between white space.  A sign, a fraction and an exponent
    are read in radix 10; [Infinity] may carry a sign; a literal with a radix
    prefix carries none. *)
Definition StringToNumber (s : string) : double :=
  let s := trim_end (trim_start s) in
  if strict_eq s "" then Finite false 0 0 else
  match radix_prefix s with
  | Some (radix, r) =>
      match leading_digits radix r 0 0 with
      | (S _, v, EmptyString) => double_of_N v
      | _ => NaN
      end
  | None =>
      let '(negative, r) := leading_sign s in
      if strict_eq r "Infinity" then Infinity negative else
      let '(ni, vi, r) := leading_digits 10 r 0 0 in
      let '(nf, v, r) := match r with
                         | String "." r => leading_digits 10 r 0 vi
                         | _ => (O, vi, r)
                         end in
      match (ni + nf)%nat with
      | O => NaN
      | S _ =>
          let exponent : option Z :=
            match r with
            | EmptyString => Some 0%Z
            | String a r =>
                if (Ascii.eqb a "e" || Ascii.eqb a "E") then
                  let '(minus, r) := leading_sign r in
                  match leading_digits 10 r 0 0 with
                  | (S _, x, EmptyString) => Some (if minus then - Z.of_N x else Z.of_N x)%Z
                  | _ => None
                  end
                else None
            end in
          match exponent with
          | Some x =>
              let x := (x - Z.of_nat nf)%Z in
              if (0 <=? x)%Z then signed_double negative (v * 10 ^ Z.to_N x) 1
              else signed_double negative v (10 ^ Z.to_N (- x))
          | None => NaN
          end
      end
  end.

(** [ToNumber] on a string, the coercion behind [b.number - a.number]: a
    string of decimal digits, the shape [createTicket] writes, has its decimal
    value (the empty string has the value 0), rounded to a double. *)
Definition ToNumber (s : string) : double :=
  match digits s with
  | Some n => double_of_N n
  | None => StringToNumber s
  end.

(** What [parseInt] returns: NaN, an infinity, or an integer that is a
    double. *)
Inductive integral :=
  | NotANumber
  | Infinite (negative : bool)
  | Integer (z : Z).

(** The integral double nearest to an integer. *)
Definition integral_of_Z (z : Z) : integral :=
  let n := Z.abs_N z in
  if (n <? 2 ^ 53)%N then Integer z
  else match round_ratio n 1 with
       | Some (m, e) => Integer (Z.sgn z * Z.of_N m * 2 ^ e)
       | None => Infinite (z <? 0)%Z
       end.

(** [parseInt] with no radix on a string that is not made of digits only:
    white space, a sign, [0x] for radix 16, and the longest prefix of
    digits. *)
Definition StringToInteger (s : string) : integral :=
  let '(negative, r) := leading_sign (trim_start s) in
  let '(radix, r) := match radix_prefix r with
                     | Some (16%N, r') => (16%N, r')
                     | _ => (10%N, r)
                     end in
  match leading_digits radix r 0 0 with
  | (S _, v, _) => integral_of_Z (if negative then - Z.of_N v else Z.of_N v)
  | _ => NotANumber
  end.

(** [parseInt] on a string; [parseInt('')] is NaN. *)
Definition parseInt (s : string) : integral :=
  match digits s with
  | Some n => if strict_eq s "" then NotANumber else integral_of_Z (Z.of_N n)
  | None => StringToInteger s
  end.

(** *** Writing a number *)

(** The integer with the fewest significant digits that rounds to the double
    [v], and among those with as few the one nearest to [v]: the digits
    [Number.prototype.toString] writes.  [v] has [d] digits, and [k] digits
    are tried first. *)
Definition nearest_with (v : N) (d k : nat) : option N :=
  let unit := (10 ^ N.of_nat (d - k))%N in
  let below := (v / unit * unit)%N in
  let above := (below + unit)%N in
  let rounds_to_v (c : N) : bool :=
    match integral_of_Z (Z.of_N c) with
    | Integer z => (z =? Z.of_N v)%Z
    | _ => false
    end in
  match rounds_to_v below, rounds_to_v above with
  | true, true =>
      if (v - below <? above - v)%N then Some below
      else if (above - v <? v - below)%N then Some above
      else if N.even (below / unit) then Some below else Some above
  | true, false => Some below
  | false, true => Some above
  | false, false => None
  end.

Fixpoint shortest_from (fuel k d : nat) (v : N) : N :=
  match fuel with
  | O => v
  | S fuel => match nearest_with v d k with
              | Some c => c
              | None => shortest_from fuel (S k) d v
              end
  end.

Fixpoint strip_zeros (reversed : list ascii) : list ascii :=
  match reversed with
  | "0"%char :: l => strip_zeros l
  | _ => reversed
  end.

(** [Number.prototype.toString] on a non-negative integral double: every
    digit up to 2^53, where the integers are doubles one by one; beyond, the
    shortest digits that round to it, followed by zeros up to 21 digits and
    by an exponent past that. *)
Definition magnitude_toString (v : N) : string :=
  if (v <=? 2 ^ 53)%N then toString v else
  let d := String.length (toString v) in
  let written := toString (shortest_from d 1 d v) in
  let n := String.length written in
  if (n <=? 21)%nat then written else
  match rev (strip_zeros (rev (list_ascii_of_string written))) with
  | [] => written
  | [a] => String a ("e+" +:+ toString (N.of_nat (n - 1)))
  | a :: l => String a ("." +:+ string_of_list_ascii l +:+ "e+" +:+ toString (N.of_nat (n - 1)))
  end.

Definition Number_toString (x : integral) : string :=
  match x with
  | NotANumber => "NaN"
  | Infinite false => "Infinity"
  | Infinite true => "-Infinity"
  | Integer z => (if (z <? 0)%Z then "-" else "") +:+ magnitude_toString (Z.abs_N z)
  end.

(** [x + 1] on an integral double. *)
Definition plus_one (x : integral) : integral :=
  match x with
  | Integer z => integral_of_Z (z + 1)
  | _ => x
  end.

(** [(x + 1).toString()]. *)
Definition succ_toString (x : integral) : string := Number_toString (plus_one x).

(** ** The data model *)

(** [RawTextTicketData].  The typedef announces [number] as a Number, but
    [createTicket] stores the string [(n + 1).toString()], and that string
    is what the file gives back: the field is a string (a number in a file
    written by hand is the string [String] makes of it). *)
Record RawTextTicketData := {
  channelId : Snowflake;
  creatorId : Snowflake;
  guildId : Snowflake;
  number : string;
  participants : list Snowflake;
  status : string
}.

(** [data.status = s]: the one field the manager ever assigns. *)
Definition set_status (s : string) (r : RawTextTicketData) : RawTextTicketData :=
  {| channelId := channelId r; creatorId := creatorId r; guildId := guildId r;
     number := number r; participants := participants r; status := s |}.

(** A reference to a record object of the store (object identity). *)
Abbreviation ref := nat.

(** Modelled from the spec: the entity class [structures/TextTicket.js] is not
    among the sources.  The spec describes it as a read-mostly view over one
    raw record with a back-reference to the owning manager, and the manager
    reads [ticket._data], [ticket.number], [ticket.channelId],
    [ticket.creatorId], [ticket.guild] and [ticket.channel] from it: an entity
    holds the reference it was constructed with, and its accessors read
    through it.  There is one manager, so the back-reference is left out. *)
Record TextTicket := { _data : ref }.

(** [TextTicketManagerOptions]; [None] is a property that is missing, [null]
    or [undefined]. *)
Record TextTicketManagerOptions := {
  channelTopic : option string;
  closedParentId : option Snowflake;
  parentId : option Snowflake;
  staffRoles : option (list Snowflake);
  storage : option string
}.

(** The values a caller may pass where the source expects a client or a
    ticket.  [VObject] is an object that has none of the properties the
    manager reads (such as [{}]); [VClient] is the [Discord.Client] instance,
    whose caches and REST interface are the [Discord] component of the
    state.  An object that is no entity and yet carries properties the
    methods read ([guild], [channel], [channelId], as a message does) is not
    among these values: what the methods do with one is not modelled. *)
Inductive value :=
  | VUndefined
  | VNull
  | VBool (b : bool)
  | VNumber (n : Z)
  | VString (s : string)
  | VObject
  | VClient
  | VTicket (t : TextTicket).

(** [ToBoolean]. *)
Definition truthy (v : value) : bool :=
  match v with
  | VUndefined | VNull => false
  | VBool b => b
  | VNumber n => negb (n =? 0)%Z
  | VString s => negb (strict_eq s "")
  | VObject | VClient | VTicket _ => true
  end.

(** [!v], a boolean. *)
Definition js_not (v : value) : value := VBool (negb (truthy v)).

(** [v instanceof Discord.Client] and [v instanceof TextTicket]: false on
    every primitive. *)
Definition instanceof_Client (v : value) : bool :=
  match v with VClient => true | _ => false end.

Definition instanceof_TextTicket (v : value) : bool :=
  match v with VTicket _ => true | _ => false end.

(** Truthiness of an optional string property ([!options?.parentId]). *)
Definition truthy_string (o : option string) : bool :=
  match o with
  | Some s => negb (strict_eq s "")
  | None => false
  end.

(** An argument that may be left out ([undefined]) or be [null]. *)
Inductive arg (A : Type) :=
  | Undefined
  | Null
  | Given (a : A).
Arguments Undefined {A}.
Arguments Null {A}.
Arguments Given {A} a.

(** Modelled from the spec: the module [utils/Errors] is not among the
    sources.  The manager uses six of its messages, which the spec's error
    taxonomy lists; they are told apart by name. *)
Inductive Errors :=
  | INVALID_CLIENT
  | MISSING_OPTIONS
  | NOT_READY
  | INVALID_TICKET
  | INVALID_CATEGORY
  | NOT_RESOLVABLE.

(** What a method may throw (or reject with): [new Error(Errors.X)], the
    TypeError of a property read on [null] or [undefined] (or of a path that
    is no string), the rejection of a remote call, the rejection of a
    file-system call, and what a listener of an event threw. *)
Inductive exn :=
  | Error (e : Errors)
  | TypeError
  | Rejection (reason : string)
  | FsError (code : string)
  | ListenerError (thrown : string).

(** ** The Discord client, as the manager uses it *)

Record Guild := {
  guild_id : Snowflake;
  guild_members : list Snowflake;
  guild_roles : list Snowflake
}.

Record User := { user_id : Snowflake }.

Record Channel := {
  channel_id : Snowflake;
  channel_guild : Snowflake;
  channel_type : string
}.

Inductive resolvable (A : Type) :=
  | ById (id : Snowflake)
  | ByInstance (a : A).
Arguments ById {A} id.
Arguments ByInstance {A} a.

Record PermissionOverwrite := {
  overwrite_id : option Snowflake;
  allow : list string;
  deny : list string
}.

Record ChannelCreateOptions := {
  create_parent : Snowflake;
  create_permissionOverwrites : list PermissionOverwrite;
  create_topic : string;
  create_type : string
}.

Record ChannelEditData := {
  edit_parent : option Snowflake;
  edit_permissionOverwrites : option (list PermissionOverwrite);
  edit_name : string
}.

(** The remote calls the manager awaits. *)
Inductive Request :=
  | ChannelCreate (guild : Snowflake) (name : string) (o : ChannelCreateOptions)
  | ChannelEdit (channel : Snowflake) (d : ChannelEditData)
  | ChannelDelete (channel : Snowflake).

(** How the platform settles a remote call: with the channel concerned, or
    with a rejection. *)
Inductive Reply :=
  | Fulfilled (c : Channel)
  | Rejected (reason : string).

(** The client: its caches, and the platform's answer to each request. *)
Record Discord := {
  guilds : list Guild;
  users : list User;
  channels : list Channel;
  rest : Request → Reply
}.

(** [manager.resolve(idOrInstance)]: an instance resolves to itself, an id to
    the cached object, or to [null]. *)
Definition guilds_resolve (d : Discord) (g : resolvable Guild) : option Guild :=
  match g with
  | ByInstance g => Some g
  | ById i => find (λ g, strict_eq (guild_id g) i) (guilds d)
  end.

Definition users_resolve (d : Discord) (u : resolvable User) : option User :=
  match u with
  | ByInstance u => Some u
  | ById i => find (λ u, strict_eq (user_id u) i) (users d)
  end.

(** [guild.members.resolve(user)], the member's id; [null] resolves to
    [null]. *)
Definition members_resolve (g : Guild) (u : option User) : option Snowflake :=
  u ← u; find (strict_eq (user_id u)) (guild_members g).

(** [guild.channels.resolve(id)]. *)
Definition channels_resolve (d : Discord) (g : Guild) (i : option Snowflake) : option Channel :=
  i ← i;
  find (λ c, strict_eq (channel_id c) i && strict_eq (channel_guild c) (guild_id g)) (channels d).

(** [guild.roles.resolve(id)] and [guild.roles.everyone] (the role whose id is
    the guild's). *)
Definition roles_resolve (g : Guild) (i : Snowflake) : option Snowflake :=
  find (strict_eq i) (guild_roles g).

Definition roles_everyone (g : Guild) : option Snowflake := roles_resolve g (guild_id g).

(** ** The store file *)

(** The text of a file, as [JSON.parse] reads it: text it rejects, a JSON
    value that is no array, or an array of records (the array
    [_rawTickets] is declared to be; arrays of anything else are not
    modelled).  [JSON.stringify] of a list of records writes the third kind,
    and parsing gives the records back.  A file that is there can be read;
    a write can be rejected (see [World]). *)
Inductive FileContent :=
  | SyntaxErrorText (text : string)
  | JsonOther
  | JsonArray (records : list RawTextTicketData).

(** ** The manager and the state it runs in *)

Record TextTicketManager := {
  client : value;
  options : TextTicketManagerOptions;
  tickets : gmap string TextTicket;
  _rawTickets : list ref;
  ready : bool
}.

(** The effects a method performs, in order. *)
Inductive Event :=
  | FsExists (path : string)
  | FsReadFile (path : string)
  | FsWriteFile (path : string) (c : FileContent)
  | Remote (r : Request)
  | Emit (event : string) (t : TextTicket).

(** Everything outside the manager object: the record objects, the files,
    the client, what was done so far, and how the outside answers: the error
    code with which the file system rejects writing a content at a path, if
    it does (ENOENT, EACCES, ...), and what a listener of an event throws, if
    one throws.  Listeners are taken to touch neither the manager nor the
    records. *)
Record World := {
  objects : list RawTextTicketData;
  files : gmap string FileContent;
  discord : Discord;
  log : list Event;
  writeFile_error : string → FileContent → option string;
  listener_error : string → TextTicket → option string
}.

Record State := {
  manager : TextTicketManager;
  world : World
}.

Definition with_manager (f : TextTicketManager → TextTicketManager) (s : State) : State :=
  {| manager := f (manager s); world := world s |}.

Definition with_world (f : World → World) (s : State) : State :=
  {| manager := manager s; world := f (world s) |}.

Definition set_tickets (m : gmap string TextTicket) (t : TextTicketManager) : TextTicketManager :=
  {| client := client t; options := options t; tickets := m;
     _rawTickets := _rawTickets t; ready := ready t |}.

Definition set_rawTickets (l : list ref) (t : TextTicketManager) : TextTicketManager :=
  {| client := client t; options := options t; tickets := tickets t;
     _rawTickets := l; ready := ready t |}.

Definition set_ready (b : bool) (t : TextTicketManager) : TextTicketManager :=
  {| client := client t; options := options t; tickets := tickets t;
     _rawTickets := _rawTickets t; ready := b |}.

Definition set_objects (o : list RawTextTicketData) (w : World) : World :=
  {| objects := o; files := files w; discord := discord w; log := log w;
     writeFile_error := writeFile_error w; listener_error := listener_error w |}.

Definition set_files (f : gmap string FileContent) (w : World) : World :=
  {| objects := objects w; files := f; discord := discord w; log := log w;
     writeFile_error := writeFile_error w; listener_error := listener_error w |}.

Definition set_channels (c : list Channel) (w : World) : World :=
  {| objects := objects w; files := files w;
     discord := {| guilds := guilds (discord w); users := users (discord w);
                   channels := c; rest := rest (discord w) |};
     log := log w;
     writeFile_error := writeFile_error w; listener_error := listener_error w |}.

Definition record_event (e : Event) (w : World) : World :=
  {| objects := objects w; files := files w; discord := discord w; log := log w ++ [e];
     writeFile_error := writeFile_error w; listener_error := listener_error w |}.

(** ** The monad of methods *)

Inductive outcome (A : Type) :=
  | Returned (a : A)
  | Thrown (e : exn).
Arguments Returned {A} a.
Arguments Thrown {A} e.

(** A method transforms the state and returns or throws; what it did before
    throwing stays done. *)
Definition M (A : Type) : Type := State → outcome A * State.

#[global] Instance M_ret : MRet M := λ A a s, (Returned a, s).

#[global] Instance M_bind : MBind M := λ A B f m s,
  match m s with
  | (Returned a, s') => f a s'
  | (Thrown e, s') => (Thrown e, s')
  end.

Definition throw {A : Type} (e : exn) : M A := λ s, (Thrown e, s).

Definition get : M State := λ s, (Returned s, s).

Definition modify (f : State → State) : M unit := λ s, (Returned tt, f s).

(** [for (const x of l) body]. *)
Definition for_of {A : Type} (l : list A) (body : A → M unit) : M unit :=
  foldr (λ x k, body x ;; k) (mret tt) l.

(** ** Primitives: the file system, the remote calls, the object store *)

(** [promisify(FileSystem.exists)(path)].  Node answers [false] for a path
    that is no string, without touching the disk. *)
Definition fs_exists (path : option string) : M bool :=
  match path with
  | None => mret false
  | Some p =>
      s ← get;
      modify (with_world (record_event (FsExists p)));;
      mret (bool_decide (is_Some (files (world s) !! p)))
  end.

(** [promisify(FileSystem.readFile)(path)] followed by [JSON.parse]'s reading
    of the text. *)
Definition fs_readFile (path : option string) : M FileContent :=
  match path with
  | None => throw TypeError
  | Some p =>
      s ← get;
      modify (with_world (record_event (FsReadFile p)));;
      match files (world s) !! p with
      | Some c => mret c
      | None => throw (FsError "ENOENT")
      end
  end.

(** [promisify(FileSystem.writeFile)(path, text, 'utf-8')]: the call is made,
    and the file system rejects it, leaving the files as they are, or replaces
    the file's whole content. *)
Definition fs_writeFile (path : option string) (c : FileContent) : M unit :=
  match path with
  | None => throw TypeError
  | Some p =>
      s ← get;
      modify (with_world (record_event (FsWriteFile p c)));;
      match writeFile_error (world s) p c with
      | Some code => throw (FsError code)
      | None => modify (with_world (λ w, set_files (<[p := c]> (files w)) w))
      end
  end.

(** What the client's channel cache holds once a request is fulfilled: a
    created channel is added at once; a deleted channel stays cached until
    the gateway reports the deletion, which no method waits for (gateway
    events are not modelled). *)
Definition cache_after (r : Request) (c : Channel) (l : list Channel) : list Channel :=
  match r with
  | ChannelCreate _ _ _ => l ++ [c]
  | ChannelEdit _ _ => l
  | ChannelDelete _ => l
  end.

(** [await] of a remote call: the request goes out, and the platform's
    answer fulfils or rejects it. *)
Definition await_rest (r : Request) : M Channel :=
  s ← get;
  modify (with_world (record_event (Remote r)));;
  match rest (discord (world s)) r with
  | Fulfilled c =>
      modify (with_world (λ w, set_channels (cache_after r c (channels (discord w))) w));;
      mret c
  | Rejected reason => throw (Rejection reason)
  end.

(** [this.emit(event, ticket)]: the listeners run at once, and what one of
    them throws is thrown by [emit]. *)
Definition emit (event : string) (t : TextTicket) : M unit :=
  s ← get;
  modify (with_world (record_event (Emit event t)));;
  match listener_error (world s) event t with
  | Some thrown => throw (ListenerError thrown)
  | None => mret tt
  end.

(** A fresh record object (an object literal, or an object [JSON.parse]
    builds). *)
Definition alloc (r : RawTextTicketData) : M ref :=
  s ← get;
  modify (with_world (λ w, set_objects (objects w ++ [r]) w));;
  mret (length (objects (world s))).

(** The records an array of references denotes, in order: what
    [JSON.stringify] writes. *)
Definition snapshot (o : list RawTextTicketData) (l : list ref) : list RawTextTicketData :=
  omap (λ i, o !! i) l.

Definition records (s : State) : list RawTextTicketData :=
  snapshot (objects (world s)) (_rawTickets (manager s)).

(** ** The entity's accessors *)

(** A property read on the ticket argument, [ticket.guild] or
    [ticket.channel], ready for the read that follows: a value that is no
    entity gives [undefined] (or throws at once, for [null] and
    [undefined]), and the read on the result throws. *)
Definition the_ticket (v : value) : M TextTicket :=
  match v with
  | VTicket t => mret t
  | _ => throw TypeError
  end.

(** Modelled from the spec: [ticket._data], dereferenced, which the
    accessors [ticket.number], [ticket.channelId] and [ticket.creatorId]
    read. *)
Definition ticket_data (t : TextTicket) : M RawTextTicketData :=
  s ← get;
  match objects (world s) !! _data t with
  | Some r => mret r
  | None => throw TypeError
  end.

(** [this.client], ready for a read of [.guilds], [.users] or [.channels]:
    only a client has them. *)
Definition the_client : M Discord :=
  s ← get;
  match client (manager s) with
  | VClient => mret (discord (world s))
  | _ => throw TypeError
  end.

(** Modelled from the spec: [ticket.guild], ready for a property read.  The
    entity resolves its guild on demand through the manager's client; a guild
    that no longer resolves is [null], and the read throws. *)
Definition ticket_guild (t : TextTicket) : M Guild :=
  r ← ticket_data t;
  d ← the_client;
  match guilds_resolve d (ById (guildId r)) with
  | Some g => mret g
  | None => throw TypeError
  end.

(** Modelled from the spec: [ticket.channel], ready for a method call,
    resolved on demand through the manager's client as well, and [null] when
    the channel is gone. *)
Definition ticket_channel (t : TextTicket) : M Channel :=
  r ← ticket_data t;
  d ← the_client;
  match find (λ c, strict_eq (channel_id c) (channelId r)) (channels d) with
  | Some c => mret c
  | None => throw TypeError
  end.

(** [this.tickets.set(ticket.number, ticket)]. *)
Definition tickets_set (t : TextTicket) : M unit :=
  r ← ticket_data t;
  modify (with_manager (λ m, set_tickets (<[number r := t]> (tickets m)) m)).

(** ** Arrays *)

(** [array.indexOf(x)]: the first index holding [x], or -1. *)
Fixpoint indexOf (l : list ref) (x : ref) : Z :=
  match l with
  | [] => -1
  | y :: l' =>
      if (x =? y)%nat then 0%Z
      else let i := indexOf l' x in if (i <? 0)%Z then (-1)%Z else (i + 1)%Z
  end.

(** [array[i] = x] for an [i] that [indexOf] returned: at -1 the assignment
    creates a property named "-1", which is no element of the array.
    [indexOf] returns no index past the end, where JavaScript would extend
    the array (and the list update does nothing). *)
Definition array_assign (l : list ref) (i : Z) (x : ref) : list ref :=
  if (i <? 0)%Z then l else <[Z.to_nat i := x]> l.

(** [array.sort(comparefn)] is stable and puts [a] after [b] when
    [comparefn(a, b) > 0].  When the comparison function is no order (a NaN
    difference is read as 0), the result depends on the engine's algorithm;
    this is insertion from the right, which on arrays this short is what V8's
    binary insertion gives. *)
Fixpoint sort_insert {A : Type} (after : A → A → bool) (x : A) (l : list A) : list A :=
  match l with
  | [] => [x]
  | y :: l' => if after x y then y :: sort_insert after x l' else x :: y :: l'
  end.

Definition sort {A : Type} (after : A → A → bool) (l : list A) : list A :=
  foldr (sort_insert after) [] l.

(** [(a, b) => b.number - a.number], by its sign, and whether [sort] reads
    its result as positive; a NaN difference counts as 0. *)
Definition comparefn (a b : RawTextTicketData) : option Z :=
  minus_sign (ToNumber (number b)) (ToNumber (number a)).

Definition by_number_desc (a b : RawTextTicketData) : bool :=
  match comparefn a b with
  | Some v => (0 <? v)%Z
  | None => false
  end.

(** ** The manager's methods *)

Definition default_options : TextTicketManagerOptions :=
  {| channelTopic := Some " "; closedParentId := None; parentId := None;
     staffRoles := Some []; storage := None |}.

(** [options.closedParentId = options.closedParentId ?? options.parentId]. *)
Definition default_closedParentId (o : TextTicketManagerOptions) : TextTicketManagerOptions :=
  {| channelTopic := channelTopic o;
     closedParentId := match closedParentId o with Some c => Some c | None => parentId o end;
     parentId := parentId o; staffRoles := staffRoles o; storage := storage o |}.

(** The constructor up to [this._init()]: the checks and the fields.  In
    [!client instanceof Discord.Client] the negation applies to [client]. *)
Definition constructor (client : value) (options : arg TextTicketManagerOptions)
    : outcome TextTicketManager :=
  let options := match options with Undefined => Given default_options | o => o end in
  if negb (truthy client) || instanceof_Client (js_not client)
  then Thrown (Error INVALID_CLIENT)
  else
    match options with
    | Given o =>
        if negb (truthy_string (parentId o)) || negb (truthy_string (storage o))
        then Thrown (Error MISSING_OPTIONS)
        else Returned {| client := client; options := default_closedParentId o;
                         tickets := ∅; _rawTickets := []; ready := false |}
    | _ => Thrown (Error MISSING_OPTIONS)
    end.

Definition _loadAllTickets : M (list ref) :=
  s ← get;
  let path := storage (options (manager s)) in
  storage ← fs_exists path;
  if negb storage then
    fs_writeFile path (JsonArray []);;
    mret []
  else
    storageContent ← fs_readFile path;
    match storageContent with
    | JsonArray storageTickets => mapM alloc storageTickets
    | JsonOther => mret []
    | SyntaxErrorText _ => mret []
    end.

Definition _init : M unit :=
  loadedTickets ← _loadAllTickets;
  modify (with_manager (set_rawTickets loadedTickets));;
  for_of loadedTickets (λ rawTicket, tickets_set {| _data := rawTicket |});;
  modify (with_manager (set_ready true)).

(** [new TextTicketManager(client, options)], and the load it starts run to
    its end.  The constructor does not wait for [_init]: a rejection of the
    load is nobody's to catch, and leaves the manager not ready. *)
Definition new_TextTicketManager (client : value) (options : arg TextTicketManagerOptions)
    (w : World) : outcome TextTicketManager * World :=
  match constructor client options with
  | Thrown e => (Thrown e, w)
  | Returned m =>
      let s := snd (_init {| manager := m; world := w |}) in
      (Returned (manager s), world s)
  end.

Definition _saveRawTickets : M bool :=
  s ← get;
  fs_writeFile (storage (options (manager s))) (JsonArray (records s));;
  mret true.

Definition checkDoubleTickets (guildId' userId : Snowflake) : M bool :=
  s ← get;
  mret (match find (λ rawTicket, strict_eq (guildId rawTicket) guildId'
                                  && strict_eq (creatorId rawTicket) userId) (records s) with
        | Some _ => true
        | None => false
        end).

Definition all_permissions : list string :=
  ["VIEW_CHANNEL"; "SEND_MESSAGES"; "ATTACH_FILES"; "ADD_REACTIONS"; "READ_MESSAGE_HISTORY"].

(** The loop over [this.options.staffRoles ?? []]: one overwrite per role
    that resolves. *)
Definition staff_overwrites (g : Guild) (roles : option (list Snowflake)) : list PermissionOverwrite :=
  omap (λ staffRole,
          resolvedStaffRole ← roles_resolve g staffRole;
          Some {| overwrite_id := Some resolvedStaffRole; allow := all_permissions; deny := [] |})
       (default [] roles).

(** The two statements that follow the remote edit in [closeTicket] and
    [reopenTicket] up to the return: the status, the new entity, the index,
    the array slot, the file, the event. *)
Definition restatus (event : string) (new_status : string) (ticket : TextTicket) : M TextTicket :=
  r ← ticket_data ticket;
  modify (with_world (λ w, set_objects (<[_data ticket := set_status new_status r]> (objects w)) w));;
  let newTicket := {| _data := _data ticket |} in
  tickets_set newTicket;;
  modify (with_manager (λ m,
    set_rawTickets (array_assign (_rawTickets m) (indexOf (_rawTickets m) (_data ticket)) (_data ticket)) m));;
  _saveRawTickets;;
  emit event newTicket;;
  mret newTicket.

Definition closeTicket (ticket : value) : M TextTicket :=
  s ← get;
  if negb (ready (manager s)) then throw (Error NOT_READY) else
  if instanceof_TextTicket (js_not ticket) then throw (Error INVALID_TICKET) else
  ticket ← the_ticket ticket;
  guild ← ticket_guild ticket;
  match channels_resolve (discord (world s)) guild (closedParentId (options (manager s))) with
  | None => throw (Error INVALID_CATEGORY)
  | Some closedTicketCategory =>
      r ← ticket_data ticket;
      let ticketPermissions :=
        ([ {| overwrite_id := Some (creatorId r); allow := []; deny := all_permissions |};
           {| overwrite_id := roles_everyone guild; allow := []; deny := ["VIEW_CHANNEL"] |} ]
         ++ staff_overwrites guild (staffRoles (options (manager s)))) in
      channel ← ticket_channel ticket;
      await_rest (ChannelEdit (channel_id channel)
        {| edit_parent := Some (channel_id closedTicketCategory);
           edit_permissionOverwrites := Some ticketPermissions;
           edit_name := "closed-" +:+ number r |});;
      restatus "ticketClosed" "closed" ticket
  end.

(** [String(ticketNumber)], for the [ticketNumber] of [createTicket]: the
    number 0, or the [number] of the first record after the sort. *)
Definition String_ticketNumber (sorted : list RawTextTicketData) : string :=
  match sorted with
  | [] => toString 0
  | r :: _ => number r
  end.

(** The number [createTicket] gives a new ticket of guild [g], from the
    records in memory. *)
Definition newTicketNumber (rs : list RawTextTicketData) (g : Guild) : string :=
  let guildTickets := List.filter (λ rawTicket, strict_eq (guildId rawTicket) (guild_id g)) rs in
  succ_toString (parseInt (String_ticketNumber (sort by_number_desc guildTickets))).

Definition createTicket (guild : resolvable Guild) (user : resolvable User) : M TextTicket :=
  s ← get;
  if negb (ready (manager s)) then throw (Error NOT_READY) else
  d ← the_client;
  let resolvedGuild := guilds_resolve d guild in
  let resolvedUser := users_resolve d user in
  resolvedMember ← match resolvedGuild with
                   | Some g => mret (members_resolve g resolvedUser)
                   | None => throw TypeError
                   end;
  match resolvedGuild, resolvedUser, resolvedMember with
  | Some resolvedGuild, Some resolvedUser, Some resolvedMember =>
      match channels_resolve d resolvedGuild (parentId (options (manager s))) with
      | Some ticketCategory =>
          if negb (strict_eq (channel_type ticketCategory) "GUILD_CATEGORY")
          then throw (Error INVALID_CATEGORY)
          else
            let newTicketNumber := newTicketNumber (records s) resolvedGuild in
            let ticketPermissions :=
              ([ {| overwrite_id := Some resolvedMember; allow := all_permissions; deny := [] |};
                 {| overwrite_id := roles_everyone resolvedGuild; allow := []; deny := ["VIEW_CHANNEL"] |} ]
               ++ staff_overwrites resolvedGuild (staffRoles (options (manager s)))) in
            ticketChannel ← await_rest (ChannelCreate (guild_id resolvedGuild)
              ("ticket-" +:+ newTicketNumber)
              {| create_parent := channel_id ticketCategory;
                 create_permissionOverwrites := ticketPermissions;
                 create_topic := default "" (channelTopic (options (manager s)));
                 create_type := "GUILD_TEXT" |});
            data ← alloc {| channelId := channel_id ticketChannel;
                            creatorId := user_id resolvedUser;
                            guildId := guild_id resolvedGuild;
                            number := newTicketNumber;
                            participants := [];
                            status := "open" |};
            let ticket := {| _data := data |} in
            modify (with_manager (λ m, set_rawTickets (_rawTickets m ++ [_data ticket]) m));;
            _saveRawTickets;;
            tickets_set ticket;;
            emit "ticketCreated" ticket;;
            mret ticket
      | None => throw (Error INVALID_CATEGORY)
      end
  | _, _, _ => throw (Error NOT_RESOLVABLE)
  end.

Definition deleteTicket (ticket : value) : M bool :=
  s ← get;
  if negb (ready (manager s)) then throw (Error NOT_READY) else
  if instanceof_TextTicket (js_not ticket) then throw (Error INVALID_TICKET) else
  ticket ← the_ticket ticket;
  channel ← ticket_channel ticket;
  await_rest (ChannelDelete (channel_id channel));;
  r ← ticket_data ticket;
  modify (λ s, with_manager (set_rawTickets
    (List.filter (λ rawTicket,
               match objects (world s) !! rawTicket with
               | Some rawTicket => negb (strict_eq (channelId rawTicket) (channelId r))
               | None => true
               end) (_rawTickets (manager s)))) s);;
  _saveRawTickets;;
  modify (with_manager (λ m, set_tickets (delete (number r) (tickets m)) m));;
  emit "ticketDeleted" ticket;;
  mret true.

Definition renameTicket (ticket : value) (newName : string) : M TextTicket :=
  s ← get;
  if negb (ready (manager s)) then throw (Error NOT_READY) else
  if instanceof_TextTicket (js_not ticket) then throw (Error INVALID_TICKET) else
  ticket ← the_ticket ticket;
  channel ← ticket_channel ticket;
  r ← ticket_data ticket;
  await_rest (ChannelEdit (channel_id channel)
    {| edit_parent := None; edit_permissionOverwrites := None;
       edit_name := newName +:+ "-" +:+ number r |});;
  emit "ticketRenamed" ticket;;
  mret ticket.

Definition reopenTicket (ticket : value) : M TextTicket :=
  s ← get;
  if negb (ready (manager s)) then throw (Error NOT_READY) else
  if instanceof_TextTicket (js_not ticket) then throw (Error INVALID_TICKET) else
  ticket ← the_ticket ticket;
  guild ← ticket_guild ticket;
  match channels_resolve (discord (world s)) guild (parentId (options (manager s))) with
  | Some ticketCategory =>
      if negb (strict_eq (channel_type ticketCategory) "GUILD_CATEGORY")
      then throw (Error INVALID_CATEGORY)
      else
        r ← ticket_data ticket;
        let ticketPermissions :=
          ([ {| overwrite_id := Some (creatorId r); allow := all_permissions; deny := [] |};
             {| overwrite_id := roles_everyone guild; allow := []; deny := ["VIEW_CHANNEL"] |} ]
           ++ staff_overwrites guild (staffRoles (options (manager s)))) in
        channel ← ticket_channel ticket;
        await_rest (ChannelEdit (channel_id channel)
          {| edit_parent := None;
             edit_permissionOverwrites := Some ticketPermissions;
             edit_name := "ticket-" +:+ number r |});;
        restatus "ticketReopened" "open" ticket
  | None => throw (Error INVALID_CATEGORY)
  end.

(** ** A running example *)

Module Demo.

Definition guild1 : Guild :=
  {| guild_id := "100"; guild_members := ["7"; "8"]; guild_roles := ["100"; "55"] |}.

Definition guild2 : Guild :=
  {| guild_id := "200"; guild_members := ["7"]; guild_roles := ["200"] |}.

Definition category (g i : Snowflake) : Channel :=
  {| channel_id := i; channel_guild := g; channel_type := "GUILD_CATEGORY" |}.

Definition text (g i : Snowflake) : Channel :=
  {| channel_id := i; channel_guild := g; channel_type := "GUILD_TEXT" |}.

(** A platform that fulfils every request; a created channel gets the id
    "c-" followed by its name. *)
Definition obliging (r : Request) : Reply :=
  match r with
  | ChannelCreate g name o => Fulfilled (text g ("c-" +:+ name))
  | ChannelEdit c _ => Fulfilled (text "100" c)
  | ChannelDelete c => Fulfilled (text "100" c)
  end.

Definition discord1 : Discord :=
  {| guilds := [guild1; guild2];
     users := [ {| user_id := "7" |}; {| user_id := "8" |}; {| user_id := "9" |} ];
     channels := [category "100" "10"; category "100" "11"; category "200" "20";
                  text "100" "501"; text "100" "502"; text "200" "601"];
     rest := obliging |}.

Definition ticket1 : RawTextTicketData :=
  {| channelId := "501"; creatorId := "7"; guildId := "100"; number := "1";
     participants := []; status := "open" |}.

Definition ticket2 : RawTextTicketData :=
  {| channelId := "502"; creatorId := "8"; guildId := "100"; number := "2";
     participants := ["7"]; status := "closed" |}.

Definition ticket3 : RawTextTicketData :=
  {| channelId := "601"; creatorId := "7"; guildId := "200"; number := "9";
     participants := []; status := "open" |}.

Definition options1 : TextTicketManagerOptions :=
  {| channelTopic := None; closedParentId := Some "11"; parentId := Some "10";
     staffRoles := Some ["55"; "56"]; storage := Some "tickets.json" |}.

(** A disk that holds three tickets, and nothing else yet. *)
Definition world1 : World :=
  {| objects := [];
     files := {[ "tickets.json" := JsonArray [ticket1; ticket2; ticket3] ]};
     discord := discord1;
     log := [];
     writeFile_error := λ _ _, None;
     listener_error := λ _ _, None |}.

(** A manager constructed and not loaded yet, and the same once loaded. *)
Definition booting : State :=
  {| manager := {| client := VClient; options := options1; tickets := ∅;
                   _rawTickets := []; ready := false |};
     world := world1 |}.

Definition loaded : State := snd (_init booting).

End Demo.

(** ** Ticket numbers as numbers *)

(** A record whose [number] is a decimal numeral: digits only, and at least
    one, the shape [createTicket] writes. *)
Definition numbered (r : RawTextTicketData) : Prop :=
  number r ≠ "" ∧ is_Some (digits (number r)).

(** The number a numbered record carries (0 if it carries none). *)
Definition ticket_number (r : RawTextTicketData) : N := default 0%N (digits (number r)).

(** The records of a guild, and the greatest number among a list of records
    (0 if there is none). *)
Definition of_guild (g : Guild) (rs : list RawTextTicketData) : list RawTextTicketData :=
  List.filter (λ r, strict_eq (guildId r) (guild_id g)) rs.

Definition max_number (rs : list RawTextTicketData) : N :=
  foldr N.max 0%N (ticket_number <$> rs).

#[global] Instance numbered_dec (r : RawTextTicketData) : Decision (numbered r).
Proof. unfold numbered. apply _. Defined.

(** ** The public methods as one family *)

Inductive call :=
  | CheckDoubleTickets (guildId' userId : Snowflake)
  | CloseTicket (ticket : value)
  | CreateTicket (guild : resolvable Guild) (user : resolvable User)
  | DeleteTicket (ticket : value)
  | RenameTicket (ticket : value) (newName : string)
  | ReopenTicket (ticket : value).

Inductive answer :=
  | Entity (t : TextTicket)
  | Boolean (b : bool).

Definition invoke (c : call) : M answer :=
  match c with
  | CheckDoubleTickets g u => b ← checkDoubleTickets g u; mret (Boolean b)
  | CloseTicket ticket => t ← closeTicket ticket; mret (Entity t)
  | CreateTicket guild user => t ← createTicket guild user; mret (Entity t)
  | DeleteTicket ticket => b ← deleteTicket ticket; mret (Boolean b)
  | RenameTicket ticket newName => t ← renameTicket ticket newName; mret (Entity t)
  | ReopenTicket ticket => t ← reopenTicket ticket; mret (Entity t)
  end.

(** The methods that change something: all but [checkDoubleTickets]. *)
Definition mutating (c : call) : bool :=
  match c with
  | CheckDoubleTickets _ _ => false
  | _ => true
  end.

(** The method never throws (or rejects with) [e]. *)
Definition never_throws {A : Type} (e : exn) (m : M A) : Prop :=
  ∀ s, fst (m s) ≠ Thrown e.




(** Two store files: one edited by hand, whose first ticket of guild 100
    carries no number, and one whose ticket carries the number 2^53. *)
Definition renumbered (n : string) (r : RawTextTicketData) : RawTextTicketData :=
  {| channelId := channelId r; creatorId := creatorId r; guildId := guildId r;
     number := n; participants := participants r; status := status r |}.

Definition stray_disk : World :=
  {| objects := [];
     files := {[ "tickets.json" :=
                 JsonArray [ renumbered "x" Demo.ticket1; renumbered "9" Demo.ticket2;
                             {| channelId := "503"; creatorId := "8"; guildId := "100";
                                number := "5"; participants := []; status := "open" |} ] ]};
     discord := Demo.discord1; log := [];
     writeFile_error := λ _ _, None; listener_error := λ _ _, None |}.

Definition saturated_disk : World :=
  {| objects := [];
     files := {[ "tickets.json" := JsonArray [ renumbered "9007199254740992" Demo.ticket1 ] ]};
     discord := Demo.discord1; log := [];
     writeFile_error := λ _ _, None; listener_error := λ _ _, None |}.

(** ** What the theorems speak of *)

(** Every reference of the array denotes an object of the store. *)
Definition valid_refs (s : State) : Prop :=
  Forall (λ l, l < length (objects (world s))) (_rawTickets (manager s)).

(** The index is keyed by the number of the record each entity wraps. *)
Definition index_keyed (s : State) : Prop :=
  ∀ k t, tickets (manager s) !! k = Some t →
         number <$> objects (world s) !! _data t = Some k.

(** The shape of a manager's state between two method calls. *)
Record well_formed (s : State) : Prop := {
  wf_valid : valid_refs s;
  wf_nodup : NoDup (_rawTickets (manager s));
  wf_index : index_keyed s
}.

#[global] Instance valid_refs_dec (s : State) : Decision (valid_refs s).
Proof. unfold valid_refs. apply _. Defined.

(** [closeTicket] and [reopenTicket], which differ in the category they look
    up, the permissions, the channel name and the status they set. *)
Inductive flip := Close | Reopen.

Definition flipTicket (f : flip) : value → M TextTicket :=
  match f with
  | Close => closeTicket
  | Reopen => reopenTicket
  end.

Definition flipped_status (f : flip) : string :=
  match f with
  | Close => "closed"
  | Reopen => "open"
  end.

Definition flip_event (f : flip) : string :=
  match f with
  | Close => "ticketClosed"
  | Reopen => "ticketReopened"
  end.

(** The record [createTicket] builds for a member [u] of guild [g] and the
    channel [c]. *)
Definition created_record (s : State) (g : Guild) (u : User) (c : Channel) : RawTextTicketData :=
  {| channelId := channel_id c; creatorId := user_id u; guildId := guild_id g;
     number := newTicketNumber (records s) g; participants := []; status := "open" |}.

(** The references [deleteTicket] keeps: those whose record has another
    channel id than [cid]. *)
Definition other_channels (o : list RawTextTicketData) (cid : Snowflake) (l : list ref) : list ref :=
  List.filter (λ rawTicket,
                 match o !! rawTicket with
                 | Some rawTicket => negb (strict_eq (channelId rawTicket) cid)
                 | None => true
                 end) l.


(** ** Specifications of runs *)

(** [triple P m Q E]: from a state satisfying [P], the run of [m] ends in a
    state satisfying [Q a] if it returns [a], and [E] if it throws. *)
Definition triple {A : Type} (P : State → Prop) (m : M A)
    (Q : A → State → Prop) (E : State → Prop) : Prop :=
  ∀ s, P s → match m s with
             | (Returned a, s') => Q a s'
             | (Thrown _, s') => E s'
             end.

(** The run of [m] leaves the state as it was, whatever it returns or throws. *)
Definition readonly {A : Type} (m : M A) : Prop := ∀ s, snd (m s) = s.

(** The states a program can bring a manager to: it constructs the manager
    over some world, lets the load run to its end (it returns, or rejects and
    leaves the manager not ready), and then calls methods one after the
    other. *)
Inductive reachable : State → Prop :=
  | reachable_new (client : value) (options' : arg TextTicketManagerOptions)
      (m : TextTicketManager) (w : World) :
      constructor client options' = Returned m →
      reachable (snd (_init {| manager := m; world := w |}))
  | reachable_invoke (c : call) (s : State) :
      reachable s → reachable (snd (invoke c s)).


(** ** Further notions *)




(** What one call can do to the records in memory: nothing; assign a status
    to one of them; push the record of a new ticket; drop the records of one
    channel. *)
Inductive records_change (s : State) : list RawTextTicketData → Prop :=
  | records_same : records_change s (records s)
  | records_restatus (i : ref) (r : RawTextTicketData) (new_status : string) :
      objects (world s) !! i = Some r →
      records_change s (snapshot (<[i := set_status new_status r]> (objects (world s)))
                          (_rawTickets (manager s)))
  | records_push (g : Guild) (u : User) (c : Channel) :
      records_change s (records s ++ [created_record s g u c])
  | records_drop (cid : Snowflake) :
      records_change s (List.filter (λ r, negb (strict_eq (channelId r) cid)) (records s)).

(** What one call can do to the store file at path [p], from [s] to [s']:
    nothing, with the records in memory as they were; write the records now
    in memory; or nothing, because the file system rejected a write. *)
Definition file_change (p : string) (s s' : State) : Prop :=
  files (world s') = files (world s) ∧ records s' = records s ∨
  files (world s') = <[p := JsonArray (records s')]> (files (world s)) ∨
  files (world s') = files (world s) ∧ ∃ c, is_Some (writeFile_error (world s) p c).

(** The index [_init] builds from the references [l], in order: a later
    record replaces an earlier one that has its number. *)
Definition index_of (o : list RawTextTicketData) (l : list ref)
    (m : gmap string TextTicket) : gmap string TextTicket :=
  foldl (λ m i, match o !! i with
                | Some r => <[number r := {| _data := i |}]> m
                | None => m
                end) m l.

(** The records [_loadAllTickets] makes of a file's content: those of an
    array, and none of anything else. *)
Definition loaded_from (c : FileContent) : list RawTextTicketData :=
  match c with
  | JsonArray storageTickets => storageTickets
  | JsonOther => []
  | SyntaxErrorText _ => []
  end.

(** The store file holds what is in memory: a load of it would give the
    records the manager has. *)
Definition durable (s : State) : Prop :=
  ∃ p c, storage (options (manager s)) = Some p ∧
         files (world s) !! p = Some c ∧
         loaded_from c = records s.

(** No two records have both the same guild and the same number. *)
Definition unique_numbers (rs : list RawTextTicketData) : Prop :=
  NoDup ((λ r, (guildId r, ticket_number r)) <$> rs).

(** The same world with a file system that answers writes by [f]. *)
Definition with_writeFile_error (f : string → FileContent → option string) (w : World) : World :=
  {| objects := objects w; files := files w; discord := discord w; log := log w;
     writeFile_error := f; listener_error := listener_error w |}.

(** * Reasoning about runs *)

Section Runs.
Context {A B : Type}.

Lemma bind_run (m : M A) (f : A → M B) (s : State) :
  (m ≫= f) s = match m s with
               | (Returned a, s') => f a s'
               | (Thrown e, s') => (Thrown e, s')
               end.
Proof. reflexivity. Qed.

(** A sequence returns only if its first part returned. *)
Lemma bind_Returned (m : M A) (f : A → M B) (s s' : State) (b : B) :
  (m ≫= f) s = (Returned b, s') →
  ∃ a s1, m s = (Returned a, s1) ∧ f a s1 = (Returned b, s').
Proof.
  rewrite bind_run. destruct (m s) as [[a|e] s1]; [eauto | discriminate].
Qed.

Lemma bind_Returned_intro (m : M A) (f : A → M B) (s s1 : State) (a : A) :
  m s = (Returned a, s1) → (m ≫= f) s = f a s1.
Proof. intros H. by rewrite bind_run, H. Qed.

Lemma bind_Thrown_intro (m : M A) (f : A → M B) (s s1 : State) (e : exn) :
  m s = (Thrown e, s1) → (m ≫= f) s = (Thrown e, s1).
Proof. intros H. by rewrite bind_run, H. Qed.

End Runs.

Lemma ret_Returned {A : Type} (a b : A) (s s' : State) :
  mret (M := M) a s = (Returned b, s') → b = a ∧ s' = s.
Proof. by intros [= -> ->]. Qed.

Lemma get_Returned (s s' x : State) : get s = (Returned x, s') → x = s ∧ s' = s.
Proof. by intros [= -> ->]. Qed.

Lemma modify_Returned (f : State → State) (s s' : State) (u : unit) :
  modify f s = (Returned u, s') → s' = f s.
Proof. by intros [= <-]. Qed.

Lemma throw_Returned {A : Type} (e : exn) (s s' : State) (a : A) :
  throw e s = (Returned a, s') → False.
Proof. discriminate. Qed.

(** Runs the monad's operations in the goal. *)
Ltac unfold_run := unfold mbind, M_bind, mret, M_ret, get, modify, throw; cbn.

(** Splits a hypothesis about a returning run along its binds, and reads off
    what each primitive step did. *)
Ltac inv_run H :=
  idtac;
  lazymatch type of H with
  | mbind _ _ _ = (Returned _, _) =>
      let a := fresh "a" in
      let s1 := fresh "s" in
      let H1 := fresh "Hrun" in
      apply bind_Returned in H as (a & s1 & H1 & H); inv_run H1; inv_run H
  | get _ = (Returned _, _) => apply get_Returned in H as [-> ->]
  | modify _ _ = (Returned _, _) => apply modify_Returned in H as ->
  | mret _ _ = (Returned _, _) => apply ret_Returned in H as [-> ->]
  | throw _ _ = (Returned _, _) => apply throw_Returned in H as []
  | _ => idtac
  end.

Lemma the_ticket_Returned (v : value) (t : TextTicket) (s s' : State) :
  the_ticket v s = (Returned t, s') → v = VTicket t ∧ s' = s.
Proof. destruct v; try discriminate. by intros [= -> ->]. Qed.

Lemma ticket_data_Returned (t : TextTicket) (r : RawTextTicketData) (s s' : State) :
  ticket_data t s = (Returned r, s') →
  objects (world s) !! _data t = Some r ∧ s' = s.
Proof.
  unfold ticket_data. intros H. inv_run H.
  destruct (objects (world s) !! _data t); [|done].
  by apply ret_Returned in H as [-> ->].
Qed.

Lemma the_client_Returned (d : Discord) (s s' : State) :
  the_client s = (Returned d, s') →
  client (manager s) = VClient ∧ d = discord (world s) ∧ s' = s.
Proof.
  unfold the_client. intros H. inv_run H.
  destruct (client (manager s)); try done.
  by apply ret_Returned in H as [-> ->].
Qed.

Lemma ticket_guild_Returned (t : TextTicket) (g : Guild) (s s' : State) :
  ticket_guild t s = (Returned g, s') →
  ∃ r, objects (world s) !! _data t = Some r ∧
       guilds_resolve (discord (world s)) (ById (guildId r)) = Some g ∧ s' = s.
Proof.
  unfold ticket_guild. intros H. inv_run H.
  match goal with H : ticket_data _ _ = _ |- _ => apply ticket_data_Returned in H as [Hr ->] end.
  match goal with H : the_client _ = _ |- _ => apply the_client_Returned in H as (_ & -> & ->) end.
  destruct (guilds_resolve _ _) eqn:Hg; [|done].
  apply ret_Returned in H as [-> ->]. eauto.
Qed.

Lemma ticket_channel_Returned (t : TextTicket) (c : Channel) (s s' : State) :
  ticket_channel t s = (Returned c, s') →
  ∃ r, objects (world s) !! _data t = Some r ∧
       find (λ c, strict_eq (channel_id c) (channelId r)) (channels (discord (world s))) = Some c ∧
       s' = s.
Proof.
  unfold ticket_channel. intros H. inv_run H.
  match goal with H : ticket_data _ _ = _ |- _ => apply ticket_data_Returned in H as [Hr ->] end.
  match goal with H : the_client _ = _ |- _ => apply the_client_Returned in H as (_ & -> & ->) end.
  destruct (find _ _) eqn:Hc; [|done].
  apply ret_Returned in H as [-> ->]. eauto.
Qed.

(** A fulfilled remote call changes the channel cache and the log, and
    nothing else. *)
Lemma await_rest_Returned (r : Request) (c : Channel) (s s' : State) :
  await_rest r s = (Returned c, s') →
  rest (discord (world s)) r = Fulfilled c ∧
  s' = with_world (λ w, set_channels (cache_after r c (channels (discord w))) w)
         (with_world (record_event (Remote r)) s).
Proof.
  unfold await_rest. intros H. inv_run H.
  destruct (rest _ r) as [c'|] eqn:Hr; [|done].
  inv_run H. done.
Qed.

(** A write that returned was not rejected, and replaced the file. *)
Lemma fs_writeFile_Returned (path : option string) (c : FileContent) (s s' : State) (u : unit) :
  fs_writeFile path c s = (Returned u, s') →
  ∃ p, path = Some p ∧
       writeFile_error (world s) p c = None ∧
       s' = with_world (λ w, record_event (FsWriteFile p c) (set_files (<[p := c]> (files w)) w)) s.
Proof.
  destruct path as [p|]; [|done]. unfold fs_writeFile. intros H. inv_run H.
  destruct (writeFile_error (world s) p c) eqn:Hw; [done|].
  apply modify_Returned in H as ->. by exists p.
Qed.

Lemma _saveRawTickets_Returned (b : bool) (s s' : State) :
  _saveRawTickets s = (Returned b, s') →
  ∃ p, storage (options (manager s)) = Some p ∧ b = true ∧
       writeFile_error (world s) p (JsonArray (records s)) = None ∧
       s' = with_world (λ w, record_event (FsWriteFile p (JsonArray (records s)))
                               (set_files (<[p := JsonArray (records s)]> (files w)) w)) s.
Proof.
  unfold _saveRawTickets. intros H. inv_run H.
  match goal with H : fs_writeFile _ _ _ = _ |- _ =>
    apply fs_writeFile_Returned in H as (p & Hp & Hw & ->) end.
  eauto.
Qed.

Lemma tickets_set_Returned (t : TextTicket) (s s' : State) (u : unit) :
  tickets_set t s = (Returned u, s') →
  ∃ r, objects (world s) !! _data t = Some r ∧
       s' = with_manager (λ m, set_tickets (<[number r := t]> (tickets m)) m) s.
Proof.
  unfold tickets_set. intros H. inv_run H.
  match goal with H : ticket_data _ _ = _ |- _ => apply ticket_data_Returned in H as [Hr ->] end.
  eauto.
Qed.

Lemma alloc_Returned (r : RawTextTicketData) (l : ref) (s s' : State) :
  alloc r s = (Returned l, s') →
  l = length (objects (world s)) ∧
  s' = with_world (λ w, set_objects (objects w ++ [r]) w) s.
Proof. unfold alloc. intros H. inv_run H. done. Qed.

(** An event whose emission returned had no listener that threw. *)
Lemma emit_Returned (event : string) (t : TextTicket) (s s' : State) (u : unit) :
  emit event t s = (Returned u, s') →
  listener_error (world s) event t = None ∧
  s' = with_world (record_event (Emit event t)) s.
Proof.
  unfold emit. intros H. inv_run H.
  destruct (listener_error (world s) event t) eqn:Hl; [done|].
  by apply ret_Returned in H as [_ ->].
Qed.

(** [inv_run], and then what each method-level step did. *)
Ltac inv_steps H :=
  inv_run H;
  repeat match goal with
    | H : mret _ _ = (Returned _, _) |- _ => apply ret_Returned in H as [-> ->]
    | H : throw _ _ = (Returned _, _) |- _ => apply throw_Returned in H as []
    | H : the_ticket _ _ = (Returned _, _) |- _ => apply the_ticket_Returned in H as [? ->]
    | H : the_client _ = (Returned _, _) |- _ => apply the_client_Returned in H as (? & ? & ->)
    | H : ticket_data _ _ = (Returned _, _) |- _ => apply ticket_data_Returned in H as [? ->]
    | H : ticket_guild _ _ = (Returned _, _) |- _ => apply ticket_guild_Returned in H as (? & ? & ? & ->)
    | H : ticket_channel _ _ = (Returned _, _) |- _ => apply ticket_channel_Returned in H as (? & ? & ? & ->)
    | H : await_rest _ _ = (Returned _, _) |- _ => apply await_rest_Returned in H as [? ->]
    | H : _saveRawTickets _ = (Returned _, _) |- _ => apply _saveRawTickets_Returned in H as (? & ? & ? & ? & ->)
    | H : tickets_set _ _ = (Returned _, _) |- _ => apply tickets_set_Returned in H as (? & ? & ->)
    | H : alloc _ _ = (Returned _, _) |- _ => apply alloc_Returned in H as [? ->]
    | H : emit _ _ _ = (Returned _, _) |- _ => apply emit_Returned in H as [? ->]
    end.

Lemma array_assign_indexOf (l : list ref) (x : ref) :
  array_assign l (indexOf l x) x = l.
Proof.
  unfold array_assign.
  destruct (indexOf l x <? 0)%Z eqn:E; [done|].
  apply Z.ltb_ge in E. apply list_insert_id.
  revert E. induction l as [|y l IH]; cbn; [lia|].
  destruct (Nat.eqb_spec x y) as [->|Hne]; [done|].
  destruct (indexOf l x <? 0)%Z eqn:E; [lia|].
  apply Z.ltb_ge in E. intros _.
  replace (Z.to_nat (indexOf l x + 1)) with (S (Z.to_nat (indexOf l x))) by lia.
  cbn. auto.
Qed.

(** What [restatus] does when it returns. *)
Lemma restatus_Returned (event new_status : string) (t t' : TextTicket) (s s' : State) :
  restatus event new_status t s = (Returned t', s') →
  ∃ r p,
    objects (world s) !! _data t = Some r ∧
    storage (options (manager s)) = Some p ∧
    t' = {| _data := _data t |} ∧
    let objects' := <[_data t := set_status new_status r]> (objects (world s)) in
    let content := JsonArray (snapshot objects' (_rawTickets (manager s))) in
    manager s' = set_tickets (<[number r := t']> (tickets (manager s))) (manager s) ∧
    world s' = record_event (Emit event t')
                 (record_event (FsWriteFile p content)
                    (set_files (<[p := content]> (files (world s)))
                       (set_objects objects' (world s)))).
Proof.
  unfold restatus. intros H. inv_steps H.
  cbn in *.
  match goal with
  | Hr : objects (world s) !! _data t = Some ?r,
    Hx : <[_data t := _]> _ !! _data t = Some ?x |- _ =>
      rewrite list_lookup_insert_eq in Hx by (by eapply lookup_lt_Some);
      injection Hx as <-; exists r
  end.
  eexists. split_and!; try done.
  - cbn. by rewrite array_assign_indexOf.
  - unfold records. cbn. by rewrite array_assign_indexOf.
Qed.

(** * Snapshots of the record array *)

(** Settles a decidable proposition about concrete data by evaluation. *)
Ltac decide_by_computation :=
  lazymatch goal with |- ?P => apply (bool_decide_unpack P); vm_compute; exact I end.

Lemma snapshot_lookup (o : list RawTextTicketData) (l : list ref) (k : nat) :
  Forall (λ i, i < length o) l →
  snapshot o l !! k = l !! k ≫= λ i, o !! i.
Proof.
  intros Hl. revert k. induction Hl as [|i l Hi Hl IH]; intros k; [done|].
  destruct (lookup_lt_is_Some_2 o i Hi) as [r Hr].
  unfold snapshot in *. cbn. rewrite Hr. destruct k; cbn; [done | apply IH].
Qed.

Lemma snapshot_length (o : list RawTextTicketData) (l : list ref) :
  Forall (λ i, i < length o) l → length (snapshot o l) = length l.
Proof.
  induction 1 as [|i l Hi Hl IH]; [done|].
  destruct (lookup_lt_is_Some_2 o i Hi) as [r Hr].
  unfold snapshot in *. cbn. rewrite Hr. cbn. by rewrite IH.
Qed.

(** Growing the store does not change what valid references denote. *)
Lemma snapshot_grow (o o' : list RawTextTicketData) (l : list ref) :
  Forall (λ i, i < length o) l → snapshot (o ++ o') l = snapshot o l.
Proof.
  induction 1 as [|i l Hi Hl IH]; [done|].
  unfold snapshot in *. cbn. rewrite lookup_app_l by done. by rewrite IH.
Qed.

Lemma snapshot_push (o : list RawTextTicketData) (l : list ref) (r : RawTextTicketData) :
  Forall (λ i, i < length o) l →
  snapshot (o ++ [r]) (l ++ [length o]) = snapshot o l ++ [r].
Proof.
  intros Hl. unfold snapshot. rewrite omap_app. fold (snapshot (o ++ [r]) l).
  rewrite snapshot_grow by done. cbn.
  by rewrite list_lookup_middle.
Qed.

(** Assigning to an object shows at the one slot of the array that holds
    it. *)
Lemma snapshot_update (o : list RawTextTicketData) (l : list ref) (k : nat) (i : ref)
    (r : RawTextTicketData) :
  Forall (λ i, i < length o) l → NoDup l → l !! k = Some i →
  snapshot (<[i := r]> o) l = <[k := r]> (snapshot o l).
Proof.
  intros Hl Hnd Hk.
  assert (Hl' : Forall (λ j, j < length (<[i := r]> o)) l).
  { by rewrite length_insert. }
  assert (Hi : i < length o).
  { rewrite Forall_lookup in Hl. eauto. }
  apply list_eq. intros j.
  rewrite snapshot_lookup by done.
  destruct (decide (j = k)) as [->|Hne].
  - rewrite Hk. cbn. rewrite list_lookup_insert_eq by done.
    rewrite list_lookup_insert_eq; [done|].
    rewrite snapshot_length by done. by eapply lookup_lt_Some.
  - rewrite list_lookup_insert_ne by done.
    rewrite snapshot_lookup by done.
    destruct (l !! j) as [i'|] eqn:Hj; [cbn|done].
    rewrite list_lookup_insert_ne; [done|].
    intros <-. apply Hne. eapply NoDup_lookup; eauto.
Qed.

(** * Numerals and the sort *)

Lemma toString_nonempty (n : N) : toString n ≠ "".
Proof.
  unfold toString. intros H.
  assert (Hu : NilEmpty.uint_of_string (NilEmpty.string_of_uint (N.to_uint n)) = Some Nil).
  { by rewrite H. }
  rewrite NilEmpty.usu in Hu. injection Hu as Hu.
  apply (f_equal N.of_uint) in Hu. rewrite Unsigned.of_to in Hu. cbn in Hu. subst n.
  discriminate H.
Qed.

Lemma digits_toString (n : N) : digits (toString n) = Some n.
Proof.
  unfold digits, toString. rewrite NilEmpty.usu. cbn. by rewrite Unsigned.of_to.
Qed.

(** A numbered record carries its number as digits. *)
Lemma numbered_digits (r : RawTextTicketData) :
  numbered r → digits (number r) = Some (ticket_number r).
Proof. intros [_ [n Hn]]. unfold ticket_number. by rewrite Hn. Qed.

(** A numeral is numbered. *)
Lemma toString_numbered (r : RawTextTicketData) (n : N) :
  number r = toString n → numbered r ∧ ticket_number r = n.
Proof.
  intros Hr. unfold numbered, ticket_number. rewrite Hr, digits_toString.
  split_and!; [apply toString_nonempty | done | done].
Qed.

(** Below 2^53 every integer is a double. *)
Lemma integral_of_Z_exact (n : N) : (n < 2 ^ 53)%N → integral_of_Z (Z.of_N n) = Integer (Z.of_N n).
Proof.
  intros Hn. unfold integral_of_Z. rewrite Zabs2N.id.
  by destruct (N.ltb_spec n (2 ^ 53)); [|lia].
Qed.

(** [parseInt] and [ToNumber] read a numeral below 2^53 exactly. *)
Lemma parseInt_numeral (s : string) (n : N) :
  s ≠ "" → digits s = Some n → (n < 2 ^ 53)%N → parseInt s = Integer (Z.of_N n).
Proof.
  intros Hs Hd Hn. unfold parseInt. rewrite Hd. unfold strict_eq.
  destruct (String.eqb_spec s ""); [done|]. by apply integral_of_Z_exact.
Qed.

Lemma ToNumber_numeral (s : string) (n : N) :
  digits s = Some n → (n < 2 ^ 53)%N → ToNumber s = Finite false n 0.
Proof.
  intros Hd Hn. unfold ToNumber, double_of_N. rewrite Hd.
  by destruct (N.ltb_spec n (2 ^ 53)); [|lia].
Qed.

(** [(n + 1).toString()] is the numeral of [n + 1], for [n] below 2^53. *)
Lemma succ_toString_exact (n : N) :
  (n < 2 ^ 53)%N → succ_toString (Integer (Z.of_N n)) = toString (n + 1).
Proof.
  intros Hn. unfold succ_toString, plus_one.
  replace (Z.of_N n + 1)%Z with (Z.of_N (n + 1)) by lia.
  assert (Hcases : (n + 1 < 2 ^ 53 ∨ n + 1 = 2 ^ 53)%N) by lia.
  destruct Hcases as [Hlt | Heq].
  - rewrite integral_of_Z_exact by done. unfold Number_toString, magnitude_toString.
    rewrite Zabs2N.id.
    destruct (Z.ltb_spec (Z.of_N (n + 1)) 0); [lia|].
    by destruct (N.leb_spec (n + 1) (2 ^ 53)); [|lia].
  - rewrite Heq. vm_compute. reflexivity.
Qed.

(** The comparison function orders numerals below 2^53 by their numbers. *)
Lemma by_number_desc_numbered (a b : RawTextTicketData) :
  numbered a ∧ (ticket_number a < 2 ^ 53)%N →
  numbered b ∧ (ticket_number b < 2 ^ 53)%N →
  by_number_desc a b = (ticket_number a <? ticket_number b)%N.
Proof.
  intros [Ha Hna] [Hb Hnb]. unfold by_number_desc, comparefn.
  rewrite (ToNumber_numeral _ _ (numbered_digits _ Ha) Hna).
  rewrite (ToNumber_numeral _ _ (numbered_digits _ Hb) Hnb).
  cbn. rewrite !Z.mul_1_r.
  destruct (N.ltb_spec (ticket_number a) (ticket_number b)).
  - apply Z.ltb_lt. apply Z.sgn_pos_iff. lia.
  - apply Z.ltb_ge. apply Z.sgn_nonpos. lia.
Qed.

Section SortHead.
Context {A : Type} (after : A → A → bool) (key : A → N) (P : A → Prop).
Hypothesis after_key : ∀ x y, P x → P y → after x y = (key x <? key y)%N.

Lemma sort_insert_Permutation (x : A) (l : list A) : sort_insert after x l ≡ₚ x :: l.
Proof.
  induction l as [|y l IH]; cbn; [done|].
  destruct (after x y); [|done].
  rewrite IH. apply Permutation_swap.
Qed.

(** The sort keeps the elements. *)
Lemma sort_Permutation (l : list A) : sort after l ≡ₚ l.
Proof.
  induction l as [|x l IH]; cbn; [done|].
  fold (sort after l). by rewrite sort_insert_Permutation, IH.
Qed.

(** The first element has a greatest key. *)
Definition head_greatest (l : list A) : Prop :=
  match l with
  | [] => True
  | h :: t => Forall (λ y, (key y ≤ key h)%N) t
  end.

Lemma sort_insert_head_greatest (x : A) (l : list A) :
  P x → Forall P l → head_greatest l → head_greatest (sort_insert after x l).
Proof.
  intros Hx HP. destruct l as [|y l]; cbn; [done|].
  intros Hy. apply Forall_cons in HP as [Py HP].
  rewrite after_key by done.
  destruct (N.ltb_spec (key x) (key y)); cbn.
  - rewrite sort_insert_Permutation. constructor; [lia | done].
  - constructor; [done|]. eapply Forall_impl; [exact Hy|]. cbn. lia.
Qed.

Lemma sort_head_greatest (l : list A) : Forall P l → head_greatest (sort after l).
Proof.
  induction 1 as [|x l Hx Hl IH]; cbn; [done|].
  fold (sort after l). apply sort_insert_head_greatest; [done| |done].
  by rewrite sort_Permutation.
Qed.

(** So the first element's key is the maximum of the keys. *)
Lemma sort_head_max (l : list A) (h : A) (t : list A) :
  Forall P l → sort after l = h :: t → key h = foldr N.max 0%N (key <$> l).
Proof.
  intros HP Hs.
  pose proof (sort_head_greatest l HP) as Hg. rewrite Hs in Hg. cbn in Hg.
  pose proof (sort_Permutation l) as Hp. rewrite Hs in Hp.
  transitivity (foldr N.max 0%N (key <$> h :: t)).
  - cbn. clear Hp Hs. induction Hg as [|y t Hy Hg IH]; cbn; [lia|]. lia.
  - apply foldr_permutation_proper; [apply _ | apply _ | | by rewrite Hp].
    intros a b c. lia.
Qed.

End SortHead.

(** * Readiness *)

(** [checkDoubleTickets] answers whether some record in memory has both the
    guild and the creator. *)
Lemma checkDoubleTickets_spec (g u : Snowflake) (s : State) :
  ∃ b, checkDoubleTickets g u s = (Returned b, s) ∧
       (b = true ↔ ∃ r, r ∈ records s ∧ guildId r = g ∧ creatorId r = u).
Proof.
  unfold checkDoubleTickets. rewrite bind_run. cbn.
  destruct (find _ _) as [r|] eqn:Hfind; eexists; (split; [reflexivity|]).
  - split; [intros _|done]. apply find_some in Hfind as [Hin Hr].
    apply andb_prop in Hr as [Hg Hu]. apply String.eqb_eq in Hg, Hu.
    exists r. by rewrite list_elem_of_In.
  - split; [done|]. intros (r & Hin & Hg & Hu).
    apply list_elem_of_In in Hin. apply (find_none _ _ Hfind) in Hin.
    unfold strict_eq in Hin. rewrite Hg, Hu, !String.eqb_refl in Hin. discriminate.
Qed.

(** A method that starts with the readiness guard stops there, before it
    did anything. *)
Lemma not_ready_guard {A : Type} (k : State → M A) (s : State) :
  ready (manager s) = false →
  (s ← get; if negb (ready (manager s)) then throw (Error NOT_READY) else k s) s
  = (Thrown (Error NOT_READY), s).
Proof. intros H. rewrite bind_run. cbn. by rewrite H. Qed.

(** C1, as the code has it.  Before the load has set [ready], each of
    [createTicket], [closeTicket], [reopenTicket], [renameTicket] and
    [deleteTicket] throws the "not ready" error and leaves the whole state as
    it was: no remote call, no file written, no event, nothing in memory
    changed.  [checkDoubleTickets] has no such guard: it returns a boolean,
    also without touching the state. *)
Theorem not_ready_throws (c : call) (s : State) :
  ready (manager s) = false →
  if mutating c
  then invoke c s = (Thrown (Error NOT_READY), s)
  else ∃ b, invoke c s = (Returned (Boolean b), s).
Proof.
  intros H. destruct c; cbn.
  - destruct (checkDoubleTickets_spec guildId' userId s) as (b & Hb & _).
    exists b. by rewrite bind_run, Hb.
  - rewrite bind_run. unfold closeTicket. by rewrite not_ready_guard.
  - rewrite bind_run. unfold createTicket. by rewrite not_ready_guard.
  - rewrite bind_run. unfold deleteTicket. by rewrite not_ready_guard.
  - rewrite bind_run. unfold renameTicket. by rewrite not_ready_guard.
  - rewrite bind_run. unfold reopenTicket. by rewrite not_ready_guard.
Qed.

Lemma not_ready_throws_witness :
  invoke (DeleteTicket VNull) Demo.booting = (Thrown (Error NOT_READY), Demo.booting).
Proof. apply (not_ready_throws (DeleteTicket VNull) Demo.booting). reflexivity. Defined.

(** C1, as stated, fails on [checkDoubleTickets]: on a manager that is not
    ready it returns [false] and throws nothing. *)
Lemma checkDoubleTickets_ignores_ready :
  ready (manager Demo.booting) = false ∧
  checkDoubleTickets "100" "7" Demo.booting = (Returned false, Demo.booting).
Proof. split; reflexivity. Qed.

(** * The entity guard *)

Section NeverThrows.
Context (e : exn).

Lemma never_throws_ret {A : Type} (a : A) : never_throws e (mret a).
Proof. intros s. discriminate. Qed.

Lemma never_throws_throw {A : Type} (e' : exn) : e' ≠ e → never_throws e (throw (A := A) e').
Proof. intros Hne s. cbn. congruence. Qed.

Lemma never_throws_get : never_throws e get.
Proof. intros s. discriminate. Qed.

Lemma never_throws_modify (f : State → State) : never_throws e (modify f).
Proof. intros s. discriminate. Qed.

Lemma never_throws_bind {A B : Type} (m : M A) (f : A → M B) :
  never_throws e m → (∀ a, never_throws e (f a)) → never_throws e (m ≫= f).
Proof.
  intros Hm Hf s. rewrite bind_run. specialize (Hm s).
  destruct (m s) as [[a|e'] s1]; [apply Hf|].
  cbn in *. congruence.
Qed.

End NeverThrows.

(** Proves [never_throws e m] along the structure of [m], for an [e] that
    [m] has no [throw] of. *)
Ltac never_throws :=
  repeat first
    [ apply never_throws_ret
    | apply never_throws_get
    | apply never_throws_modify
    | apply never_throws_throw; discriminate
    | apply never_throws_bind; [|intros]
    | case_match ].

(** The primitives throw a TypeError or a rejection, and none of the
    manager's own errors. *)
Section Primitives.
Context (x : Errors).

Lemma the_ticket_never (v : value) : never_throws (Error x) (the_ticket v).
Proof. unfold the_ticket. never_throws. Qed.

Lemma ticket_data_never (t : TextTicket) : never_throws (Error x) (ticket_data t).
Proof. unfold ticket_data. never_throws. Qed.

Lemma the_client_never : never_throws (Error x) the_client.
Proof. unfold the_client. never_throws. Qed.

Lemma ticket_guild_never (t : TextTicket) : never_throws (Error x) (ticket_guild t).
Proof.
  unfold ticket_guild.
  apply never_throws_bind; [apply ticket_data_never | intros r].
  apply never_throws_bind; [apply the_client_never | intros d].
  never_throws.
Qed.

Lemma ticket_channel_never (t : TextTicket) : never_throws (Error x) (ticket_channel t).
Proof.
  unfold ticket_channel.
  apply never_throws_bind; [apply ticket_data_never | intros r].
  apply never_throws_bind; [apply the_client_never | intros d].
  never_throws.
Qed.

Lemma await_rest_never (r : Request) : never_throws (Error x) (await_rest r).
Proof. unfold await_rest. never_throws. Qed.

Lemma _saveRawTickets_never : never_throws (Error x) _saveRawTickets.
Proof. unfold _saveRawTickets, fs_writeFile. never_throws. Qed.

Lemma tickets_set_never (t : TextTicket) : never_throws (Error x) (tickets_set t).
Proof.
  unfold tickets_set.
  apply never_throws_bind; [apply ticket_data_never | intros r]. never_throws.
Qed.

Lemma emit_never (event : string) (t : TextTicket) : never_throws (Error x) (emit event t).
Proof. unfold emit. never_throws. Qed.

Lemma restatus_never (event new_status : string) (t : TextTicket) :
  never_throws (Error x) (restatus event new_status t).
Proof.
  unfold restatus.
  repeat first
    [ apply ticket_data_never | apply tickets_set_never | apply _saveRawTickets_never
    | apply emit_never | apply never_throws_modify | apply never_throws_ret
    | apply never_throws_bind; [|intros] ].
Qed.

End Primitives.

(** Proves that a method never throws one of the manager's errors that it
    has no [throw] of. *)
Ltac never_throws_method :=
  repeat first
    [ apply the_ticket_never | apply ticket_data_never | apply ticket_guild_never
    | apply ticket_channel_never | apply await_rest_never | apply restatus_never
    | apply _saveRawTickets_never | apply emit_never
    | apply never_throws_ret | apply never_throws_get | apply never_throws_modify
    | apply never_throws_throw; discriminate
    | apply never_throws_bind; [|intros]
    | case_match ].

(** In each of the four methods the guard is [!ticket instanceof TextTicket],
    that is [(!ticket) instanceof TextTicket]: a boolean is no entity. *)
Lemma entity_guard_false (ticket : value) : instanceof_TextTicket (js_not ticket) = false.
Proof. reflexivity. Qed.

Lemma closeTicket_never_invalid (ticket : value) :
  never_throws (Error INVALID_TICKET) (closeTicket ticket).
Proof. unfold closeTicket. rewrite entity_guard_false. never_throws_method. Qed.

Lemma deleteTicket_never_invalid (ticket : value) :
  never_throws (Error INVALID_TICKET) (deleteTicket ticket).
Proof. unfold deleteTicket. rewrite entity_guard_false. never_throws_method. Qed.

Lemma renameTicket_never_invalid (ticket : value) (newName : string) :
  never_throws (Error INVALID_TICKET) (renameTicket ticket newName).
Proof. unfold renameTicket. rewrite entity_guard_false. never_throws_method. Qed.

Lemma reopenTicket_never_invalid (ticket : value) :
  never_throws (Error INVALID_TICKET) (reopenTicket ticket).
Proof. unfold reopenTicket. rewrite entity_guard_false. never_throws_method. Qed.

(** What a value that is no entity meets instead, once the manager is ready:
    the TypeError of the first property read. *)
Lemma non_entity_TypeError (ticket : value) (newName : string) (s : State) :
  ready (manager s) = true →
  (∀ t, ticket ≠ VTicket t) →
  closeTicket ticket s = (Thrown TypeError, s) ∧
  deleteTicket ticket s = (Thrown TypeError, s) ∧
  renameTicket ticket newName s = (Thrown TypeError, s) ∧
  reopenTicket ticket s = (Thrown TypeError, s).
Proof.
  intros Hready Hne.
  unfold closeTicket, deleteTicket, renameTicket, reopenTicket.
  rewrite !bind_run. cbn. rewrite Hready. cbn.
  destruct ticket; try done. by destruct (Hne t).
Qed.

(** C9.  For every argument, entity or not, the guard of [closeTicket],
    [deleteTicket], [renameTicket] and [reopenTicket] evaluates to [false],
    so that none of the four ever throws the "invalid ticket" error, in any
    state. *)
Theorem invalid_ticket_unreachable (ticket : value) (newName : string) (s : State) :
  instanceof_TextTicket (js_not ticket) = false ∧
  fst (closeTicket ticket s) ≠ Thrown (Error INVALID_TICKET) ∧
  fst (deleteTicket ticket s) ≠ Thrown (Error INVALID_TICKET) ∧
  fst (renameTicket ticket newName s) ≠ Thrown (Error INVALID_TICKET) ∧
  fst (reopenTicket ticket s) ≠ Thrown (Error INVALID_TICKET).
Proof.
  split_and!.
  - apply entity_guard_false.
  - apply closeTicket_never_invalid.
  - apply deleteTicket_never_invalid.
  - apply renameTicket_never_invalid.
  - apply reopenTicket_never_invalid.
Qed.

(** * Construction and load *)

(** A manager the constructor returned has a storage path, no record, no
    entity, and is not ready. *)
Lemma constructor_Returned (client : value) (options' : arg TextTicketManagerOptions)
    (m : TextTicketManager) :
  constructor client options' = Returned m →
  ∃ p, storage (options m) = Some p ∧ p ≠ "" ∧
       _rawTickets m = [] ∧ tickets m = ∅ ∧ ready m = false.
Proof.
  unfold constructor. intros H.
  destruct (negb (truthy client) || instanceof_Client (js_not client)); [done|].
  destruct (match options' with Undefined => Given default_options | o => o end)
    as [| |o]; try done.
  destruct (truthy_string (parentId o)); [|done].
  destruct (storage o) as [p|] eqn:Hp; [|done]. cbn in H.
  destruct (strict_eq p "") eqn:Hne; [done|]. cbn in H.
  injection H as <-. cbn. exists p. split_and!; try done.
  intros ->. discriminate Hne.
Qed.

(** The options the constructor insists on. *)
Lemma constructor_missing_options (client : value) (o : TextTicketManagerOptions) :
  truthy client = true →
  truthy_string (parentId o) = false ∨ truthy_string (storage o) = false →
  constructor client (Given o) = Thrown (Error MISSING_OPTIONS).
Proof.
  intros Hc Ho. unfold constructor. rewrite Hc. cbn.
  destruct Ho as [-> | ->]; [done|]. by rewrite orb_true_r.
Qed.

(** The client check rejects the falsy values, and only them. *)
Lemma constructor_invalid_client (client : value) (options' : arg TextTicketManagerOptions) :
  constructor client options' = Thrown (Error INVALID_CLIENT) ↔ truthy client = false.
Proof.
  unfold constructor. cbn. rewrite orb_false_r.
  destruct (truthy client); cbn; [|done].
  split; [|done].
  destruct options' as [| |o]; cbn; try done.
  by destruct (negb (truthy_string (parentId o)) || negb (truthy_string (storage o))).
Qed.

(** A constructor that throws has started nothing. *)
Lemma new_TextTicketManager_Thrown (client : value) (options' : arg TextTicketManagerOptions)
    (w w' : World) (e : exn) :
  new_TextTicketManager client options' w = (Thrown e, w') → w' = w.
Proof.
  unfold new_TextTicketManager.
  destruct (constructor client options'); [done|]. by intros [= _ <-].
Qed.

(** The load when the store file is missing and can be written. *)
Lemma _init_missing (s : State) (p : string) :
  storage (options (manager s)) = Some p →
  files (world s) !! p = None →
  writeFile_error (world s) p (JsonArray []) = None →
  _init s =
  (Returned tt,
   {| manager := set_ready true (set_rawTickets [] (manager s));
      world := record_event (FsWriteFile p (JsonArray []))
                 (set_files (<[p := JsonArray []]> (files (world s)))
                    (record_event (FsExists p) (world s))) |}).
Proof.
  intros Hp Hf Hw.
  unfold _init, _loadAllTickets, fs_exists, fs_writeFile.
  unfold_run. rewrite Hp. unfold_run. rewrite Hf. cbn. by rewrite Hw.
Qed.

(** The load when the store file is missing and cannot be written: the
    rejection of the write ends [_init], before it touched the manager. *)
Lemma _init_unwritable (s : State) (p code : string) :
  storage (options (manager s)) = Some p →
  files (world s) !! p = None →
  writeFile_error (world s) p (JsonArray []) = Some code →
  _init s =
  (Thrown (FsError code),
   {| manager := manager s;
      world := record_event (FsWriteFile p (JsonArray []))
                 (record_event (FsExists p) (world s)) |}).
Proof.
  intros Hp Hf Hw.
  unfold _init, _loadAllTickets, fs_exists, fs_writeFile.
  unfold_run. rewrite Hp. unfold_run. rewrite Hf. cbn. by rewrite Hw.
Qed.

(** The load when the store file holds no array. *)
Lemma _init_unusable (s : State) (p : string) (c : FileContent) :
  storage (options (manager s)) = Some p →
  files (world s) !! p = Some c →
  (∀ rs, c ≠ JsonArray rs) →
  _init s =
  (Returned tt,
   {| manager := set_ready true (set_rawTickets [] (manager s));
      world := record_event (FsReadFile p) (record_event (FsExists p) (world s)) |}).
Proof.
  intros Hp Hf Hc.
  unfold _init, _loadAllTickets, fs_exists, fs_readFile.
  unfold_run. rewrite Hp. unfold_run. rewrite Hf. cbn. rewrite Hf.
  destruct c as [text| |rs]; try reflexivity. by destruct (Hc rs).
Qed.




(** * Where the code departs from its documentation *)

(** C7, the failing input.  When the guild does not resolve, [createTicket]
    reads [.members] of [null] before it reaches its "not resolvable" check,
    and throws a TypeError. *)
Theorem createTicket_unknown_guild :
  guilds_resolve (discord (world Demo.loaded)) (ById "404") = None ∧
  createTicket (ById "404") (ById "7") Demo.loaded = (Thrown TypeError, Demo.loaded).
Proof. split; reflexivity. Qed.

(** The same in general, and the two resolutions whose failure the check
    does catch. *)
Lemma createTicket_guild_unresolved (guild : resolvable Guild) (user : resolvable User) (s : State) :
  ready (manager s) = true →
  client (manager s) = VClient →
  guilds_resolve (discord (world s)) guild = None →
  createTicket guild user s = (Thrown TypeError, s).
Proof.
  intros Hready Hclient Hg. unfold createTicket, the_client.
  rewrite !bind_run. cbn. rewrite Hready. cbn. rewrite !bind_run. cbn.
  rewrite Hclient. cbn. rewrite bind_run. by rewrite Hg.
Qed.

Lemma createTicket_member_unresolved (guild : resolvable Guild) (user : resolvable User)
    (g : Guild) (s : State) :
  ready (manager s) = true →
  client (manager s) = VClient →
  guilds_resolve (discord (world s)) guild = Some g →
  members_resolve g (users_resolve (discord (world s)) user) = None →
  createTicket guild user s = (Thrown (Error NOT_RESOLVABLE), s).
Proof.
  intros Hready Hclient Hg Hm. unfold createTicket, the_client.
  rewrite !bind_run. cbn. rewrite Hready. cbn. rewrite !bind_run. cbn.
  rewrite Hclient. cbn. rewrite bind_run. rewrite Hg. cbn. rewrite Hm.
  by destruct (users_resolve _ _).
Qed.

(** C8, the failing input.  A plain object is no client, and the constructor
    accepts it: [!client instanceof Discord.Client] is
    [(!client) instanceof Discord.Client], which is false for every
    [client].  The load starts and reads the disk. *)
Theorem constructor_accepts_plain_object :
  instanceof_Client VObject = false ∧
  ∃ m w',
    new_TextTicketManager VObject (Given Demo.options1) Demo.world1 = (Returned m, w') ∧
    client m = VObject ∧
    log w' = [FsExists "tickets.json"; FsReadFile "tickets.json"].
Proof. split; [reflexivity|]. eexists _, _. split_and!; reflexivity. Qed.

(** * Creating a ticket *)

(** What [createTicket] did when it returns. *)
Lemma createTicket_Returned (guild : resolvable Guild) (user : resolvable User)
    (ticket : TextTicket) (s s' : State) :
  createTicket guild user s = (Returned ticket, s') →
  ∃ g u c p,
    ready (manager s) = true ∧
    guilds_resolve (discord (world s)) guild = Some g ∧
    users_resolve (discord (world s)) user = Some u ∧
    storage (options (manager s)) = Some p ∧
    let r := created_record s g u c in
    let rawTickets' := _rawTickets (manager s) ++ [length (objects (world s))] in
    ticket = {| _data := length (objects (world s)) |} ∧
    manager s' = set_tickets (<[number r := ticket]> (tickets (manager s)))
                   (set_rawTickets rawTickets' (manager s)) ∧
    objects (world s') = objects (world s) ++ [r] ∧
    files (world s') = <[p := JsonArray (snapshot (objects (world s) ++ [r]) rawTickets')]>
                         (files (world s)).
Proof.
  unfold createTicket. intros H. inv_run H.
  destruct (ready (manager s)) eqn:Hready; cbn in H; [|solve [inv_run H]].
  inv_steps H. subst.
  destruct (guilds_resolve _ guild) as [g|] eqn:Hg; inv_steps H.
  destruct (users_resolve _ user) as [u|] eqn:Hu; [|solve [inv_run H]].
  destruct (members_resolve g (Some u)) as [m|]; [|solve [inv_run H]].
  destruct (channels_resolve _ g _) as [cat|]; [|solve [inv_run H]].
  destruct (negb _); [solve [inv_run H]|].
  inv_steps H. subst. cbn in *.
  match goal with
  | Hx : (_ ++ [?r]) !! length _ = Some ?x |- _ =>
      rewrite list_lookup_middle in Hx by done; injection Hx as <-
  end.
  match goal with Hc : rest _ _ = Fulfilled ?c |- _ => exists g, u, c end.
  eexists. split_and!; done.
Qed.

(** The number computed from records that all carry a numeral below 2^53
    is the numeral of the successor of the greatest of them. *)
Lemma newTicketNumber_max (rs : list RawTextTicketData) (g : Guild) :
  Forall numbered (of_guild g rs) →
  (max_number (of_guild g rs) < 2 ^ 53)%N →
  newTicketNumber rs g = toString (1 + max_number (of_guild g rs)).
Proof.
  intros Hn Hmax. unfold newTicketNumber. fold (of_guild g rs).
  assert (Hb : Forall (λ r, numbered r ∧ (ticket_number r < 2 ^ 53)%N) (of_guild g rs)).
  { apply Forall_forall. intros r Hr. split; [by eapply Forall_forall in Hn|].
    unfold max_number in Hmax. clear Hn.
    induction (of_guild g rs) as [|r' l IH]; [by apply elem_of_nil in Hr|].
    cbn in Hmax. apply elem_of_cons in Hr as [->|Hr]; [lia|]. apply IH; [lia | done]. }
  destruct (sort by_number_desc (of_guild g rs)) as [|h t] eqn:Hs; cbn.
  - pose proof (sort_Permutation by_number_desc (of_guild g rs)) as Hp.
    rewrite Hs in Hp. apply Permutation_nil_l in Hp. rewrite <- Hp.
    reflexivity.
  - assert (Hh : numbered h).
    { rewrite <- (sort_Permutation by_number_desc) in Hn. rewrite Hs in Hn.
      by apply Forall_cons in Hn as [? _]. }
    pose proof (sort_head_max by_number_desc ticket_number
                  (λ r, numbered r ∧ (ticket_number r < 2 ^ 53)%N)
                  by_number_desc_numbered _ _ _ Hb Hs) as Hhead.
    fold (max_number (of_guild g rs)) in Hhead. rewrite <- Hhead in Hmax |- *.
    destruct Hh as [Hne Hd].
    rewrite (parseInt_numeral _ (ticket_number h)); [|done| |done].
    + rewrite succ_toString_exact by done. by rewrite N.add_comm.
    + by apply numbered_digits.
Qed.

(** C2, as the code has it.  A [createTicket] that returns has given the new
    record the decimal numeral of 1 + the greatest number among the records in
    memory whose [guildId] is the resolved guild's id, provided each of those
    records carries a decimal numeral and the greatest is below 2^53, from
    where on JavaScript's numbers no longer count by ones; with no such record
    the number is 1. *)
Theorem createTicket_next_number (guild : resolvable Guild) (user : resolvable User)
    (g : Guild) (ticket : TextTicket) (s s' : State) :
  guilds_resolve (discord (world s)) guild = Some g →
  Forall numbered (of_guild g (records s)) →
  (max_number (of_guild g (records s)) < 2 ^ 53)%N →
  createTicket guild user s = (Returned ticket, s') →
  ∃ r, objects (world s') !! _data ticket = Some r ∧
       number r = toString (1 + max_number (of_guild g (records s))) ∧
       ticket_number r = (1 + max_number (of_guild g (records s)))%N ∧
       (of_guild g (records s) = [] → number r = "1").
Proof.
  intros Hg Hn Hmax H.
  apply createTicket_Returned in H as (g' & u & c & p & _ & Hg' & _ & _ & -> & _ & Ho & _).
  rewrite Hg in Hg'. injection Hg' as <-.
  exists (created_record s g u c).
  assert (Hnum : number (created_record s g u c)
                 = toString (1 + max_number (of_guild g (records s)))).
  { cbn. by apply newTicketNumber_max. }
  split_and!.
  - rewrite Ho. cbn. by apply list_lookup_middle.
  - done.
  - by apply toString_numbered.
  - intros Hnil. rewrite Hnum, Hnil. reflexivity.
Qed.

Lemma createTicket_next_number_witness :
  ∃ r, objects (world (snd (createTicket (ById "100") (ById "8") Demo.loaded))) !! 3 = Some r ∧
       number r = toString (1 + max_number (of_guild Demo.guild1 (records Demo.loaded))) ∧
       ticket_number r = (1 + max_number (of_guild Demo.guild1 (records Demo.loaded)))%N ∧
       (of_guild Demo.guild1 (records Demo.loaded) = [] → number r = "1").
Proof.
  apply (createTicket_next_number (ById "100") (ById "8") Demo.guild1 {| _data := 3 |}
           Demo.loaded).
  - reflexivity.
  - decide_by_computation.
  - vm_compute. reflexivity.
  - vm_compute. reflexivity.
Defined.

(** C2, as stated, fails in two kinds of states.  After the load of a file
    whose records of the guild are numbered x, 9 and 5, the sort leaves x in
    front (a difference with x is NaN), [parseInt] reads no number in it, and
    the new ticket is numbered NaN.  After the load of a file whose record
    carries 2^53, the sum 2^53 + 1 is rounded to 2^53, and the new ticket gets
    the number that is taken. *)
Lemma createTicket_number_not_successor :
  (let s := snd (_init {| manager := manager Demo.booting; world := stray_disk |}) in
   number <$> of_guild Demo.guild1 (records s) = ["x"; "9"; "5"] ∧
   ∃ ticket s',
     createTicket (ById "100") (ById "8") s = (Returned ticket, s') ∧
     number <$> objects (world s') !! _data ticket = Some "NaN") ∧
  (let s := snd (_init {| manager := manager Demo.booting; world := saturated_disk |}) in
   number <$> of_guild Demo.guild1 (records s) = ["9007199254740992"] ∧
   ∃ ticket s',
     createTicket (ById "100") (ById "8") s = (Returned ticket, s') ∧
     number <$> objects (world s') !! _data ticket = Some "9007199254740992").
Proof.
  split; (split; [reflexivity|]); eexists _, _; split; vm_compute; reflexivity.
Qed.

(** C3.  After a [createTicket] that returns, the store file holds the
    records that were in memory before the call, in their order, followed by
    one new record, whose status is "open" and whose participants are
    none; the records in memory are the same list. *)
Theorem createTicket_appends_record (guild : resolvable Guild) (user : resolvable User)
    (ticket : TextTicket) (s s' : State) :
  valid_refs s →
  createTicket guild user s = (Returned ticket, s') →
  ∃ p r,
    storage (options (manager s)) = Some p ∧
    files (world s') !! p = Some (JsonArray (records s ++ [r])) ∧
    records s' = records s ++ [r] ∧
    objects (world s') !! _data ticket = Some r ∧
    status r = "open" ∧
    participants r = [].
Proof.
  intros Hvalid H.
  apply createTicket_Returned in H as (g & u & c & p & _ & _ & _ & Hp & -> & Hm & Ho & Hf).
  exists p, (created_record s g u c).
  rewrite snapshot_push in Hf by done.
  split_and!; try done.
  - by rewrite Hf, lookup_insert_eq.
  - unfold records. rewrite Hm, Ho. cbn. by apply snapshot_push.
  - rewrite Ho. cbn. by apply list_lookup_middle.
Qed.

Lemma createTicket_appends_record_witness :
  ∃ p r,
    storage (options (manager Demo.loaded)) = Some p ∧
    files (world (snd (createTicket (ById "100") (ByInstance {| user_id := "7" |}) Demo.loaded))) !! p
    = Some (JsonArray (records Demo.loaded ++ [r])) ∧
    records (snd (createTicket (ById "100") (ByInstance {| user_id := "7" |}) Demo.loaded))
    = records Demo.loaded ++ [r] ∧
    objects (world (snd (createTicket (ById "100") (ByInstance {| user_id := "7" |}) Demo.loaded))) !! 3 = Some r ∧
    status r = "open" ∧
    participants r = [].
Proof.
  apply (createTicket_appends_record (ById "100") (ByInstance {| user_id := "7" |})
           {| _data := 3 |} Demo.loaded).
  - decide_by_computation.
  - vm_compute. reflexivity.
Defined.

(** * Closing and reopening *)

(** Both methods end in [restatus], run on the state the remote edit left:
    same manager, same objects, same files. *)
Lemma flipTicket_Returned (f : flip) (ticket : value) (newTicket : TextTicket) (s s' : State) :
  flipTicket f ticket s = (Returned newTicket, s') →
  ∃ t s1,
    ticket = VTicket t ∧
    ready (manager s) = true ∧
    manager s1 = manager s ∧
    objects (world s1) = objects (world s) ∧
    files (world s1) = files (world s) ∧
    restatus (flip_event f) (flipped_status f) t s1 = (Returned newTicket, s').
Proof.
  destruct f; cbn; unfold closeTicket, reopenTicket; intros H.
  - inv_run H.
    destruct (ready (manager s)) eqn:Hready; cbn in H; [|solve [inv_run H]].
    inv_steps H.
    destruct (channels_resolve _ _ _); [|solve [inv_run H]].
    inv_steps H.
    match type of H with restatus _ _ ?t ?s1 = _ => exists t, s1 end.
    by split_and!.
  - inv_run H.
    destruct (ready (manager s)) eqn:Hready; cbn in H; [|solve [inv_run H]].
    inv_steps H.
    destruct (channels_resolve _ _ _); [|solve [inv_run H]].
    destruct (negb _); [solve [inv_run H]|].
    inv_steps H.
    match type of H with restatus _ _ ?t ?s1 = _ => exists t, s1 end.
    by split_and!.
Qed.

(** C10.  [closeTicket] and [reopenTicket] assign the status in the record
    object the argument entity references: after a call that returns, that
    object carries the new status and its other five fields as before, every
    other object of the store is as before, the array of records holds the
    same references at the same positions, and the returned entity references
    the same object as the argument, which therefore shows the new status
    too. *)
Theorem flipTicket_mutates_in_place (f : flip) (ticket : value) (newTicket : TextTicket)
    (s s' : State) :
  flipTicket f ticket s = (Returned newTicket, s') →
  ∃ t r r',
    ticket = VTicket t ∧
    objects (world s) !! _data t = Some r ∧
    objects (world s') !! _data t = Some r' ∧
    status r' = flipped_status f ∧
    channelId r' = channelId r ∧ creatorId r' = creatorId r ∧ guildId r' = guildId r ∧
    number r' = number r ∧ participants r' = participants r ∧
    (∀ l, l ≠ _data t → objects (world s') !! l = objects (world s) !! l) ∧
    _rawTickets (manager s') = _rawTickets (manager s) ∧
    _data newTicket = _data t.
Proof.
  intros H.
  apply flipTicket_Returned in H as (t & s1 & -> & _ & Hm & Ho & _ & H).
  apply restatus_Returned in H as (r & p & Hr & _ & -> & Hm' & Hw').
  rewrite Ho in Hr, Hw'. rewrite Hm in Hm'.
  exists t, r, (set_status (flipped_status f) r).
  rewrite Hw', Hm'. cbn.
  split_and!; try done.
  - apply list_lookup_insert_eq. by eapply lookup_lt_Some.
  - intros l Hl. by apply list_lookup_insert_ne.
Qed.

Lemma flipTicket_mutates_in_place_witness :
  ∃ t r r',
    VTicket {| _data := 1 |} = VTicket t ∧
    objects (world Demo.loaded) !! _data t = Some r ∧
    objects (world (snd (reopenTicket (VTicket {| _data := 1 |}) Demo.loaded))) !! _data t = Some r' ∧
    status r' = "open" ∧
    channelId r' = channelId r ∧ creatorId r' = creatorId r ∧ guildId r' = guildId r ∧
    number r' = number r ∧ participants r' = participants r ∧
    (∀ l, l ≠ _data t →
          objects (world (snd (reopenTicket (VTicket {| _data := 1 |}) Demo.loaded))) !! l
          = objects (world Demo.loaded) !! l) ∧
    _rawTickets (manager (snd (reopenTicket (VTicket {| _data := 1 |}) Demo.loaded)))
    = _rawTickets (manager Demo.loaded) ∧
    _data {| _data := 1 |} = _data t.
Proof.
  apply (flipTicket_mutates_in_place Reopen (VTicket {| _data := 1 |}) {| _data := 1 |}
           Demo.loaded).
  vm_compute. reflexivity.
Defined.

(** C4.  After a [closeTicket] that returns, on a ticket whose record is one
    of the manager's, that record's status is "closed"; the returned entity
    has the argument's number; and the store file holds the records in memory,
    which are those from before the call, as many and in the same order, with
    the status of that one record replaced (whatever its status was). *)
Theorem closeTicket_closes (t newTicket : TextTicket) (s s' : State) :
  valid_refs s →
  NoDup (_rawTickets (manager s)) →
  _data t ∈ _rawTickets (manager s) →
  closeTicket (VTicket t) s = (Returned newTicket, s') →
  ∃ k r p,
    _rawTickets (manager s) !! k = Some (_data t) ∧
    records s !! k = Some r ∧
    objects (world s') !! _data t = Some (set_status "closed" r) ∧
    number <$> objects (world s') !! _data newTicket = number <$> objects (world s) !! _data t ∧
    storage (options (manager s)) = Some p ∧
    files (world s') !! p = Some (JsonArray (records s')) ∧
    records s' = <[k := set_status "closed" r]> (records s) ∧
    length (records s') = length (records s).
Proof.
  intros Hvalid Hnodup Hin H.
  apply (flipTicket_Returned Close) in H as (t0 & s1 & [= <-] & _ & Hm & Ho & _ & H).
  apply restatus_Returned in H as (r & p & Hr & Hp & -> & Hm' & Hw').
  rewrite Ho in Hr, Hw'. rewrite Hm in Hm', Hw', Hp. cbn in Hw'.
  apply list_elem_of_lookup in Hin as [k Hk].
  assert (Hrec : records s' = <[k := set_status "closed" r]> (records s)).
  { unfold records. rewrite Hw', Hm'. cbn. by apply snapshot_update. }
  exists k, r, p. split_and!; try done.
  - unfold records. rewrite snapshot_lookup by done. rewrite Hk. done.
  - rewrite Hw'. cbn. apply list_lookup_insert_eq. by eapply lookup_lt_Some.
  - rewrite Hw'. cbn. rewrite list_lookup_insert_eq by (by eapply lookup_lt_Some).
    by rewrite Hr.
  - rewrite Hrec. unfold records. rewrite Hw'. cbn. rewrite lookup_insert_eq.
    by rewrite (snapshot_update _ _ k).
  - by rewrite Hrec, length_insert.
Qed.

Lemma closeTicket_closes_witness :
  ∃ k r p,
    _rawTickets (manager Demo.loaded) !! k = Some 0 ∧
    records Demo.loaded !! k = Some r ∧
    objects (world (snd (closeTicket (VTicket {| _data := 0 |}) Demo.loaded))) !! 0
    = Some (set_status "closed" r) ∧
    number <$> objects (world (snd (closeTicket (VTicket {| _data := 0 |}) Demo.loaded))) !! 0
    = number <$> objects (world Demo.loaded) !! 0 ∧
    storage (options (manager Demo.loaded)) = Some p ∧
    files (world (snd (closeTicket (VTicket {| _data := 0 |}) Demo.loaded))) !! p
    = Some (JsonArray (records (snd (closeTicket (VTicket {| _data := 0 |}) Demo.loaded)))) ∧
    records (snd (closeTicket (VTicket {| _data := 0 |}) Demo.loaded))
    = <[k := set_status "closed" r]> (records Demo.loaded) ∧
    length (records (snd (closeTicket (VTicket {| _data := 0 |}) Demo.loaded)))
    = length (records Demo.loaded).
Proof.
  apply (closeTicket_closes {| _data := 0 |} {| _data := 0 |} Demo.loaded).
  - decide_by_computation.
  - decide_by_computation.
  - decide_by_computation.
  - vm_compute. reflexivity.
Defined.

(** * Deleting a ticket *)

Lemma other_channels_snapshot (o : list RawTextTicketData) (cid : Snowflake) (l : list ref) :
  Forall (λ r, channelId r ≠ cid) (snapshot o (other_channels o cid l)).
Proof.
  unfold snapshot, other_channels.
  induction l as [|i l IH]; cbn; [constructor|].
  destruct (o !! i) as [r|] eqn:Hr; [|by cbn; rewrite Hr].
  unfold strict_eq. destruct (String.eqb_spec (channelId r) cid); cbn; [done|].
  rewrite Hr. by constructor.
Qed.

(** What [deleteTicket] did when it returns. *)
Lemma deleteTicket_Returned (ticket : value) (b : bool) (s s' : State) :
  deleteTicket ticket s = (Returned b, s') →
  ∃ t r p,
    ticket = VTicket t ∧
    ready (manager s) = true ∧
    objects (world s) !! _data t = Some r ∧
    storage (options (manager s)) = Some p ∧
    b = true ∧
    let rawTickets' := other_channels (objects (world s)) (channelId r) (_rawTickets (manager s)) in
    manager s' = set_tickets (delete (number r) (tickets (manager s)))
                   (set_rawTickets rawTickets' (manager s)) ∧
    objects (world s') = objects (world s) ∧
    files (world s') = <[p := JsonArray (snapshot (objects (world s)) rawTickets')]>
                         (files (world s)).
Proof.
  unfold deleteTicket. intros H. inv_run H.
  destruct (ready (manager s)) eqn:Hready; cbn in H; [|solve [inv_run H]].
  inv_steps H. subst. cbn in *.
  repeat match goal with
         | H1 : ?x = Some ?a, H2 : ?x = Some ?b |- _ =>
             rewrite H1 in H2; injection H2 as <-
         end.
  eexists _, _, _. split_and!; done.
Qed.

(** C5.  After a [deleteTicket] that returns, no record in memory has the
    ticket's channel id, the store file holds exactly the records in memory,
    the index has no entry under the ticket's number and (the index being
    keyed by number) no entity of it references the ticket's record; and the
    method returned [true]. *)
Theorem deleteTicket_removes (ticket : value) (b : bool) (s s' : State) :
  index_keyed s →
  deleteTicket ticket s = (Returned b, s') →
  ∃ t r p,
    ticket = VTicket t ∧
    objects (world s) !! _data t = Some r ∧
    b = true ∧
    Forall (λ r', channelId r' ≠ channelId r) (records s') ∧
    storage (options (manager s)) = Some p ∧
    files (world s') !! p = Some (JsonArray (records s')) ∧
    tickets (manager s') !! number r = None ∧
    (∀ k t', tickets (manager s') !! k = Some t' → _data t' ≠ _data t).
Proof.
  intros Hidx H.
  apply deleteTicket_Returned in H as (t & r & p & -> & _ & Hr & Hp & -> & Hm & Ho & Hf).
  exists t, r, p.
  assert (Hrec : records s' = snapshot (objects (world s))
                   (other_channels (objects (world s)) (channelId r) (_rawTickets (manager s)))).
  { unfold records. by rewrite Hm, Ho. }
  split_and!; try done.
  - rewrite Hrec. apply other_channels_snapshot.
  - by rewrite Hf, Hrec, lookup_insert_eq.
  - rewrite Hm. cbn. apply lookup_delete_eq.
  - intros k t' Hk Heq. rewrite Hm in Hk. cbn in Hk.
    apply lookup_delete_Some in Hk as [Hne Hk].
    apply Hidx in Hk. rewrite Heq, Hr in Hk. cbn in Hk. congruence.
Qed.

Lemma deleteTicket_removes_witness :
  ∃ t r p,
    VTicket {| _data := 1 |} = VTicket t ∧
    objects (world Demo.loaded) !! _data t = Some r ∧
    true = true ∧
    Forall (λ r', channelId r' ≠ channelId r)
      (records (snd (deleteTicket (VTicket {| _data := 1 |}) Demo.loaded))) ∧
    storage (options (manager Demo.loaded)) = Some p ∧
    files (world (snd (deleteTicket (VTicket {| _data := 1 |}) Demo.loaded))) !! p
    = Some (JsonArray (records (snd (deleteTicket (VTicket {| _data := 1 |}) Demo.loaded)))) ∧
    tickets (manager (snd (deleteTicket (VTicket {| _data := 1 |}) Demo.loaded))) !! number r
    = None ∧
    (∀ k t', tickets (manager (snd (deleteTicket (VTicket {| _data := 1 |}) Demo.loaded))) !! k
             = Some t' → _data t' ≠ _data t).
Proof.
  apply (deleteTicket_removes (VTicket {| _data := 1 |}) true Demo.loaded).
  - intros k t Hk.
    apply (map_Forall_lookup_1 (λ k t, number <$> objects (world Demo.loaded) !! _data t = Some k)
             (tickets (manager Demo.loaded))); [|done].
    decide_by_computation.
  - vm_compute. reflexivity.
Defined.

(** * The state stays well formed *)

Section Triples.
Context {A B : Type}.
Implicit Types (P : State → Prop) (E : State → Prop).

Lemma triple_ret P (a : A) (Q : A → State → Prop) E :
  (∀ s, P s → Q a s) → triple P (mret a) Q E.
Proof. intros H s Hs. by apply H. Qed.

Lemma triple_throw P (e : exn) (Q : A → State → Prop) E :
  (∀ s, P s → E s) → triple P (throw e) Q E.
Proof. intros H s Hs. by apply H. Qed.

Lemma triple_bind P (m : M A) (f : A → M B) (R : A → State → Prop)
    (Q : B → State → Prop) E :
  triple P m R E → (∀ a, triple (R a) (f a) Q E) → triple P (m ≫= f) Q E.
Proof.
  intros Hm Hf s Hs. rewrite bind_run. specialize (Hm s Hs).
  destruct (m s) as [[a|e] s1]; [by apply Hf | done].
Qed.

Lemma triple_weaken P P' (m : M A) (Q Q' : A → State → Prop) E E' :
  triple P' m Q' E' →
  (∀ s, P s → P' s) → (∀ a s, Q' a s → Q a s) → (∀ s, E' s → E s) →
  triple P m Q E.
Proof.
  intros Hm HP HQ HE s Hs. specialize (Hm s (HP s Hs)).
  destruct (m s) as [[a|e] s1]; auto.
Qed.

End Triples.

Lemma triple_get (P : State → Prop) (Q : State → State → Prop) (E : State → Prop) :
  (∀ s, P s → Q s s) → triple P get Q E.
Proof. intros H s Hs. by apply H. Qed.

Lemma triple_modify (P : State → Prop) (f : State → State) (Q : unit → State → Prop)
    (E : State → Prop) :
  (∀ s, P s → Q tt (f s)) → triple P (modify f) Q E.
Proof. intros H s Hs. by apply H. Qed.

(** A step that leaves the state alone keeps whatever held, and what it
    returns is what its returning run returns. *)
Lemma triple_readonly {A : Type} (P : State → Prop) (m : M A) :
  readonly m →
  triple P m (λ a s, P s ∧ m s = (Returned a, s)) P.
Proof.
  intros Hm s Hs. specialize (Hm s).
  destruct (m s) as [[a|e] s1] eqn:Hrun; cbn in Hm; by subst.
Qed.

Lemma readonly_ret {A : Type} (a : A) : readonly (mret a).
Proof. done. Qed.

Lemma readonly_throw {A : Type} (e : exn) : readonly (throw (A := A) e).
Proof. done. Qed.

Lemma readonly_get : readonly get.
Proof. done. Qed.

Lemma readonly_bind {A B : Type} (m : M A) (f : A → M B) :
  readonly m → (∀ a, readonly (f a)) → readonly (m ≫= f).
Proof.
  intros Hm Hf s. rewrite bind_run. specialize (Hm s).
  destruct (m s) as [[a|e] s1]; cbn in Hm; subst; [apply Hf | done].
Qed.

Ltac readonly :=
  repeat first
    [ apply readonly_ret | apply readonly_throw | apply readonly_get
    | apply readonly_bind; [|intros] | case_match ].

Lemma the_ticket_readonly (v : value) : readonly (the_ticket v).
Proof. unfold the_ticket. readonly. Qed.

Lemma ticket_data_readonly (t : TextTicket) : readonly (ticket_data t).
Proof. unfold ticket_data. readonly. Qed.

Lemma the_client_readonly : readonly the_client.
Proof. unfold the_client. readonly. Qed.

Lemma ticket_guild_readonly (t : TextTicket) : readonly (ticket_guild t).
Proof.
  unfold ticket_guild.
  apply readonly_bind; [apply ticket_data_readonly | intros r].
  apply readonly_bind; [apply the_client_readonly | intros d]. readonly.
Qed.

Lemma ticket_channel_readonly (t : TextTicket) : readonly (ticket_channel t).
Proof.
  unfold ticket_channel.
  apply readonly_bind; [apply ticket_data_readonly | intros r].
  apply readonly_bind; [apply the_client_readonly | intros d]. readonly.
Qed.

Lemma checkDoubleTickets_readonly (g u : Snowflake) : readonly (checkDoubleTickets g u).
Proof. unfold checkDoubleTickets. readonly. Qed.

Lemma triple_pure {A : Type} (P : State → Prop) (Φ : Prop) (m : M A)
    (Q : A → State → Prop) (E : State → Prop) :
  (Φ → triple P m Q E) → triple (λ s, P s ∧ Φ) m Q E.
Proof. intros H s [Hs HΦ]. by apply H. Qed.

Lemma triple_readonly_keeps {A : Type} (P : State → Prop) (m : M A) :
  readonly m → triple P m (λ _, P) P.
Proof.
  intros Hm. eapply triple_weaken; [by apply triple_readonly | done | | done].
  by intros a s [Hs _].
Qed.

Ltac readonly_step :=
  first [ apply the_ticket_readonly | apply ticket_data_readonly | apply the_client_readonly
        | apply ticket_guild_readonly | apply ticket_channel_readonly
        | apply checkDoubleTickets_readonly
        | apply readonly_get | apply readonly_ret | apply readonly_throw ].

Lemma elem_of_List_filter {A : Type} (f : A → bool) (l : list A) (x : A) :
  x ∈ List.filter f l → x ∈ l.
Proof. rewrite !list_elem_of_In, filter_In. tauto. Qed.

Lemma Forall_List_filter {A : Type} (P : A → Prop) (f : A → bool) (l : list A) :
  Forall P l → Forall P (List.filter f l).
Proof.
  rewrite !Forall_forall. intros H x Hx. by apply H, (elem_of_List_filter f).
Qed.

Lemma NoDup_List_filter {A : Type} (f : A → bool) (l : list A) :
  NoDup l → NoDup (List.filter f l).
Proof.
  induction 1 as [|x l Hx Hl IH]; cbn; [constructor|].
  destruct (f x); [|done].
  constructor; [|done]. intros Hin. by apply Hx, (elem_of_List_filter f).
Qed.

(** Well-formedness speaks of the manager and of the objects only. *)
Lemma well_formed_frame (s s' : State) :
  well_formed s →
  manager s' = manager s → objects (world s') = objects (world s) →
  well_formed s'.
Proof.
  intros [Hv Hn Hi] Hm Ho.
  split; unfold valid_refs, index_keyed in *; rewrite ?Hm, ?Ho; done.
Qed.

Lemma await_rest_consistent (r : Request) :
  triple well_formed (await_rest r) (λ _, well_formed) well_formed.
Proof.
  intros s Hs. unfold await_rest. unfold_run.
  destruct (rest _ r); cbn; by apply (well_formed_frame s).
Qed.

Lemma _saveRawTickets_consistent :
  triple well_formed _saveRawTickets (λ _, well_formed) well_formed.
Proof.
  intros s Hs. unfold _saveRawTickets, fs_writeFile. unfold_run.
  destruct (storage _); cbn; [|done].
  destruct (writeFile_error _ _ _); cbn; by apply (well_formed_frame s).
Qed.

Lemma emit_consistent (event : string) (t : TextTicket) :
  triple well_formed (emit event t) (λ _, well_formed) well_formed.
Proof.
  intros s Hs. unfold emit. unfold_run.
  destruct (listener_error _ _ _); cbn; by apply (well_formed_frame s).
Qed.

Lemma tickets_set_consistent (t : TextTicket) :
  triple well_formed (tickets_set t) (λ _, well_formed) well_formed.
Proof.
  intros s [Hv Hn Hi]. unfold tickets_set, ticket_data. unfold_run.
  destruct (objects (world s) !! _data t) as [r|] eqn:Hr; cbn; [|done].
  split; [done..|].
  intros k t' Hk. cbn in Hk.
  apply lookup_insert_Some in Hk as [[<- <-]|[_ Hk]]; cbn; [by rewrite Hr | by apply Hi].
Qed.

(** Assigning a status keeps every number, hence the index. *)
Lemma set_status_consistent (s : State) (l : ref) (r : RawTextTicketData) (st : string) :
  objects (world s) !! l = Some r →
  well_formed s →
  well_formed (with_world (λ w, set_objects (<[l := set_status st r]> (objects w)) w) s).
Proof.
  intros Hr [Hv Hn Hi]. split; [|done|].
  - unfold valid_refs. cbn. by rewrite length_insert.
  - intros k t Hk. cbn. specialize (Hi k t Hk).
    destruct (decide (_data t = l)) as [Heq|Hne].
    + rewrite Heq in *.
      rewrite list_lookup_insert_eq by (by eapply lookup_lt_Some).
      rewrite Hr in Hi. done.
    + by rewrite list_lookup_insert_ne.
Qed.

Lemma restatus_consistent (event new_status : string) (t : TextTicket) :
  triple well_formed (restatus event new_status t) (λ _, well_formed) well_formed.
Proof.
  unfold restatus.
  eapply triple_bind; [apply triple_readonly, ticket_data_readonly|].
  intros r. cbn.
  eapply triple_bind.
  { apply triple_modify with (Q := λ _, well_formed).
    intros s [Hs Hr]. apply ticket_data_Returned in Hr as [Hr _].
    by apply set_status_consistent. }
  intros ?. eapply triple_bind; [apply tickets_set_consistent|]. intros ?.
  eapply triple_bind.
  { apply triple_modify with (Q := λ _, well_formed).
    intros s Hs. apply (well_formed_frame s); [done| |done].
    cbn. rewrite array_assign_indexOf. by destruct (manager s). }
  intros ?. eapply triple_bind; [apply _saveRawTickets_consistent|]. intros ?.
  eapply triple_bind; [apply emit_consistent|]. intros ?.
  by apply triple_ret.
Qed.

Lemma filter_consistent (f : State → ref → bool) :
  triple well_formed
    (modify (λ s, with_manager (set_rawTickets (List.filter (f s) (_rawTickets (manager s)))) s))
    (λ _, well_formed) well_formed.
Proof.
  apply triple_modify. intros s [Hv Hn Hi]. split.
  - by apply Forall_List_filter.
  - by apply NoDup_List_filter.
  - done.
Qed.

Lemma delete_consistent (k : string) :
  triple well_formed
    (modify (with_manager (λ m, set_tickets (delete k (tickets m)) m)))
    (λ _, well_formed) well_formed.
Proof.
  apply triple_modify. intros s [Hv Hn Hi]. split; [done..|].
  intros k' t Hk. cbn in Hk. apply lookup_delete_Some in Hk as [_ Hk]. by apply Hi.
Qed.

(** A fresh object is referenced by nothing yet. *)
Lemma alloc_consistent (r : RawTextTicketData) :
  triple well_formed (alloc r)
    (λ l s, well_formed s ∧ objects (world s) !! l = Some r ∧ l ∉ _rawTickets (manager s))
    well_formed.
Proof.
  intros s [Hv Hn Hi]. unfold alloc. unfold_run. split_and!.
  - split; [|done|].
    + unfold valid_refs in *. cbn. rewrite length_app. cbn.
      eapply Forall_impl; [exact Hv|]. cbn. lia.
    + intros k t Hk. cbn. specialize (Hi k t Hk).
      destruct (objects (world s) !! _data t) as [r'|] eqn:Hr; [|done].
      by rewrite (lookup_app_l_Some _ _ _ _ Hr).
  - by apply list_lookup_middle.
  - intros Hin. unfold valid_refs in Hv. rewrite Forall_forall in Hv.
    specialize (Hv _ Hin). lia.
Qed.

Lemma push_consistent (l : ref) (r : RawTextTicketData) :
  triple (λ s, well_formed s ∧ objects (world s) !! l = Some r ∧ l ∉ _rawTickets (manager s))
    (modify (with_manager (λ m, set_rawTickets (_rawTickets m ++ [l]) m)))
    (λ _, well_formed) well_formed.
Proof.
  apply triple_modify. intros s ([Hv Hn Hi] & Hl & Hfresh).
  split; [| |done].
  - unfold valid_refs in *. cbn. apply Forall_app. split; [done|].
    constructor; [by eapply lookup_lt_Some | done].
  - cbn. apply NoDup_app. split_and!; [done| |apply NoDup_singleton].
    intros x Hx ->%list_elem_of_singleton. done.
Qed.

(** Proves that a method keeps the state well formed, step by step. *)
Ltac consistent_steps :=
  repeat first
    [ apply triple_ret; done
    | apply triple_throw; done
    | apply await_rest_consistent
    | apply restatus_consistent
    | apply _saveRawTickets_consistent
    | apply emit_consistent
    | apply tickets_set_consistent
    | apply delete_consistent
    | apply (filter_consistent (λ s rawTicket, match objects (world s) !! rawTicket with
                                              | Some rawTicket => _
                                              | None => true
                                              end))
    | apply triple_readonly_keeps; readonly_step
    | eapply triple_bind; [apply alloc_consistent | intros; cbn beta];
      eapply triple_bind; [apply push_consistent | intros]
    | eapply triple_bind; [|intros]
    | case_match ].

Lemma closeTicket_consistent (ticket : value) :
  triple well_formed (closeTicket ticket) (λ _, well_formed) well_formed.
Proof. unfold closeTicket. consistent_steps. Qed.

Lemma reopenTicket_consistent (ticket : value) :
  triple well_formed (reopenTicket ticket) (λ _, well_formed) well_formed.
Proof. unfold reopenTicket. consistent_steps. Qed.

Lemma renameTicket_consistent (ticket : value) (newName : string) :
  triple well_formed (renameTicket ticket newName) (λ _, well_formed) well_formed.
Proof. unfold renameTicket. consistent_steps. Qed.

Lemma checkDoubleTickets_consistent (g u : Snowflake) :
  triple well_formed (checkDoubleTickets g u) (λ _, well_formed) well_formed.
Proof. apply triple_readonly_keeps, checkDoubleTickets_readonly. Qed.

Lemma deleteTicket_consistent (ticket : value) :
  triple well_formed (deleteTicket ticket) (λ _, well_formed) well_formed.
Proof. unfold deleteTicket. consistent_steps. Qed.

Lemma createTicket_consistent (guild : resolvable Guild) (user : resolvable User) :
  triple well_formed (createTicket guild user) (λ _, well_formed) well_formed.
Proof. unfold createTicket. consistent_steps. Qed.

(** Every method keeps the state well formed, whether it returns or
    throws. *)
Lemma invoke_well_formed (c : call) (s : State) :
  well_formed s → well_formed (snd (invoke c s)).
Proof.
  intros Hs.
  assert (H : triple well_formed (invoke c) (λ _, well_formed) well_formed).
  { destruct c; cbn;
      (eapply triple_bind;
       [ first [ apply checkDoubleTickets_consistent | apply closeTicket_consistent
               | apply createTicket_consistent | apply deleteTicket_consistent
               | apply renameTicket_consistent | apply reopenTicket_consistent ]
       | intros; by apply triple_ret ]). }
  specialize (H s Hs). by destruct (invoke c s) as [[a|e] s'].
Qed.

(** ** The load *)

Lemma alloc_run (r : RawTextTicketData) (s : State) :
  alloc r s = (Returned (length (objects (world s))),
               with_world (λ w, set_objects (objects w ++ [r]) w) s).
Proof. reflexivity. Qed.

(** [JSON.parse] builds one fresh object per record, in order. *)
Lemma mapM_alloc_run (rs : list RawTextTicketData) (s : State) :
  mapM alloc rs s =
  (Returned (seq (length (objects (world s))) (length rs)),
   with_world (λ w, set_objects (objects w ++ rs) w) s).
Proof.
  revert s. induction rs as [|r rs IH]; intros s.
  - cbn. unfold_run. unfold with_world, set_objects. rewrite app_nil_r.
    by destruct s as [m []].
  - cbn [mapM]. rewrite bind_run, alloc_run, bind_run, IH.
    unfold_run. unfold with_world, set_objects. cbn.
    rewrite length_app, Nat.add_1_r. by rewrite <- app_assoc.
Qed.

Lemma tickets_set_run (t : TextTicket) (r : RawTextTicketData) (s : State) :
  objects (world s) !! _data t = Some r →
  tickets_set t s
  = (Returned tt, with_manager (λ m, set_tickets (<[number r := t]> (tickets m)) m) s).
Proof. intros Hr. unfold tickets_set, ticket_data. unfold_run. by rewrite Hr. Qed.

Lemma for_of_cons {A : Type} (x : A) (l : list A) (body : A → M unit) :
  for_of (x :: l) body = (body x ≫= λ _, for_of l body).
Proof. reflexivity. Qed.

(** The loop of [_init] over references that all denote objects: it returns,
    and changes the index only, which stays keyed by number. *)
Lemma for_of_tickets_set_run (l : list ref) (s : State) :
  Forall (λ i, i < length (objects (world s))) l →
  ∃ m', for_of l (λ rawTicket, tickets_set {| _data := rawTicket |}) s
        = (Returned tt, with_manager (set_tickets m') s) ∧
        (index_keyed s → index_keyed (with_manager (set_tickets m') s)).
Proof.
  intros Hl. revert s Hl. induction l as [|i l IH]; intros s Hl.
  - exists (tickets (manager s)). split; [|done].
    cbn. unfold_run. by destruct s as [[] w].
  - apply Forall_cons in Hl as [Hi Hl].
    destruct (lookup_lt_is_Some_2 _ _ Hi) as [r Hr].
    pose (s1 := with_manager (λ m, set_tickets (<[number r := {| _data := i |}]> (tickets m)) m) s).
    destruct (IH s1 Hl) as (m' & Hrun & Hidx).
    exists m'. split.
    + rewrite for_of_cons, bind_run, (tickets_set_run _ r) by done.
      fold s1. by rewrite Hrun.
    + intros Hs. apply Hidx. intros k t Hk. cbn in Hk.
      apply lookup_insert_Some in Hk as [[<- <-]|[_ Hk]]; cbn; [by rewrite Hr | by apply Hs].
Qed.

Lemma _loadAllTickets_array (s : State) (p : string) (rs : list RawTextTicketData) :
  storage (options (manager s)) = Some p →
  files (world s) !! p = Some (JsonArray rs) →
  _loadAllTickets s =
  (Returned (seq (length (objects (world s))) (length rs)),
   with_world (λ w, set_objects (objects w ++ rs)
                      (record_event (FsReadFile p) (record_event (FsExists p) w))) s).
Proof.
  intros Hp Hf. unfold _loadAllTickets, fs_exists, fs_readFile.
  unfold_run. rewrite Hp. unfold_run. rewrite Hf. cbn. rewrite Hf.
  by rewrite mapM_alloc_run.
Qed.

(** The load of a manager the constructor returned leaves the state well
    formed, whether it returns or rejects. *)
Lemma _init_well_formed (s : State) (p : string) :
  storage (options (manager s)) = Some p →
  tickets (manager s) = ∅ →
  _rawTickets (manager s) = [] →
  well_formed (snd (_init s)).
Proof.
  intros Hp Ht Hraw.
  assert (Hempty : ∀ s' : State, tickets (manager s') = ∅ → index_keyed s').
  { intros s' Hs' k t. by rewrite Hs'. }
  destruct (files (world s) !! p) as [c|] eqn:Hf.
  - assert (Hc : (∃ rs, c = JsonArray rs) ∨ (∀ rs, c ≠ JsonArray rs)).
    { destruct c; eauto. }
    destruct Hc as [[rs ->]|Hc].
    + unfold _init. rewrite bind_run, (_loadAllTickets_array s p rs) by done.
      rewrite bind_run. unfold_run.
      match goal with |- context [for_of ?l ?f ?s1] =>
        destruct (for_of_tickets_set_run l s1) as (m' & Hrun & Hidx)
      end.
      { cbn. rewrite length_app. apply Forall_forall. intros i Hi.
        apply list_elem_of_In, in_seq in Hi. lia. }
      rewrite Hrun. cbn.
      split.
      * unfold valid_refs. cbn. rewrite length_app. apply Forall_forall. intros i Hi.
        apply list_elem_of_In, in_seq in Hi. lia.
      * cbn. apply NoDup_ListNoDup, seq_NoDup.
      * assert (Hidx' := Hidx ltac:(by apply Hempty)).
        intros k t Hk. exact (Hidx' k t Hk).
    + rewrite (_init_unusable s p c) by done.
      split; [by constructor | by constructor | by apply Hempty].
  - destruct (writeFile_error (world s) p (JsonArray [])) as [code|] eqn:Hw.
    + rewrite (_init_unwritable s p code) by done. cbn.
      split; [unfold valid_refs; cbn; rewrite Hraw; by constructor
             | cbn; rewrite Hraw; by constructor | by apply Hempty].
    + rewrite (_init_missing s p) by done.
      split; [by constructor | by constructor | by apply Hempty].
Qed.

(** Every state a program reaches is well formed: the hypotheses of the
    theorems on [createTicket], [closeTicket] and [deleteTicket] hold in all
    of them. *)
Lemma reachable_well_formed (s : State) : reachable s → well_formed s.
Proof.
  induction 1 as [client options' m w Hm | c s _ IH].
  - destruct (constructor_Returned _ _ _ Hm) as (p & Hp & _ & Hraw & Ht & _).
    by apply (_init_well_formed {| manager := m; world := w |} p).
  - by apply invoke_well_formed.
Qed.

(** ** The records the load puts in memory *)

Lemma snapshot_seq (o rs : list RawTextTicketData) :
  snapshot (o ++ rs) (seq (length o) (length rs)) = rs.
Proof.
  revert o. induction rs as [|r rs IH]; intros o; [done|].
  cbn. unfold snapshot. cbn. rewrite list_lookup_middle by done. f_equal.
  specialize (IH (o ++ [r])). rewrite <- app_assoc, length_app, Nat.add_1_r in IH.
  exact IH.
Qed.

(** The load puts in memory the records the store file holds. *)
Lemma _init_records (s : State) (p : string) (rs : list RawTextTicketData) :
  storage (options (manager s)) = Some p →
  files (world s) !! p = Some (JsonArray rs) →
  records (snd (_init s)) = rs.
Proof.
  intros Hp Hf.
  unfold _init. rewrite bind_run, (_loadAllTickets_array s p rs) by done.
  rewrite bind_run. unfold_run.
  match goal with |- context [for_of ?l ?f ?s1] =>
    destruct (for_of_tickets_set_run l s1) as (m' & Hrun & _)
  end.
  { cbn. rewrite length_app. apply Forall_forall. intros i Hi.
    apply list_elem_of_In, in_seq in Hi. lia. }
  rewrite Hrun. unfold records. cbn. apply snapshot_seq.
Qed.
(** * A run of the example

    A ticket is created for member 8 of guild 100, closed, and deleted: the
    numbers and statuses in memory after each step, and the calls that went
    to the platform. *)
Lemma demo_create_close_delete :
  let s1 := snd (createTicket (ById "100") (ById "8") Demo.loaded) in
  let s2 := snd (closeTicket (VTicket {| _data := 3 |}) s1) in
  let s3 := snd (deleteTicket (VTicket {| _data := 3 |}) s2) in
  (λ r, (number r, status r)) <$> records s1
  = [("1", "open"); ("2", "closed"); ("9", "open"); ("3", "open")] ∧
  (λ r, (number r, status r)) <$> records s2
  = [("1", "open"); ("2", "closed"); ("9", "open"); ("3", "closed")] ∧
  (λ r, (number r, status r)) <$> records s3
  = [("1", "open"); ("2", "closed"); ("9", "open")] ∧
  files (world s3) !! "tickets.json" = Some (JsonArray (records s3)) ∧
  omap (λ e, match e with
             | Remote (ChannelCreate _ name _) => Some ("create " +:+ name)
             | Remote (ChannelEdit c d) => Some ("edit " +:+ c +:+ " " +:+ edit_name d)
             | Remote (ChannelDelete c) => Some ("delete " +:+ c)
             | _ => None
             end) (log (world s3))
  = ["create ticket-3"; "edit c-ticket-3 closed-3"; "delete c-ticket-3"].
Proof. vm_compute. repeat split. Qed.

(** * Further properties of the methods *)

(** ** The query and the constructor *)

(** X1.  [checkDoubleTickets] returns [true] exactly when some record in
    memory, open or closed, has both the guild and the creator; it changes
    nothing, and does not look at [ready]. *)
Theorem checkDoubleTickets_iff (g u : Snowflake) (s : State) :
  ∃ b, checkDoubleTickets g u s = (Returned b, s) ∧
       (b = true ↔ ∃ r, r ∈ records s ∧ guildId r = g ∧ creatorId r = u).
Proof. apply checkDoubleTickets_spec. Qed.

(** X2.  The constructor's two errors, in the order it raises them: the
    "invalid client" error exactly for a falsy client, whatever the options;
    the "missing options" error exactly for a truthy client with options that
    are left out, [null], or have a [parentId] or a [storage] that is
    missing or the empty string.  Leaving the options out is an error like
    the others: the default value of the parameter has no [parentId]. *)
Theorem constructor_errors (client : value) (options' : arg TextTicketManagerOptions) :
  (constructor client options' = Thrown (Error INVALID_CLIENT) ↔ truthy client = false) ∧
  (constructor client options' = Thrown (Error MISSING_OPTIONS) ↔
     truthy client = true ∧
     ∀ o, options' = Given o →
          truthy_string (parentId o) = false ∨ truthy_string (storage o) = false) ∧
  (∀ e, constructor client options' = Thrown e →
        e = Error INVALID_CLIENT ∨ e = Error MISSING_OPTIONS).
Proof.
  split_and!.
  - apply constructor_invalid_client.
  - unfold constructor. cbn. rewrite orb_false_r.
    destruct (truthy client), options' as [| |o]; cbn;
      try destruct (truthy_string (parentId o)) eqn:Hp, (truthy_string (storage o)) eqn:Hs;
      cbn; split; intros H;
      first [ discriminate H
            | reflexivity
            | lazymatch type of H with
              | _ ∧ _ => destruct H as [Hc Ho];
                         first [discriminate Hc | destruct (Ho o eq_refl); congruence]
              end
            | by split; [|intros ? [= <-]; auto] ].
  - unfold constructor. cbn. rewrite orb_false_r. intros e.
    destruct (truthy client), options' as [| |o]; cbn;
      try destruct (truthy_string (parentId o)), (truthy_string (storage o));
      cbn; intros [= <-]; auto.
Qed.

(** X3.  A manager the constructor returns has a closed category: the
    configured one if there is one (the empty string counts), the parent
    category otherwise.  Its other options are the caller's, it holds no
    record and no entity, and it is not ready. *)
Theorem constructor_closedParentId (cl : value) (options' : arg TextTicketManagerOptions)
    (m : TextTicketManager) :
  constructor cl options' = Returned m →
  ∃ o, options' = Given o ∧
       closedParentId (options m) = Some (default (default "" (parentId o)) (closedParentId o)) ∧
       is_Some (parentId o) ∧
       parentId (options m) = parentId o ∧ storage (options m) = storage o ∧
       staffRoles (options m) = staffRoles o ∧ channelTopic (options m) = channelTopic o ∧
       client m = cl ∧ _rawTickets m = [] ∧ tickets m = ∅ ∧ ready m = false.
Proof.
  unfold constructor. intros H.
  destruct (negb (truthy cl) || instanceof_Client (js_not cl)); [done|].
  destruct options' as [| |o]; try done. cbn in H.
  destruct (parentId o) as [pid|] eqn:Hpid; [|done].
  destruct (negb (truthy_string (Some pid)) || negb (truthy_string (storage o))); [done|].
  injection H as <-. exists o. cbn. rewrite Hpid.
  split_and!; try done. by destruct (closedParentId o).
Qed.

Lemma constructor_closedParentId_witness :
  ∃ o, Given Demo.options1 = Given o ∧
       closedParentId (options (manager Demo.booting))
       = Some (default (default "" (parentId o)) (closedParentId o)) ∧
       is_Some (parentId o) ∧
       parentId (options (manager Demo.booting)) = parentId o ∧
       storage (options (manager Demo.booting)) = storage o ∧
       staffRoles (options (manager Demo.booting)) = staffRoles o ∧
       channelTopic (options (manager Demo.booting)) = channelTopic o ∧
       client (manager Demo.booting) = VClient ∧
       _rawTickets (manager Demo.booting) = [] ∧ tickets (manager Demo.booting) = ∅ ∧
       ready (manager Demo.booting) = false.
Proof.
  apply (constructor_closedParentId VClient (Given Demo.options1) (manager Demo.booting)).
  reflexivity.
Defined.
(** * The load of a store file that holds records *)

Lemma index_of_app (o : list RawTextTicketData) (l1 l2 : list ref) (m : gmap string TextTicket) :
  index_of o (l1 ++ l2) m = index_of o l2 (index_of o l1 m).
Proof. unfold index_of. by rewrite foldl_app. Qed.

Lemma index_of_cons (o : list RawTextTicketData) (i : ref) (l : list ref)
    (m : gmap string TextTicket) :
  index_of o (i :: l) m
  = index_of o l (match o !! i with
                  | Some r => <[number r := {| _data := i |}]> m
                  | None => m
                  end).
Proof. reflexivity. Qed.

(** A number that no record of [l] carries keeps its entry. *)
Lemma index_of_other (o : list RawTextTicketData) (l : list ref) (m : gmap string TextTicket)
    (k : string) :
  (∀ i r, i ∈ l → o !! i = Some r → number r ≠ k) →
  index_of o l m !! k = m !! k.
Proof.
  revert m. induction l as [|i l IH]; intros m Hl; [done|].
  rewrite index_of_cons, IH.
  - destruct (o !! i) as [r|] eqn:Hr; [|done].
    apply lookup_insert_ne. apply (Hl i); [left | done].
  - intros j r Hj. apply Hl. by right.
Qed.

(** The loop of [_init], run: the index it builds. *)
Lemma for_of_tickets_set_index (l : list ref) (s : State) :
  Forall (λ i, i < length (objects (world s))) l →
  for_of l (λ rawTicket, tickets_set {| _data := rawTicket |}) s
  = (Returned tt,
     with_manager (set_tickets (index_of (objects (world s)) l (tickets (manager s)))) s).
Proof.
  revert s. induction l as [|i l IH]; intros s Hl.
  - cbn. unfold_run. by destruct s as [[] w].
  - apply Forall_cons in Hl as [Hi Hl].
    destruct (lookup_lt_is_Some_2 _ _ Hi) as [r Hr].
    rewrite for_of_cons, bind_run, (tickets_set_run _ r) by done.
    rewrite IH by done. rewrite index_of_cons. cbn. by rewrite Hr.
Qed.

(** The load of an array of records, run. *)
Lemma _init_array_run (s : State) (p : string) (rs : list RawTextTicketData) :
  storage (options (manager s)) = Some p →
  files (world s) !! p = Some (JsonArray rs) →
  let l := seq (length (objects (world s))) (length rs) in
  _init s =
  (Returned tt,
   {| manager := set_ready true
                   (set_tickets (index_of (objects (world s) ++ rs) l (tickets (manager s)))
                      (set_rawTickets l (manager s)));
      world := set_objects (objects (world s) ++ rs)
                 (record_event (FsReadFile p) (record_event (FsExists p) (world s))) |}).
Proof.
  intros Hp Hf l.
  unfold _init. rewrite bind_run, (_loadAllTickets_array s p rs) by done.
  rewrite bind_run. unfold_run.
  rewrite for_of_tickets_set_index; [done|].
  cbn. rewrite length_app. apply Forall_forall. intros i Hi.
  apply list_elem_of_In, in_seq in Hi. lia.
Qed.

(** X4.  The load when the store file holds an array of records: it
    returns, puts the file's records in memory in the file's order (each in
    an object of its own), sets [ready], and has asked whether the file
    exists and read it, and done nothing else: the file is not rewritten.
    The index holds, under each number that occurs in the file, the entity of
    the last record that carries it: of two records with one number, from
    two guilds say, only the later one can be looked up. *)
Theorem _init_array (s : State) (p : string) (rs : list RawTextTicketData) :
  storage (options (manager s)) = Some p →
  files (world s) !! p = Some (JsonArray rs) →
  ∃ s',
    _init s = (Returned tt, s') ∧
    records s' = rs ∧
    objects (world s') = objects (world s) ++ rs ∧
    ready (manager s') = true ∧
    files (world s') = files (world s) ∧
    log (world s') = log (world s) ++ [FsExists p; FsReadFile p] ∧
    (∀ i r, rs !! i = Some r →
            (∀ j r', i < j → rs !! j = Some r' → number r' ≠ number r) →
            tickets (manager s') !! number r
            = Some {| _data := length (objects (world s)) + i |}) ∧
    (∀ k, (∀ r, r ∈ rs → number r ≠ k) →
          tickets (manager s') !! k = tickets (manager s) !! k).
Proof.
  intros Hp Hf.
  assert (Hlookup : ∀ i r, rs !! i = Some r →
            (objects (world s) ++ rs) !! (length (objects (world s)) + i) = Some r).
  { intros i r Hi. by rewrite lookup_app_r, Nat.add_comm, Nat.add_sub by lia. }
  assert (Hseq : ∀ (j base n : nat) r', j ∈ seq base n →
            (objects (world s) ++ rs) !! j = Some r' →
            (length (objects (world s)) ≤ base)%nat →
            ∃ j', j = length (objects (world s)) + j' ∧ (base ≤ j < base + n)%nat ∧
                  rs !! j' = Some r').
  { intros j base n r' Hj Hr' Hbase.
    apply list_elem_of_In, in_seq in Hj.
    exists (j - length (objects (world s))). split_and!; [lia..|].
    by rewrite lookup_app_r in Hr' by lia. }
  eexists. split; [by apply (_init_array_run s p rs)|].
  cbn. split_and!; try done.
  - unfold records. cbn. apply snapshot_seq.
  - by rewrite <- app_assoc.
  - intros i r Hi Hlast.
    assert (Hlt : i < length rs) by (by eapply lookup_lt_Some).
    replace (length rs) with (i + S (length rs - S i)) by lia.
    rewrite seq_app. cbn [seq]. rewrite (cons_middle _ (seq _ i)), app_assoc.
    rewrite index_of_app, index_of_other.
    + rewrite index_of_app, index_of_cons. rewrite (Hlookup i r) by done.
      apply lookup_insert_eq.
    + intros j r' Hj Hr'.
      destruct (Hseq j _ _ r' Hj Hr') as (j' & -> & Hrange & Hj'); [lia|].
      apply (Hlast j'); [lia | done].
  - intros k Hk. apply index_of_other.
    intros j r' Hj Hr'.
    destruct (Hseq j _ _ r' Hj Hr') as (j' & -> & _ & Hj'); [lia|].
    apply Hk. by eapply list_elem_of_lookup_2.
Qed.

Lemma _init_array_witness :
  let s := Demo.booting in
  let p := "tickets.json" in
  let rs := [Demo.ticket1; Demo.ticket2; Demo.ticket3] in
  ∃ s',
    _init s = (Returned tt, s') ∧
    records s' = rs ∧
    objects (world s') = objects (world s) ++ rs ∧
    ready (manager s') = true ∧
    files (world s') = files (world s) ∧
    log (world s') = log (world s) ++ [FsExists p; FsReadFile p] ∧
    (∀ i r, rs !! i = Some r →
            (∀ j r', i < j → rs !! j = Some r' → number r' ≠ number r) →
            tickets (manager s') !! number r
            = Some {| _data := length (objects (world s)) + i |}) ∧
    (∀ k, (∀ r, r ∈ rs → number r ≠ k) →
          tickets (manager s') !! k = tickets (manager s) !! k).
Proof.
  intros s p rs. apply (_init_array s p rs); reflexivity.
Defined.
(** * Runs that throw *)

(** A sequence throws if its first part throws, or if the first part
    returned and the rest throws. *)
Lemma bind_Thrown {A B : Type} (m : M A) (f : A → M B) (s s' : State) (e : exn) :
  (m ≫= f) s = (Thrown e, s') →
  m s = (Thrown e, s') ∨ ∃ a s1, m s = (Returned a, s1) ∧ f a s1 = (Thrown e, s').
Proof.
  rewrite bind_run. destruct (m s) as [[a|e'] s1]; [eauto|].
  intros [= -> ->]. by left.
Qed.

Lemma throw_Thrown {A : Type} (e e' : exn) (s s' : State) :
  throw (A := A) e s = (Thrown e', s') → e' = e ∧ s' = s.
Proof. by intros [= -> ->]. Qed.

Lemma the_ticket_Thrown (v : value) (e : exn) (s s' : State) :
  the_ticket v s = (Thrown e, s') → e = TypeError ∧ s' = s ∧ ∀ t, v ≠ VTicket t.
Proof. destruct v; cbn; intros [= <- <-]; done. Qed.

Lemma ticket_data_Thrown (t : TextTicket) (e : exn) (s s' : State) :
  ticket_data t s = (Thrown e, s') →
  e = TypeError ∧ s' = s ∧ objects (world s) !! _data t = None.
Proof.
  unfold ticket_data. unfold_run.
  destruct (objects (world s) !! _data t); intros [= <- <-]; done.
Qed.

Lemma the_client_Thrown (e : exn) (s s' : State) :
  the_client s = (Thrown e, s') → e = TypeError ∧ s' = s ∧ client (manager s) ≠ VClient.
Proof.
  unfold the_client. unfold_run.
  destruct (client (manager s)); intros [= <- <-]; done.
Qed.

Lemma ticket_guild_Thrown (t : TextTicket) (e : exn) (s s' : State) :
  ticket_guild t s = (Thrown e, s') → e = TypeError ∧ s' = s.
Proof.
  unfold ticket_guild, ticket_data, the_client. unfold_run.
  repeat case_match; intros ?; by simplify_eq.
Qed.

Lemma ticket_channel_Thrown (t : TextTicket) (e : exn) (s s' : State) :
  ticket_channel t s = (Thrown e, s') → e = TypeError ∧ s' = s.
Proof.
  unfold ticket_channel, ticket_data, the_client. unfold_run.
  repeat case_match; intros ?; by simplify_eq.
Qed.

(** A rejected remote call is in the log, and changed nothing else. *)
Lemma await_rest_Thrown (r : Request) (e : exn) (s s' : State) :
  await_rest r s = (Thrown e, s') →
  ∃ reason, e = Rejection reason ∧ rest (discord (world s)) r = Rejected reason ∧
            s' = with_world (record_event (Remote r)) s.
Proof.
  unfold await_rest. unfold_run.
  destruct (rest _ r) as [c|reason] eqn:Hr; intros [= <- <-]. eauto.
Qed.

(** A write throws for want of a path, before anything is done, or because
    the file system rejects it, after the attempt. *)
Lemma fs_writeFile_Thrown (path : option string) (c : FileContent) (e : exn) (s s' : State) :
  fs_writeFile path c s = (Thrown e, s') →
  (e = TypeError ∧ s' = s ∧ path = None) ∨
  ∃ p code, path = Some p ∧ writeFile_error (world s) p c = Some code ∧
            e = FsError code ∧ s' = with_world (record_event (FsWriteFile p c)) s.
Proof.
  unfold fs_writeFile. destruct path as [p|]; unfold_run.
  - destruct (writeFile_error _ p c) as [code|] eqn:Hw; intros [= <- <-]. right. by eexists _, _.
  - intros [= <- <-]. by left.
Qed.

Lemma _saveRawTickets_Thrown (e : exn) (s s' : State) :
  _saveRawTickets s = (Thrown e, s') →
  (e = TypeError ∧ s' = s ∧ storage (options (manager s)) = None) ∨
  ∃ p code, storage (options (manager s)) = Some p ∧
            writeFile_error (world s) p (JsonArray (records s)) = Some code ∧
            e = FsError code ∧
            s' = with_world (record_event (FsWriteFile p (JsonArray (records s)))) s.
Proof.
  unfold _saveRawTickets. intros H.
  apply bind_Thrown in H as [H | (s0 & s1 & H0 & H)]; [discriminate H|].
  apply get_Returned in H0 as [-> ->].
  apply bind_Thrown in H as [H | (? & ? & _ & H)]; [|discriminate H].
  by apply fs_writeFile_Thrown in H.
Qed.

(** A listener's exception is thrown by [emit], after the event. *)
Lemma emit_Thrown (event : string) (t : TextTicket) (e : exn) (s s' : State) :
  emit event t s = (Thrown e, s') →
  ∃ thrown, e = ListenerError thrown ∧ listener_error (world s) event t = Some thrown ∧
            s' = with_world (record_event (Emit event t)) s.
Proof.
  unfold emit. unfold_run.
  destruct (listener_error _ event t) as [thrown|] eqn:Hl; intros [= <- <-]. by eexists.
Qed.

Lemma tickets_set_Thrown (t : TextTicket) (e : exn) (s s' : State) :
  tickets_set t s = (Thrown e, s') →
  e = TypeError ∧ s' = s ∧ objects (world s) !! _data t = None.
Proof.
  unfold tickets_set, ticket_data. unfold_run.
  destruct (objects (world s) !! _data t); intros [= <- <-]; done.
Qed.

(** An entity resolves its guild and its channel through a client. *)
Lemma ticket_guild_client (t : TextTicket) (g : Guild) (s s' : State) :
  ticket_guild t s = (Returned g, s') → client (manager s) = VClient.
Proof.
  unfold ticket_guild. intros H. inv_run H.
  match goal with H : ticket_data _ _ = _ |- _ => apply ticket_data_Returned in H as [_ ->] end.
  match goal with H : the_client _ = _ |- _ => by apply the_client_Returned in H as (? & _) end.
Qed.

Lemma ticket_channel_client (t : TextTicket) (c : Channel) (s s' : State) :
  ticket_channel t s = (Returned c, s') → client (manager s) = VClient.
Proof.
  unfold ticket_channel. intros H. inv_run H.
  match goal with H : ticket_data _ _ = _ |- _ => apply ticket_data_Returned in H as [_ ->] end.
  match goal with H : the_client _ = _ |- _ => by apply the_client_Returned in H as (? & _) end.
Qed.

(** Splits a hypothesis about a run that throws into the step that threw
    and the steps that returned before it. *)
Ltac inv_thrown :=
  repeat match goal with
    | H : mbind _ _ _ = (Thrown _, _) |- _ =>
        apply bind_Thrown in H as [H | (? & ? & ? & H)]
    | H : throw _ _ = (Thrown _, _) |- _ => apply throw_Thrown in H as [? ->]
    | H : mret _ _ = (Thrown _, _) |- _ => discriminate H
    | H : get _ = (Thrown _, _) |- _ => discriminate H
    | H : modify _ _ = (Thrown _, _) |- _ => discriminate H
    | H : alloc _ _ = (Thrown _, _) |- _ => discriminate H
    | H : get _ = (Returned _, _) |- _ => apply get_Returned in H as [-> ->]
    | H : modify _ _ = (Returned _, _) |- _ => apply modify_Returned in H as ->
    | H : mret _ _ = (Returned _, _) |- _ => apply ret_Returned in H as [-> ->]
    | H : the_ticket _ _ = (Returned _, _) |- _ => apply the_ticket_Returned in H as [-> ->]
    | H : the_client _ = (Returned _, _) |- _ => apply the_client_Returned in H as (? & -> & ->)
    | H : ticket_data _ _ = (Returned _, _) |- _ => apply ticket_data_Returned in H as [? ->]
    | H : ticket_guild _ _ = (Returned _, _) |- _ =>
        pose proof (ticket_guild_client _ _ _ _ H);
        apply ticket_guild_Returned in H as (? & ? & ? & ->)
    | H : ticket_channel _ _ = (Returned _, _) |- _ =>
        pose proof (ticket_channel_client _ _ _ _ H);
        apply ticket_channel_Returned in H as (? & ? & ? & ->)
    | H : await_rest _ _ = (Returned _, _) |- _ => apply await_rest_Returned in H as [? ->]
    | H : _saveRawTickets _ = (Returned _, _) |- _ =>
        apply _saveRawTickets_Returned in H as (? & ? & ? & ? & ->)
    | H : emit _ _ _ = (Returned _, _) |- _ => apply emit_Returned in H as [? ->]
    | H : restatus _ _ _ _ = _ |- _ => unfold restatus in H
    | H : tickets_set _ _ = (Returned _, _) |- _ => apply tickets_set_Returned in H as (? & ? & ->)
    | H : alloc _ _ = (Returned _, _) |- _ => apply alloc_Returned in H as [-> ->]
    | H : the_ticket _ _ = (Thrown _, _) |- _ => apply the_ticket_Thrown in H as (? & -> & ?)
    | H : the_client _ = (Thrown _, _) |- _ => apply the_client_Thrown in H as (? & -> & ?)
    | H : ticket_data _ _ = (Thrown _, _) |- _ => apply ticket_data_Thrown in H as (? & -> & ?)
    | H : ticket_guild _ _ = (Thrown _, _) |- _ => apply ticket_guild_Thrown in H as [? ->]
    | H : ticket_channel _ _ = (Thrown _, _) |- _ => apply ticket_channel_Thrown in H as [? ->]
    | H : await_rest _ _ = (Thrown _, _) |- _ => apply await_rest_Thrown in H as (? & ? & ? & ->)
    | H : _saveRawTickets _ = (Thrown _, _) |- _ =>
        apply _saveRawTickets_Thrown in H as [(? & -> & ?) | (? & ? & ? & ? & ? & ->)]
    | H : emit _ _ _ = (Thrown _, _) |- _ => apply emit_Thrown in H as (? & ? & ? & ->)
    | H : tickets_set _ _ = (Thrown _, _) |- _ => apply tickets_set_Thrown in H as (? & -> & ?)
    | H : (match ?x with _ => _ end) _ = (Thrown _, _) |- _ => destruct x eqn:?; cbn in H
    end.

(** What is left to show once [inv_thrown] has found the step that threw:
    the step is one that cannot have. *)
Ltac absurd_throw :=
  cbn in *;
  match goal with
  | H1 : ?x = Some _, H2 : ?x = None |- _ => rewrite H1 in H2; discriminate H2
  | H : (_ ++ [_]) !! length _ = None |- _ =>
      rewrite list_lookup_middle in H by done; discriminate H
  | H1 : is_Some ?x, H2 : ?x = None |- _ => rewrite H2 in H1; by destruct H1
  | H1 : ?o !! ?i = Some _, H2 : <[?i := _]> ?o !! ?i = None |- _ =>
      rewrite list_lookup_insert_eq in H2 by (by eapply lookup_lt_Some); discriminate H2
  end.


(** ** Calls that fail *)








(** ** The manager's own errors *)

(** X6.  When [closeTicket] and [reopenTicket], given a ticket entity,
    throw an error of the manager's own, and which: "not ready" exactly on a
    manager that is not ready; "invalid category" exactly on a ready
    manager, for an entity whose record and guild resolve, when the category
    does not: for [closeTicket] the closed category does not resolve in the
    ticket's guild, for [reopenTicket] the parent category does not resolve
    there or resolves to a channel that is no category.  They throw no other
    error of the manager's, and the state is the one the call started
    from. *)
Theorem flipTicket_errors (f : flip) (t : TextTicket) (x : Errors) (s s' : State) :
  flipTicket f (VTicket t) s = (Thrown (Error x), s') ↔
  s' = s ∧
  (x = NOT_READY ∧ ready (manager s) = false ∨
   x = INVALID_CATEGORY ∧ ready (manager s) = true ∧ client (manager s) = VClient ∧
   ∃ r g,
     objects (world s) !! _data t = Some r ∧
     guilds_resolve (discord (world s)) (ById (guildId r)) = Some g ∧
     match f with
     | Close =>
         channels_resolve (discord (world s)) g (closedParentId (options (manager s))) = None
     | Reopen =>
         ∀ cat, channels_resolve (discord (world s)) g (parentId (options (manager s))) = Some cat →
                channel_type cat ≠ "GUILD_CATEGORY"
     end).
Proof.
  split.
  - intros H. destruct f; cbn in H; unfold closeTicket, reopenTicket in H.
    all: inv_thrown; simplify_eq.
    all: split; [done|].
    all: try (left; split; [done|]; by apply negb_true_iff).
    all: right; split_and!; try done; try (by apply negb_false_iff).
    all: eexists _, _; split_and!; try done.
    all: intros cat;
      match goal with H : channels_resolve _ _ _ = _ |- _ => rewrite H end;
      intros Hcat Htype; simplify_eq.
    match goal with H : negb _ = true |- _ =>
      unfold strict_eq in H; rewrite Htype in H; discriminate H end.
  - intros (-> & [[-> Hready] | (-> & Hready & Hclient & r & g & Hr & Hg & Hcat)]).
    + destruct f; cbn; unfold closeTicket, reopenTicket; unfold_run; by rewrite Hready.
    + destruct f; cbn; unfold closeTicket, reopenTicket, ticket_guild, ticket_data, the_client;
        unfold_run; rewrite Hready; cbn; rewrite Hr; cbn; rewrite Hclient; cbn;
        cbn in Hg; rewrite Hg; cbn.
      * by rewrite Hcat.
      * destruct (channels_resolve _ _ _) as [cat|] eqn:Hc; [|done].
        specialize (Hcat cat eq_refl).
        unfold strict_eq. destruct (String.eqb_spec (channel_type cat) "GUILD_CATEGORY"); done.
Qed.

(** X7.  When [createTicket] throws an error of the manager's own, and
    which: "not ready" exactly on a manager that is not ready; "not
    resolvable" exactly on a ready manager whose guild resolves, when the user
    does not resolve or is no member of the guild (a guild that does not
    resolve never gives this error); "invalid category" exactly when guild,
    user and member resolve and the parent category does not resolve in the
    guild, or resolves to a channel that is no category.  It throws no other
    error of the manager's, and the state is the one the call started
    from. *)
Theorem createTicket_errors (guild : resolvable Guild) (user : resolvable User) (x : Errors)
    (s s' : State) :
  createTicket guild user s = (Thrown (Error x), s') ↔
  s' = s ∧
  (x = NOT_READY ∧ ready (manager s) = false ∨
   ready (manager s) = true ∧ client (manager s) = VClient ∧
   ∃ g, guilds_resolve (discord (world s)) guild = Some g ∧
        (x = NOT_RESOLVABLE ∧
         members_resolve g (users_resolve (discord (world s)) user) = None ∨
         x = INVALID_CATEGORY ∧
         is_Some (members_resolve g (users_resolve (discord (world s)) user)) ∧
         ∀ cat, channels_resolve (discord (world s)) g (parentId (options (manager s))) = Some cat →
                channel_type cat ≠ "GUILD_CATEGORY")).
Proof.
  split.
  - intros H. unfold createTicket in H.
    inv_thrown; simplify_eq; try absurd_throw.
    all: split; [done|].
    all: try (left; split; [done|]; by apply negb_true_iff).
    all: right; split_and!; try done; try (by apply negb_false_iff).
    all: eexists; split; [done|].
    all: repeat match goal with H : users_resolve _ _ = _ |- _ => rewrite H; clear H end.
    all: cbn.
    all: repeat match goal with H : find _ (guild_members _) = _ |- _ => rewrite H; clear H end.
    all: try (left; by split).
    all: right; split_and!; try done.
    all: intros cat;
      match goal with H : channels_resolve _ _ _ = _ |- _ => rewrite H end;
      intros Hcat Htype; simplify_eq.
    match goal with H : negb _ = true |- _ =>
      unfold strict_eq in H; rewrite Htype in H; discriminate H end.
  - intros (-> & [[-> Hready] | (Hready & Hclient & g & Hg & H)]).
    + unfold createTicket. unfold_run. by rewrite Hready.
    + unfold createTicket, the_client. unfold_run. rewrite Hready. cbn.
      rewrite Hclient. cbn. rewrite Hg. cbn.
      destruct H as [[-> Hm] | (-> & [m Hm] & Hcat)].
      * cbn in Hm. rewrite Hm. by destruct (users_resolve _ _).
      * cbn in Hm. rewrite Hm.
        destruct (users_resolve _ _) as [u|]; [|done].
        destruct (channels_resolve _ _ _) as [cat|] eqn:Hc; [|done].
        specialize (Hcat cat eq_refl).
        unfold strict_eq. destruct (String.eqb_spec (channel_type cat) "GUILD_CATEGORY"); done.
Qed.

(** X8.  [deleteTicket] and [renameTicket] throw one error of the
    manager's own, "not ready", and exactly on a manager that is not ready;
    whatever the argument is, and whether or not the ticket's channel still
    exists, they report nothing else themselves. *)
Theorem deleteTicket_renameTicket_errors (ticket : value) (newName : string) (x : Errors)
    (s s' : State) :
  (deleteTicket ticket s = (Thrown (Error x), s') ↔
     s' = s ∧ x = NOT_READY ∧ ready (manager s) = false) ∧
  (renameTicket ticket newName s = (Thrown (Error x), s') ↔
     s' = s ∧ x = NOT_READY ∧ ready (manager s) = false).
Proof.
  split; split.
  - intros H. unfold deleteTicket in H. inv_thrown; simplify_eq.
    split_and!; try done. by apply negb_true_iff.
  - intros (-> & -> & Hready). unfold deleteTicket. unfold_run. by rewrite Hready.
  - intros H. unfold renameTicket in H. inv_thrown; simplify_eq.
    split_and!; try done. by apply negb_true_iff.
  - intros (-> & -> & Hready). unfold renameTicket. unfold_run. by rewrite Hready.
Qed.
(** ** What each method sends, writes and emits *)

(** X9.  A [renameTicket] that returns has returned the entity it was given.
    It asked the platform for one edit of the ticket's channel, carrying the
    name [<newName>-<number>] and neither a parent nor permissions, and then
    emitted "ticketRenamed" with that entity.  The manager, the records and
    the files are as before: the new name is stored nowhere. *)
Theorem renameTicket_effects (ticket : value) (newName : string) (t' : TextTicket)
    (s s' : State) :
  renameTicket ticket newName s = (Returned t', s') →
  ∃ r ch,
    ticket = VTicket t' ∧
    objects (world s) !! _data t' = Some r ∧
    find (λ c, strict_eq (channel_id c) (channelId r)) (channels (discord (world s))) = Some ch ∧
    manager s' = manager s ∧
    objects (world s') = objects (world s) ∧
    files (world s') = files (world s) ∧
    channels (discord (world s')) = channels (discord (world s)) ∧
    log (world s') = log (world s) ++
      [ Remote (ChannelEdit (channel_id ch)
                  {| edit_parent := None; edit_permissionOverwrites := None;
                     edit_name := newName +:+ "-" +:+ number r |});
        Emit "ticketRenamed" t' ].
Proof.
  unfold renameTicket. intros H. inv_run H.
  destruct (ready (manager s)) eqn:Hready; cbn in H; [|solve [inv_run H]].
  inv_steps H. subst. cbn in *.
  repeat match goal with
         | H1 : ?x = Some ?a, H2 : ?x = Some ?b |- _ =>
             rewrite H1 in H2; injection H2 as <-
         end.
  eexists _, _. split_and!; try done.
  by rewrite <- app_assoc.
Qed.

Lemma renameTicket_effects_witness :
  ∃ r ch,
    VTicket {| _data := 0 |} = VTicket {| _data := 0 |} ∧
    objects (world Demo.loaded) !! 0 = Some r ∧
    find (λ c, strict_eq (channel_id c) (channelId r)) (channels (discord (world Demo.loaded)))
    = Some ch ∧
    manager (snd (renameTicket (VTicket {| _data := 0 |}) "billing" Demo.loaded))
    = manager Demo.loaded ∧
    objects (world (snd (renameTicket (VTicket {| _data := 0 |}) "billing" Demo.loaded)))
    = objects (world Demo.loaded) ∧
    files (world (snd (renameTicket (VTicket {| _data := 0 |}) "billing" Demo.loaded)))
    = files (world Demo.loaded) ∧
    channels (discord (world (snd (renameTicket (VTicket {| _data := 0 |}) "billing" Demo.loaded))))
    = channels (discord (world Demo.loaded)) ∧
    log (world (snd (renameTicket (VTicket {| _data := 0 |}) "billing" Demo.loaded)))
    = log (world Demo.loaded) ++
      [ Remote (ChannelEdit (channel_id ch)
                  {| edit_parent := None; edit_permissionOverwrites := None;
                     edit_name := "billing" +:+ "-" +:+ number r |});
        Emit "ticketRenamed" {| _data := 0 |} ].
Proof.
  apply (renameTicket_effects (VTicket {| _data := 0 |}) "billing" {| _data := 0 |}
           Demo.loaded).
  vm_compute. reflexivity.
Defined.

(** X10.  A [closeTicket] that returns has asked the platform for one edit of
    the ticket's channel: the parent becomes the channel the configured
    closed category resolves to in the ticket's guild (of whatever type: the
    type is not looked at), the name becomes [closed-<number>], and the
    permissions deny the creator everything, deny everyone the view, and
    allow every staff role that resolves everything.  Then it wrote the
    records in memory to the store file, and then emitted "ticketClosed";
    in this order, and nothing else.  The returned entity wraps the
    argument's record, and the index holds it under the record's number. *)
Theorem closeTicket_effects (ticket : value) (t' : TextTicket) (s s' : State) :
  closeTicket ticket s = (Returned t', s') →
  ∃ r g cat ch p,
    ticket = VTicket t' ∧
    objects (world s) !! _data t' = Some r ∧
    guilds_resolve (discord (world s)) (ById (guildId r)) = Some g ∧
    channels_resolve (discord (world s)) g (closedParentId (options (manager s))) = Some cat ∧
    find (λ c, strict_eq (channel_id c) (channelId r)) (channels (discord (world s))) = Some ch ∧
    storage (options (manager s)) = Some p ∧
    log (world s') = log (world s) ++
      [ Remote (ChannelEdit (channel_id ch)
          {| edit_parent := Some (channel_id cat);
             edit_permissionOverwrites := Some
               ([ {| overwrite_id := Some (creatorId r); allow := []; deny := all_permissions |};
                  {| overwrite_id := roles_everyone g; allow := []; deny := ["VIEW_CHANNEL"] |} ]
                ++ staff_overwrites g (staffRoles (options (manager s))));
             edit_name := "closed-" +:+ number r |});
        FsWriteFile p (JsonArray (records s'));
        Emit "ticketClosed" t' ] ∧
    tickets (manager s') = <[number r := t']> (tickets (manager s)) ∧
    channels (discord (world s')) = channels (discord (world s)).
Proof.
  unfold closeTicket. intros H. inv_run H.
  destruct (ready (manager s)) eqn:Hready; cbn in H; [|solve [inv_run H]].
  inv_steps H.
  destruct (channels_resolve _ _ _) as [cat|] eqn:Hcat; [|solve [inv_run H]].
  inv_steps H. subst.
  apply restatus_Returned in H as (r & p & Hr & Hp & -> & Hm' & Hw').
  cbn in *.
  repeat match goal with
         | H1 : ?x = Some ?a, H2 : ?x = Some ?b |- _ =>
             rewrite H1 in H2; injection H2 as <-
         end.
  match goal with t : TextTicket |- _ => destruct t as [i] end. cbn in *.
  eexists _, _, cat, _, p. split_and!; try done.
  - rewrite Hw'. unfold records. rewrite Hw', Hm'. cbn. by rewrite <- !app_assoc.
  - by rewrite Hm'.
  - by rewrite Hw'.
Qed.

Lemma closeTicket_effects_witness :
  let t := {| _data := 0 |} in
  let s := Demo.loaded in
  let s' := snd (closeTicket (VTicket t) s) in
  ∃ r g cat ch p,
    VTicket t = VTicket t ∧
    objects (world s) !! _data t = Some r ∧
    guilds_resolve (discord (world s)) (ById (guildId r)) = Some g ∧
    channels_resolve (discord (world s)) g (closedParentId (options (manager s))) = Some cat ∧
    find (λ c, strict_eq (channel_id c) (channelId r)) (channels (discord (world s))) = Some ch ∧
    storage (options (manager s)) = Some p ∧
    log (world s') = log (world s) ++
      [ Remote (ChannelEdit (channel_id ch)
          {| edit_parent := Some (channel_id cat);
             edit_permissionOverwrites := Some
               ([ {| overwrite_id := Some (creatorId r); allow := []; deny := all_permissions |};
                  {| overwrite_id := roles_everyone g; allow := []; deny := ["VIEW_CHANNEL"] |} ]
                ++ staff_overwrites g (staffRoles (options (manager s))));
             edit_name := "closed-" +:+ number r |});
        FsWriteFile p (JsonArray (records s'));
        Emit "ticketClosed" t ] ∧
    tickets (manager s') = <[number r := t]> (tickets (manager s)) ∧
    channels (discord (world s')) = channels (discord (world s)).
Proof.
  intros t s s'. apply (closeTicket_effects (VTicket t) t s s').
  vm_compute. reflexivity.
Defined.

(** X11.  A [reopenTicket] that returns has asked the platform for one edit
    of the ticket's channel that carries no parent: the channel is renamed
    [ticket-<number>] and given permissions that allow the creator
    everything, deny everyone the view and allow every resolving staff role
    everything, and it stays in the category [closeTicket] moved it to.  The
    parent category must resolve in the ticket's guild, to a category, but is
    used for nothing else.  Then the records are written to the store file
    and "ticketReopened" is emitted, in this order.  The returned entity
    wraps the argument's record, and the index holds it under the record's
    number. *)
Theorem reopenTicket_effects (ticket : value) (t' : TextTicket) (s s' : State) :
  reopenTicket ticket s = (Returned t', s') →
  ∃ r g cat ch p,
    ticket = VTicket t' ∧
    objects (world s) !! _data t' = Some r ∧
    guilds_resolve (discord (world s)) (ById (guildId r)) = Some g ∧
    channels_resolve (discord (world s)) g (parentId (options (manager s))) = Some cat ∧
    channel_type cat = "GUILD_CATEGORY" ∧
    find (λ c, strict_eq (channel_id c) (channelId r)) (channels (discord (world s))) = Some ch ∧
    storage (options (manager s)) = Some p ∧
    log (world s') = log (world s) ++
      [ Remote (ChannelEdit (channel_id ch)
          {| edit_parent := None;
             edit_permissionOverwrites := Some
               ([ {| overwrite_id := Some (creatorId r); allow := all_permissions; deny := [] |};
                  {| overwrite_id := roles_everyone g; allow := []; deny := ["VIEW_CHANNEL"] |} ]
                ++ staff_overwrites g (staffRoles (options (manager s))));
             edit_name := "ticket-" +:+ number r |});
        FsWriteFile p (JsonArray (records s'));
        Emit "ticketReopened" t' ] ∧
    tickets (manager s') = <[number r := t']> (tickets (manager s)) ∧
    channels (discord (world s')) = channels (discord (world s)).
Proof.
  unfold reopenTicket. intros H. inv_run H.
  destruct (ready (manager s)) eqn:Hready; cbn in H; [|solve [inv_run H]].
  inv_steps H.
  destruct (channels_resolve _ _ _) as [cat|] eqn:Hcat; [|solve [inv_run H]].
  destruct (negb _) eqn:Htype; [solve [inv_run H]|].
  apply negb_false_iff, String.eqb_eq in Htype.
  inv_steps H. subst.
  apply restatus_Returned in H as (r & p & Hr & Hp & -> & Hm' & Hw').
  cbn in *.
  repeat match goal with
         | H1 : ?x = Some ?a, H2 : ?x = Some ?b |- _ =>
             rewrite H1 in H2; injection H2 as <-
         end.
  match goal with t : TextTicket |- _ => destruct t as [i] end. cbn in *.
  eexists _, _, cat, _, p. split_and!; try done.
  - rewrite Hw'. unfold records. rewrite Hw', Hm'. cbn. by rewrite <- !app_assoc.
  - by rewrite Hm'.
  - by rewrite Hw'.
Qed.

Lemma reopenTicket_effects_witness :
  let t := {| _data := 1 |} in
  let s := Demo.loaded in
  let s' := snd (reopenTicket (VTicket t) s) in
  ∃ r g cat ch p,
    VTicket t = VTicket t ∧
    objects (world s) !! _data t = Some r ∧
    guilds_resolve (discord (world s)) (ById (guildId r)) = Some g ∧
    channels_resolve (discord (world s)) g (parentId (options (manager s))) = Some cat ∧
    channel_type cat = "GUILD_CATEGORY" ∧
    find (λ c, strict_eq (channel_id c) (channelId r)) (channels (discord (world s))) = Some ch ∧
    storage (options (manager s)) = Some p ∧
    log (world s') = log (world s) ++
      [ Remote (ChannelEdit (channel_id ch)
          {| edit_parent := None;
             edit_permissionOverwrites := Some
               ([ {| overwrite_id := Some (creatorId r); allow := all_permissions; deny := [] |};
                  {| overwrite_id := roles_everyone g; allow := []; deny := ["VIEW_CHANNEL"] |} ]
                ++ staff_overwrites g (staffRoles (options (manager s))));
             edit_name := "ticket-" +:+ number r |});
        FsWriteFile p (JsonArray (records s'));
        Emit "ticketReopened" t ] ∧
    tickets (manager s') = <[number r := t]> (tickets (manager s)) ∧
    channels (discord (world s')) = channels (discord (world s)).
Proof.
  intros t s s'. apply (reopenTicket_effects (VTicket t) t s s').
  vm_compute. reflexivity.
Defined.

(** X12.  A [createTicket] that returns has asked the platform for one
    channel in the resolved guild, named [ticket-<number>], of type
    GUILD_TEXT, under the category the configured parent resolves to, with
    the configured topic (the empty string if there is none) and with
    permissions that allow the member everything, deny everyone the view and
    allow every resolving staff role everything.  The new record carries the
    id of the channel the platform answered with, the user's id, the guild's
    id and the number that is in the channel's name, whatever number that
    is; it is open and has no participants.  The records were then
    written to the store file and "ticketCreated" emitted, in this order;
    the index holds the new entity under the new number, whatever it held
    there before. *)
Theorem createTicket_effects (guild : resolvable Guild) (user : resolvable User)
    (ticket : TextTicket) (s s' : State) :
  createTicket guild user s = (Returned ticket, s') →
  ∃ g u m cat c p n,
    guilds_resolve (discord (world s)) guild = Some g ∧
    users_resolve (discord (world s)) user = Some u ∧
    members_resolve g (Some u) = Some m ∧
    channels_resolve (discord (world s)) g (parentId (options (manager s))) = Some cat ∧
    channel_type cat = "GUILD_CATEGORY" ∧
    storage (options (manager s)) = Some p ∧
    let r := {| channelId := channel_id c; creatorId := user_id u; guildId := guild_id g;
                number := n; participants := []; status := "open" |} in
    let request :=
      ChannelCreate (guild_id g) ("ticket-" +:+ n)
        {| create_parent := channel_id cat;
           create_permissionOverwrites :=
             [ {| overwrite_id := Some m; allow := all_permissions; deny := [] |};
               {| overwrite_id := roles_everyone g; allow := []; deny := ["VIEW_CHANNEL"] |} ]
             ++ staff_overwrites g (staffRoles (options (manager s)));
           create_topic := default "" (channelTopic (options (manager s)));
           create_type := "GUILD_TEXT" |} in
    rest (discord (world s)) request = Fulfilled c ∧
    objects (world s') !! _data ticket = Some r ∧
    log (world s') = log (world s) ++
      [ Remote request; FsWriteFile p (JsonArray (records s')); Emit "ticketCreated" ticket ] ∧
    tickets (manager s') = <[n := ticket]> (tickets (manager s)) ∧
    channels (discord (world s')) = channels (discord (world s)) ++ [c].
Proof.
  unfold createTicket. intros H. inv_run H.
  destruct (ready (manager s)) eqn:Hready; cbn in H; [|solve [inv_run H]].
  inv_steps H. subst.
  destruct (guilds_resolve _ guild) as [g|] eqn:Hg; inv_steps H.
  destruct (users_resolve _ user) as [u|] eqn:Hu; [|solve [inv_run H]].
  destruct (members_resolve g (Some u)) as [m|] eqn:Hm; [|solve [inv_run H]].
  destruct (channels_resolve _ g _) as [cat|] eqn:Hcat; [|solve [inv_run H]].
  destruct (negb _) eqn:Htype; [solve [inv_run H]|].
  apply negb_false_iff, String.eqb_eq in Htype.
  inv_steps H. subst. cbn in *.
  match goal with
  | Hx : (_ ++ [?r]) !! length _ = Some ?x |- _ =>
      rewrite list_lookup_middle in Hx by done; injection Hx as <-
  end.
  match goal with Hc : rest _ _ = Fulfilled ?c |- _ => exists g, u, m, cat, c end.
  eexists _, _. split_and!; try done.
  - by apply list_lookup_middle.
  - unfold records. cbn. by rewrite <- !app_assoc.
Qed.

Lemma createTicket_effects_witness :
  let guild := ById "200" in
  let user := ByInstance {| user_id := "7" |} in
  let s := with_manager (λ m, {| client := client m;
                                 options := {| channelTopic := Some "help";
                                               closedParentId := Some "20";
                                               parentId := Some "20";
                                               staffRoles := None;
                                               storage := storage (options m) |};
                                 tickets := tickets m; _rawTickets := _rawTickets m;
                                 ready := ready m |}) Demo.loaded in
  let ticket := {| _data := 3 |} in
  let s' := snd (createTicket guild user s) in
  ∃ g u m cat c p n,
    guilds_resolve (discord (world s)) guild = Some g ∧
    users_resolve (discord (world s)) user = Some u ∧
    members_resolve g (Some u) = Some m ∧
    channels_resolve (discord (world s)) g (parentId (options (manager s))) = Some cat ∧
    channel_type cat = "GUILD_CATEGORY" ∧
    storage (options (manager s)) = Some p ∧
    let r := {| channelId := channel_id c; creatorId := user_id u; guildId := guild_id g;
                number := n; participants := []; status := "open" |} in
    let request :=
      ChannelCreate (guild_id g) ("ticket-" +:+ n)
        {| create_parent := channel_id cat;
           create_permissionOverwrites :=
             [ {| overwrite_id := Some m; allow := all_permissions; deny := [] |};
               {| overwrite_id := roles_everyone g; allow := []; deny := ["VIEW_CHANNEL"] |} ]
             ++ staff_overwrites g (staffRoles (options (manager s)));
           create_topic := default "" (channelTopic (options (manager s)));
           create_type := "GUILD_TEXT" |} in
    rest (discord (world s)) request = Fulfilled c ∧
    objects (world s') !! _data ticket = Some r ∧
    log (world s') = log (world s) ++
      [ Remote request; FsWriteFile p (JsonArray (records s')); Emit "ticketCreated" ticket ] ∧
    tickets (manager s') = <[n := ticket]> (tickets (manager s)) ∧
    channels (discord (world s')) = channels (discord (world s)) ++ [c].
Proof.
  intros guild user s ticket s'. apply (createTicket_effects guild user ticket s s').
  vm_compute. reflexivity.
Defined.

(** The records the kept references denote are the records of other
    channels, in their order. *)
Lemma snapshot_other_channels (o : list RawTextTicketData) (cid : Snowflake) (l : list ref) :
  snapshot o (other_channels o cid l)
  = List.filter (λ r, negb (strict_eq (channelId r) cid)) (snapshot o l).
Proof.
  unfold snapshot, other_channels.
  induction l as [|i l IH]; cbn; [done|].
  destruct (o !! i) as [r|] eqn:Hr; cbn.
  - destruct (negb (strict_eq (channelId r) cid)); cbn; rewrite ?Hr; by rewrite IH.
  - by rewrite Hr.
Qed.

(** X13.  A [deleteTicket] of a ticket entity that returns has asked the
    platform to delete the ticket's channel, then written the records to the
    store file, then emitted "ticketDeleted" with the entity it was given,
    in this order, and returns true.  The records in memory are those from
    before whose channel id is not the ticket's, in their order and
    unchanged; the index lost the entry under the ticket's number and no
    other. *)
Theorem deleteTicket_effects (t : TextTicket) (b : bool) (s s' : State) :
  deleteTicket (VTicket t) s = (Returned b, s') →
  ∃ r ch p,
    b = true ∧
    objects (world s) !! _data t = Some r ∧
    find (λ c, strict_eq (channel_id c) (channelId r)) (channels (discord (world s))) = Some ch ∧
    storage (options (manager s)) = Some p ∧
    records s' = List.filter (λ r', negb (strict_eq (channelId r') (channelId r))) (records s) ∧
    objects (world s') = objects (world s) ∧
    tickets (manager s') = delete (number r) (tickets (manager s)) ∧
    log (world s') = log (world s) ++
      [ Remote (ChannelDelete (channel_id ch));
        FsWriteFile p (JsonArray (records s'));
        Emit "ticketDeleted" t ].
Proof.
  unfold deleteTicket. intros H. inv_run H.
  destruct (ready (manager s)) eqn:Hready; cbn in H; [|solve [inv_run H]].
  inv_steps H. subst. cbn in *.
  repeat match goal with
         | H1 : ?x = Some ?a, H2 : ?x = Some ?b |- _ =>
             rewrite H1 in H2; injection H2 as <-
         end.
  eexists _, _, _. split_and!; try done.
  - unfold records. cbn. apply snapshot_other_channels.
  - unfold records. cbn. by rewrite <- !app_assoc.
Qed.

Lemma deleteTicket_effects_witness :
  let t := {| _data := 2 |} in
  let s := Demo.loaded in
  let s' := snd (deleteTicket (VTicket t) s) in
  ∃ r ch p,
    true = true ∧
    objects (world s) !! _data t = Some r ∧
    find (λ c, strict_eq (channel_id c) (channelId r)) (channels (discord (world s))) = Some ch ∧
    storage (options (manager s)) = Some p ∧
    records s' = List.filter (λ r', negb (strict_eq (channelId r') (channelId r))) (records s) ∧
    objects (world s') = objects (world s) ∧
    tickets (manager s') = delete (number r) (tickets (manager s)) ∧
    log (world s') = log (world s) ++
      [ Remote (ChannelDelete (channel_id ch));
        FsWriteFile p (JsonArray (records s'));
        Emit "ticketDeleted" t ].
Proof.
  intros t s s'. apply (deleteTicket_effects t true s s').
  vm_compute. reflexivity.
Defined.

(** X14.  The staff permissions that [createTicket], [closeTicket] and
    [reopenTicket] send: one entry per configured staff role that is a role
    of the guild, in the configured order, each allowing everything and
    denying nothing.  A configured role the guild does not have is skipped
    without an error, and with no staff roles configured there is no such
    entry. *)
Theorem staff_overwrites_spec (g : Guild) (roles : option (list Snowflake)) :
  staff_overwrites g roles
  = (λ role, {| overwrite_id := Some role; allow := all_permissions; deny := [] |})
    <$> List.filter (λ role, bool_decide (role ∈ guild_roles g)) (default [] roles).
Proof.
  unfold staff_overwrites.
  induction (default [] roles) as [|role l IH]; [done|].
  cbn. unfold roles_resolve at 1.
  destruct (find (strict_eq role) (guild_roles g)) as [x|] eqn:Hfind; cbn.
  - apply find_some in Hfind as [Hin Heq]. apply String.eqb_eq in Heq. subst x.
    rewrite bool_decide_eq_true_2 by (by apply list_elem_of_In).
    cbn. by rewrite IH.
  - rewrite bool_decide_eq_false_2; [done|].
    intros Hin%list_elem_of_In. apply (find_none _ _ Hfind) in Hin.
    unfold strict_eq in Hin. by rewrite String.eqb_refl in Hin.
Qed.
(** * When the methods return *)

(** [inv_steps], keeping what a resolved guild or channel says of the
    client. *)
Ltac inv_returned H :=
  inv_run H;
  repeat match goal with
    | H : ticket_guild _ _ = (Returned _, _) |- _ =>
        pose proof (ticket_guild_client _ _ _ _ H);
        apply ticket_guild_Returned in H as (? & ? & ? & ->)
    | H : ticket_channel _ _ = (Returned _, _) |- _ =>
        pose proof (ticket_channel_client _ _ _ _ H);
        apply ticket_channel_Returned in H as (? & ? & ? & ->)
    end;
  inv_steps H.

(** Identifies the records that two lookups of one reference gave. *)
Ltac same_lookups :=
  repeat match goal with
         | H1 : ?x = Some ?a, H2 : ?x = Some ?b |- _ =>
             rewrite H1 in H2; injection H2 as <-
         end.

(** An entity is the view of its record. *)
Lemma TextTicket_eta (t : TextTicket) : {| _data := _data t |} = t.
Proof. by destruct t. Qed.

(** X15.  [closeTicket], given a ticket entity, returns exactly when the
    manager is ready and has a client and a storage path, the entity's
    record, guild and channel resolve, the closed category resolves in that
    guild, the platform fulfils the edit, the file system accepts the write
    of the records with this one closed, and no listener of "ticketClosed"
    throws.  Nothing else is asked for: not that the ticket is open, nor
    that the category is one. *)
Theorem closeTicket_returns_iff (t : TextTicket) (s : State) :
  (∃ t' s', closeTicket (VTicket t) s = (Returned t', s')) ↔
  ready (manager s) = true ∧ client (manager s) = VClient ∧
  ∃ r g cat ch c p,
    objects (world s) !! _data t = Some r ∧
    guilds_resolve (discord (world s)) (ById (guildId r)) = Some g ∧
    channels_resolve (discord (world s)) g (closedParentId (options (manager s))) = Some cat ∧
    find (λ c, strict_eq (channel_id c) (channelId r)) (channels (discord (world s))) = Some ch ∧
    rest (discord (world s))
      (ChannelEdit (channel_id ch)
         {| edit_parent := Some (channel_id cat);
            edit_permissionOverwrites := Some
              ([ {| overwrite_id := Some (creatorId r); allow := []; deny := all_permissions |};
                 {| overwrite_id := roles_everyone g; allow := []; deny := ["VIEW_CHANNEL"] |} ]
               ++ staff_overwrites g (staffRoles (options (manager s))));
            edit_name := "closed-" +:+ number r |}) = Fulfilled c ∧
    storage (options (manager s)) = Some p ∧
    writeFile_error (world s) p
      (JsonArray (snapshot (<[_data t := set_status "closed" r]> (objects (world s)))
                    (_rawTickets (manager s)))) = None ∧
    listener_error (world s) "ticketClosed" t = None.
Proof.
  split.
  - intros (t' & s' & H). unfold closeTicket in H. inv_run H.
    destruct (ready (manager s)) eqn:Hready; cbn in H; [|solve [inv_run H]].
    inv_returned H.
    destruct (channels_resolve _ _ _) as [cat|] eqn:Hcat; [|solve [inv_run H]].
    inv_returned H. subst. unfold restatus in H. inv_steps H.
    cbn in *. same_lookups. rewrite ?array_assign_indexOf, ?TextTicket_eta in *.
    split_and!; try done. eexists _, _, cat, _, _, _. split_and!; done.
  - intros (Hready & Hclient & r & g & cat & ch & c & p & Hr & Hg & Hcat & Hch & Hrest & Hp
            & Hwrite & Hlistener).
    unfold closeTicket, restatus, ticket_guild, ticket_channel, the_client, await_rest,
      _saveRawTickets, fs_writeFile, tickets_set, ticket_data, emit.
    unfold_run. cbn in Hg, Hrest.
    repeat (first [rewrite Hready | rewrite Hr | rewrite Hclient | rewrite Hg
                  | rewrite Hcat | rewrite Hch | rewrite Hrest]; cbn).
    rewrite list_lookup_insert_eq by (by eapply lookup_lt_Some). cbn.
    rewrite Hp. cbn. unfold snapshot in Hwrite.
    rewrite array_assign_indexOf, Hwrite. cbn. rewrite TextTicket_eta, Hlistener. eauto.
Qed.

(** X16.  [reopenTicket], given a ticket entity, returns exactly when the
    manager is ready and has a client and a storage path, the entity's
    record, guild and channel resolve, the parent category resolves in that
    guild to a category, the platform fulfils the edit, the file system
    accepts the write of the records with this one open, and no listener of
    "ticketReopened" throws.  It is not asked that the ticket is closed. *)
Theorem reopenTicket_returns_iff (t : TextTicket) (s : State) :
  (∃ t' s', reopenTicket (VTicket t) s = (Returned t', s')) ↔
  ready (manager s) = true ∧ client (manager s) = VClient ∧
  ∃ r g cat ch c p,
    objects (world s) !! _data t = Some r ∧
    guilds_resolve (discord (world s)) (ById (guildId r)) = Some g ∧
    channels_resolve (discord (world s)) g (parentId (options (manager s))) = Some cat ∧
    channel_type cat = "GUILD_CATEGORY" ∧
    find (λ c, strict_eq (channel_id c) (channelId r)) (channels (discord (world s))) = Some ch ∧
    rest (discord (world s))
      (ChannelEdit (channel_id ch)
         {| edit_parent := None;
            edit_permissionOverwrites := Some
              ([ {| overwrite_id := Some (creatorId r); allow := all_permissions; deny := [] |};
                 {| overwrite_id := roles_everyone g; allow := []; deny := ["VIEW_CHANNEL"] |} ]
               ++ staff_overwrites g (staffRoles (options (manager s))));
            edit_name := "ticket-" +:+ number r |}) = Fulfilled c ∧
    storage (options (manager s)) = Some p ∧
    writeFile_error (world s) p
      (JsonArray (snapshot (<[_data t := set_status "open" r]> (objects (world s)))
                    (_rawTickets (manager s)))) = None ∧
    listener_error (world s) "ticketReopened" t = None.
Proof.
  split.
  - intros (t' & s' & H). unfold reopenTicket in H. inv_run H.
    destruct (ready (manager s)) eqn:Hready; cbn in H; [|solve [inv_run H]].
    inv_returned H.
    destruct (channels_resolve _ _ _) as [cat|] eqn:Hcat; [|solve [inv_run H]].
    destruct (negb _) eqn:Htype; [solve [inv_run H]|].
    apply negb_false_iff, String.eqb_eq in Htype.
    inv_returned H. subst. unfold restatus in H. inv_steps H.
    cbn in *. same_lookups. rewrite ?array_assign_indexOf, ?TextTicket_eta in *.
    split_and!; try done. eexists _, _, cat, _, _, _. split_and!; done.
  - intros (Hready & Hclient & r & g & cat & ch & c & p & Hr & Hg & Hcat & Htype & Hch
            & Hrest & Hp & Hwrite & Hlistener).
    unfold reopenTicket, restatus, ticket_guild, ticket_channel, the_client, await_rest,
      _saveRawTickets, fs_writeFile, tickets_set, ticket_data, emit.
    unfold_run. cbn in Hg, Hrest.
    repeat (first [rewrite Hready | rewrite Hr | rewrite Hclient | rewrite Hg
                  | rewrite Hcat | rewrite Htype | rewrite Hch | rewrite Hrest]; cbn).
    rewrite list_lookup_insert_eq by (by eapply lookup_lt_Some). cbn.
    rewrite Hp. cbn. unfold snapshot in Hwrite.
    rewrite array_assign_indexOf, Hwrite. cbn. rewrite TextTicket_eta, Hlistener. eauto.
Qed.

(** X17.  [createTicket] returns whenever the manager is ready and has a
    client and a storage path, the guild, the user and the member resolve,
    the parent category resolves in the guild to a category, the platform
    fulfils the creation of a channel in the guild, the file system accepts
    the write and no listener of "ticketCreated" throws.  Nothing is asked
    of the records: a member who has a ticket in the guild gets another
    one, whatever the numbers in the store are. *)
Theorem createTicket_returns (guild : resolvable Guild) (user : resolvable User)
    (g : Guild) (u : User) (m : Snowflake) (cat : Channel) (p : string) (s : State) :
  ready (manager s) = true →
  client (manager s) = VClient →
  guilds_resolve (discord (world s)) guild = Some g →
  users_resolve (discord (world s)) user = Some u →
  members_resolve g (Some u) = Some m →
  channels_resolve (discord (world s)) g (parentId (options (manager s))) = Some cat →
  channel_type cat = "GUILD_CATEGORY" →
  storage (options (manager s)) = Some p →
  (∀ name o, ∃ c, rest (discord (world s)) (ChannelCreate (guild_id g) name o) = Fulfilled c) →
  (∀ content, writeFile_error (world s) p content = None) →
  (∀ t, listener_error (world s) "ticketCreated" t = None) →
  ∃ ticket s', createTicket guild user s = (Returned ticket, s').
Proof.
  intros Hready Hclient Hg Hu Hm Hcat Htype Hp Hrest Hwrite Hlistener.
  unfold createTicket, the_client, await_rest, alloc, _saveRawTickets, fs_writeFile,
    tickets_set, ticket_data, emit.
  unfold_run. rewrite Hready. cbn. rewrite Hclient. cbn. rewrite Hg, Hu. cbn.
  cbn in Hm. rewrite Hm, Hcat, Htype. cbn.
  match goal with |- context [rest _ (ChannelCreate _ ?name ?o)] =>
    destruct (Hrest name o) as [c Hc]; rewrite Hc end.
  cbn. rewrite Hp. cbn. rewrite Hwrite. cbn.
  rewrite list_lookup_middle by done. cbn. rewrite Hlistener. eauto.
Qed.

Lemma createTicket_returns_witness :
  ∃ ticket s', createTicket (ById "100") (ById "8") Demo.loaded = (Returned ticket, s').
Proof.
  apply (createTicket_returns (ById "100") (ById "8") Demo.guild1 {| user_id := "8" |} "8"
           (Demo.category "100" "10") "tickets.json" Demo.loaded); try reflexivity.
  intros name o. by eexists.
Defined.

(** X18.  [deleteTicket], given a ticket entity, returns exactly when the
    manager is ready and has a client and a storage path, the entity's
    record and channel resolve, the platform fulfils the deletion, the file
    system accepts the write of the records of the other channels, and no
    listener of "ticketDeleted" throws; [renameTicket] exactly when the
    manager is ready and has a client, the entity's record and channel
    resolve, the platform fulfils the edit and no listener of
    "ticketRenamed" throws, storage path or not. *)
Theorem deleteTicket_renameTicket_return_iff (t : TextTicket) (newName : string) (s : State) :
  ((∃ b s', deleteTicket (VTicket t) s = (Returned b, s')) ↔
   ready (manager s) = true ∧ client (manager s) = VClient ∧
   ∃ r ch c p,
     objects (world s) !! _data t = Some r ∧
     find (λ c, strict_eq (channel_id c) (channelId r)) (channels (discord (world s))) = Some ch ∧
     rest (discord (world s)) (ChannelDelete (channel_id ch)) = Fulfilled c ∧
     storage (options (manager s)) = Some p ∧
     writeFile_error (world s) p
       (JsonArray (List.filter (λ r', negb (strict_eq (channelId r') (channelId r)))
                     (records s))) = None ∧
     listener_error (world s) "ticketDeleted" t = None) ∧
  ((∃ t' s', renameTicket (VTicket t) newName s = (Returned t', s')) ↔
   ready (manager s) = true ∧ client (manager s) = VClient ∧
   ∃ r ch c,
     objects (world s) !! _data t = Some r ∧
     find (λ c, strict_eq (channel_id c) (channelId r)) (channels (discord (world s))) = Some ch ∧
     rest (discord (world s))
       (ChannelEdit (channel_id ch)
          {| edit_parent := None; edit_permissionOverwrites := None;
             edit_name := newName +:+ "-" +:+ number r |}) = Fulfilled c ∧
     listener_error (world s) "ticketRenamed" t = None).
Proof.
  split; split.
  - intros (b & s' & H). unfold deleteTicket in H. inv_run H.
    destruct (ready (manager s)) eqn:Hready; cbn in H; [|solve [inv_run H]].
    inv_returned H. subst. cbn -[snapshot] in *. same_lookups.
    split_and!; try done. eexists _, _, _, _. split_and!; try done.
    unfold records. by rewrite <- snapshot_other_channels.
  - intros (Hready & Hclient & r & ch & c & p & Hr & Hch & Hrest & Hp & Hwrite & Hlistener).
    unfold deleteTicket, ticket_channel, the_client, await_rest,
      _saveRawTickets, fs_writeFile, ticket_data, emit.
    unfold_run.
    repeat (first [rewrite Hready | rewrite Hr | rewrite Hclient | rewrite Hch
                  | rewrite Hrest | rewrite Hp]; cbn).
    unfold records in Hwrite.
    rewrite <- snapshot_other_channels in Hwrite. unfold other_channels, snapshot in Hwrite.
    rewrite Hwrite. cbn. rewrite Hlistener. eauto.
  - intros (t' & s' & H). unfold renameTicket in H. inv_run H.
    destruct (ready (manager s)) eqn:Hready; cbn in H; [|solve [inv_run H]].
    inv_returned H. subst. cbn in *. same_lookups.
    split_and!; try done. eexists _, _, _. split_and!; done.
  - intros (Hready & Hclient & r & ch & c & Hr & Hch & Hrest & Hlistener).
    unfold renameTicket, ticket_channel, the_client, await_rest, ticket_data, emit.
    unfold_run.
    repeat (first [rewrite Hready | rewrite Hr | rewrite Hclient | rewrite Hch
                  | rewrite Hrest | rewrite Hlistener]; cbn).
    eauto.
Qed.
(** * What holds for as long as the manager runs *)

(** [inv_thrown], for a run of either outcome. *)
Ltac inv_outcome :=
  repeat first
    [ match goal with
      | H : mbind _ _ _ = (Returned _, _) |- _ => apply bind_Returned in H as (? & ? & ? & H)
      | H : throw _ _ = (Returned _, _) |- _ => discriminate H
      | H : (match ?x with _ => _ end) _ = (Returned _, _) |- _ => destruct x eqn:?; cbn in H
      end
    | progress inv_thrown ].

(** No call changes the client, the options or [ready], nor how the file
    system and the listeners answer. *)
Lemma invoke_frame (c : call) (s : State) :
  let s' := snd (invoke c s) in
  client (manager s') = client (manager s) ∧
  options (manager s') = options (manager s) ∧
  ready (manager s') = ready (manager s) ∧
  writeFile_error (world s') = writeFile_error (world s) ∧
  listener_error (world s') = listener_error (world s).
Proof.
  cbn zeta. destruct (invoke c s) as [[a|e] s'] eqn:H; cbn [snd].
  all: destruct c; cbn in H;
    unfold checkDoubleTickets, closeTicket, createTicket, deleteTicket, renameTicket,
      reopenTicket in H.
  all: inv_outcome; simplify_eq; done.
Qed.
(** What a call does to the records and to the store file, whether it
    returns or throws. *)
Lemma invoke_changes (c : call) (s : State) (p : string) :
  valid_refs s →
  storage (options (manager s)) = Some p →
  records_change s (records (snd (invoke c s))) ∧ file_change p s (snd (invoke c s)).
Proof.
  intros Hvalid Hp. destruct (invoke c s) as [[a|e] s'] eqn:H; cbn [snd].
  all: destruct c; cbn in H;
    unfold checkDoubleTickets, closeTicket, createTicket, deleteTicket, renameTicket,
      reopenTicket in H.
  all: inv_outcome; simplify_eq.
  all: try (split; [apply records_same | by left]).
  all: unfold file_change, records in *; cbn -[snapshot] in *; same_lookups.
  all: rewrite ?array_assign_indexOf, ?snapshot_push by exact Hvalid.
  all: try absurd_throw.
  all: repeat match goal with
         | _ : objects _ !! _ = Some ?x |- context [snapshot ?o (List.filter ?f ?l)] =>
             rewrite (snapshot_other_channels o (channelId x) l
                      : snapshot o (List.filter f l) = _)
         end.
  all: split;
    [ first [ apply records_same | eapply records_restatus; eassumption
            | apply records_push | apply records_drop ]
    | first [ by left | by right; left
            | right; right; split; [done|]; eexists; eexists; eassumption ] ].
Qed.
(** The load changes neither the options nor how the file system answers. *)
Lemma _init_frame (s : State) (p : string) :
  storage (options (manager s)) = Some p →
  options (manager (snd (_init s))) = options (manager s) ∧
  writeFile_error (world (snd (_init s))) = writeFile_error (world s).
Proof.
  intros Hp.
  destruct (files (world s) !! p) as [c|] eqn:Hf.
  - assert (Hc : (∃ rs, c = JsonArray rs) ∨ (∀ rs, c ≠ JsonArray rs)).
    { destruct c; eauto. }
    destruct Hc as [[rs ->]|Hc].
    + by rewrite (_init_array_run s p rs).
    + by rewrite (_init_unusable s p c).
  - destruct (writeFile_error (world s) p (JsonArray [])) as [code|] eqn:Hw.
    + by rewrite (_init_unwritable s p code).
    + by rewrite (_init_missing s p).
Qed.

(** A program never brings a manager to lose its storage path. *)
Lemma reachable_storage (s : State) :
  reachable s → is_Some (storage (options (manager s))).
Proof.
  induction 1 as [cl options' m w Hm | c s _ IH].
  - destruct (constructor_Returned _ _ _ Hm) as (p & Hp & _).
    destruct (_init_frame {| manager := m; world := w |} p Hp) as (Ho & _).
    rewrite Ho. by eexists.
  - destruct (invoke_frame c s) as (_ & Ho & _). cbn zeta in Ho. by rewrite Ho.
Qed.

(** X19.  In every state a program reaches by constructing a manager,
    letting the load run to its end (it returns, or it is rejected) and
    calling methods one after the other, whether they return or throw: the
    manager has a storage path, every reference of its array denotes a
    record and none occurs twice, and the index is keyed by the numbers of
    the records its entities wrap.  No call changes [ready] or the options:
    a manager whose load was rejected stays not ready.  That the manager is
    ready, or that the store file holds the records in memory, is not among
    the invariants: a rejected write prevents the one and breaks the
    other. *)
Theorem reachable_invariant (s : State) :
  reachable s →
  is_Some (storage (options (manager s))) ∧
  valid_refs s ∧ NoDup (_rawTickets (manager s)) ∧ index_keyed s ∧
  ∀ c, ready (manager (snd (invoke c s))) = ready (manager s) ∧
       options (manager (snd (invoke c s))) = options (manager s).
Proof.
  intros Hs.
  pose proof (reachable_storage s Hs) as Hp.
  destruct (reachable_well_formed s Hs) as [Hv Hn Hi].
  split_and!; try done.
  intros c. destruct (invoke_frame c s) as (_ & Ho & Hr & _). done.
Qed.

Lemma reachable_invariant_witness :
  let s := snd (invoke (CreateTicket (ById "100") (ById "8")) Demo.loaded) in
  is_Some (storage (options (manager s))) ∧
  valid_refs s ∧ NoDup (_rawTickets (manager s)) ∧ index_keyed s ∧
  ∀ c, ready (manager (snd (invoke c s))) = ready (manager s) ∧
       options (manager (snd (invoke c s))) = options (manager s).
Proof.
  intros s. apply (reachable_invariant s).
  apply reachable_invoke.
  apply (reachable_new VClient (Given Demo.options1) (manager Demo.booting) Demo.world1).
  reflexivity.
Defined.

(** ** The store file and the records in memory *)

(** A call keeps the store file in step with the records, on a file system
    that accepts every write. *)
Lemma invoke_durable (c : call) (s : State) :
  valid_refs s →
  (∀ p content, writeFile_error (world s) p content = None) →
  durable s → durable (snd (invoke c s)).
Proof.
  intros Hvalid Hwrite (p & content & Hp & Hf & Hc).
  destruct (invoke_frame c s) as (_ & Ho & _). cbn zeta in Ho.
  destruct (invoke_changes c s p Hvalid Hp) as [_ [[Hfs Hrec] | [Hfs | [_ [c' [code Hw]]]]]].
  - exists p, content. rewrite Ho, Hfs, Hrec. done.
  - eexists p, _. rewrite Ho, Hfs. split_and!; [done|apply lookup_insert_eq|done].
  - by rewrite Hwrite in Hw.
Qed.

(** The load leaves the store file in step with the records it put in
    memory, whatever it found on disk, if the file system accepts its
    write. *)
Lemma _init_durable (s : State) (p : string) :
  storage (options (manager s)) = Some p →
  writeFile_error (world s) p (JsonArray []) = None →
  durable (snd (_init s)).
Proof.
  intros Hp Hw.
  destruct (files (world s) !! p) as [c|] eqn:Hf.
  - assert (Hc : (∃ rs, c = JsonArray rs) ∨ (∀ rs, c ≠ JsonArray rs)).
    { destruct c; eauto. }
    destruct Hc as [[rs ->]|Hc].
    + rewrite (_init_array_run s p rs) by done. cbn.
      exists p, (JsonArray rs). split_and!; try done.
      unfold records. cbn. symmetry. apply snapshot_seq.
    + rewrite (_init_unusable s p c) by done. cbn.
      exists p, c. split_and!; try done.
      destruct c as [text| |rs]; try done. by destruct (Hc rs).
  - rewrite (_init_missing s p) by done. cbn.
    exists p, (JsonArray []). split_and!; try done. apply lookup_insert_eq.
Qed.

Lemma reachable_durable (s : State) :
  reachable s →
  (∀ p content, writeFile_error (world s) p content = None) →
  durable s.
Proof.
  induction 1 as [cl options' m w Hm | c s Hs IH]; intros Hwrite.
  - destruct (constructor_Returned _ _ _ Hm) as (p & Hp & _).
    destruct (_init_frame {| manager := m; world := w |} p Hp) as (_ & Hw).
    rewrite Hw in Hwrite.
    by apply (_init_durable {| manager := m; world := w |} p).
  - destruct (invoke_frame c s) as (_ & _ & _ & Hw & _). cbn zeta in Hw.
    rewrite Hw in Hwrite.
    apply invoke_durable; [by apply reachable_well_formed | done | by apply IH].
Qed.

(** X20.  A restart loses nothing, provided the file system accepts every
    write.  From any state a program reaches on such a file system, a new
    manager constructed with the same storage path and loaded over the disk
    as it is has the records the old manager had in memory, in the same
    order and with the same fields.  (Without the proviso it does not hold:
    a call changes the records in memory before it writes, and a rejected
    write leaves the older records in the file.) *)
Theorem restart_recovers_records (s : State) (cl : value)
    (options' : arg TextTicketManagerOptions) (m : TextTicketManager) :
  reachable s →
  (∀ p content, writeFile_error (world s) p content = None) →
  constructor cl options' = Returned m →
  storage (options m) = storage (options (manager s)) →
  records (snd (_init {| manager := m; world := world s |})) = records s.
Proof.
  intros Hs Hwrite Hm Hstorage.
  destruct (reachable_durable s Hs Hwrite) as (p & c & Hp & Hf & Hc).
  rewrite Hp in Hstorage.
  assert (Hcases : (∃ rs, c = JsonArray rs) ∨ (∀ rs, c ≠ JsonArray rs)).
  { destruct c; eauto. }
  destruct Hcases as [[rs ->]|Hcases].
  - rewrite <- Hc. by apply (_init_records _ p).
  - rewrite (_init_unusable _ p c) by done.
    rewrite <- Hc. by destruct c as [text| |rs]; [| |destruct (Hcases rs)].
Qed.

Lemma restart_recovers_records_witness :
  let s := snd (invoke (DeleteTicket (VTicket {| _data := 1 |})) Demo.loaded) in
  records (snd (_init {| manager := manager Demo.booting; world := world s |})) = records s.
Proof.
  intros s.
  apply (restart_recovers_records s VClient (Given Demo.options1) (manager Demo.booting)).
  - apply reachable_invoke.
    apply (reachable_new VClient (Given Demo.options1) (manager Demo.booting) Demo.world1).
    reflexivity.
  - reflexivity.
  - reflexivity.
  - vm_compute. reflexivity.
Defined.

(** Where a write is rejected, the restart loads the older records: the
    ticket closed in memory is open in the file. *)
Lemma restart_after_rejected_write :
  let w := with_writeFile_error (λ _ _, Some "ENOSPC") Demo.world1 in
  let s := snd (invoke (CloseTicket (VTicket {| _data := 0 |}))
                  (snd (_init {| manager := manager Demo.booting; world := w |}))) in
  reachable s ∧
  status <$> records s = ["closed"; "closed"; "open"] ∧
  status <$> records (snd (_init {| manager := manager Demo.booting; world := world s |}))
  = ["open"; "closed"; "open"].
Proof.
  intros w s. split_and!; [|reflexivity..].
  apply reachable_invoke.
  apply (reachable_new VClient (Given Demo.options1) (manager Demo.booting) w).
  reflexivity.
Qed.

(** ** Numbers stay unique within a guild *)

Lemma ticket_number_max (r : RawTextTicketData) (rs : list RawTextTicketData) :
  r ∈ rs → (ticket_number r ≤ max_number rs)%N.
Proof.
  unfold max_number. induction 1 as [r rs | r r' rs _ IH]; cbn; lia.
Qed.

Lemma max_number_of_guild (g : Guild) (rs : list RawTextTicketData) :
  (max_number (of_guild g rs) ≤ max_number rs)%N.
Proof.
  unfold max_number, of_guild. induction rs as [|r rs IH]; cbn; [done|].
  destruct (strict_eq _ _); cbn; lia.
Qed.

Lemma NoDup_fmap_List_filter {A B : Type} (f : A → B) (P : A → bool) (l : list A) :
  NoDup (f <$> l) → NoDup (f <$> List.filter P l).
Proof.
  induction l as [|x l IH]; cbn; [done|].
  intros [Hx Hl]%NoDup_cons. destruct (P x); cbn; [|by apply IH].
  apply NoDup_cons. split; [|by apply IH].
  intros (y & Hy & Hin)%list_elem_of_fmap. apply Hx.
  apply list_elem_of_fmap. exists y. split; [done|]. by apply (elem_of_List_filter P).
Qed.

(** Replacing an object by one with the same key keeps the keys. *)
Lemma snapshot_insert_fmap {B : Type} (f : RawTextTicketData → B)
    (o : list RawTextTicketData) (i : ref) (r r' : RawTextTicketData) (l : list ref) :
  o !! i = Some r → f r' = f r →
  f <$> snapshot (<[i := r']> o) l = f <$> snapshot o l.
Proof.
  intros Hr Hf. unfold snapshot. induction l as [|j l IH]; cbn; [done|].
  destruct (decide (j = i)) as [->|Hne].
  - rewrite Hr, list_lookup_insert_eq by (by eapply lookup_lt_Some). cbn.
    by rewrite Hf, IH.
  - rewrite list_lookup_insert_ne by done.
    destruct (o !! j); cbn; by rewrite IH.
Qed.

(** X21.  Numbers stay unique within a guild, as long as the records carry
    numerals below 2^53.  If the records in memory all carry such a numeral
    and no two of them have both the same guild and the same number, then
    after any call, whether it returns or throws, no two have: [createTicket]
    gives the new record a number greater than every number of its guild, the
    other methods assign no number, and [deleteTicket] only drops records.
    (The references of the array are taken to denote objects and the manager
    to have a storage path, as in every state a program reaches; two guilds
    can and do share numbers.  A store file can hold other numbers, and past
    2^53 the next number is the last one again.) *)
Theorem invoke_unique_numbers (c : call) (s : State) :
  valid_refs s →
  is_Some (storage (options (manager s))) →
  Forall numbered (records s) →
  (max_number (records s) < 2 ^ 53)%N →
  unique_numbers (records s) →
  unique_numbers (records (snd (invoke c s))).
Proof.
  intros Hvalid [p Hp] Hnum Hmax Hu.
  destruct (invoke_changes c s p Hvalid Hp) as [Hrec _].
  destruct Hrec as [|i r st Hr|g u ch|cid]; unfold unique_numbers.
  - done.
  - by rewrite (snapshot_insert_fmap _ _ _ r).
  - rewrite fmap_app. apply NoDup_app. split_and!; [done| |apply NoDup_singleton].
    intros k (r' & -> & Hin)%list_elem_of_fmap [= Hg Hn]%list_elem_of_singleton.
    assert (Hin' : r' ∈ of_guild g (records s)).
    { unfold of_guild. apply list_elem_of_In, filter_In. split.
      - by apply list_elem_of_In.
      - unfold strict_eq. rewrite Hg. apply String.eqb_refl. }
    apply ticket_number_max in Hin'.
    pose proof (max_number_of_guild g (records s)) as Hle.
    unfold ticket_number at 2 in Hn. cbn [created_record number] in Hn.
    rewrite newTicketNumber_max in Hn by (by apply Forall_List_filter || lia).
    rewrite digits_toString in Hn. cbn in Hn. lia.
  - by apply NoDup_fmap_List_filter.
Qed.

Lemma invoke_unique_numbers_witness :
  let c := CreateTicket (ById "200") (ById "7") in
  let s := with_manager (λ m, {| client := client m;
                                 options := {| channelTopic := None;
                                               closedParentId := None;
                                               parentId := Some "20";
                                               staffRoles := None;
                                               storage := storage (options m) |};
                                 tickets := tickets m; _rawTickets := _rawTickets m;
                                 ready := ready m |}) Demo.loaded in
  unique_numbers (records (snd (invoke c s))).
Proof.
  intros c s. apply (invoke_unique_numbers c s).
  - decide_by_computation.
  - by eexists.
  - decide_by_computation.
  - vm_compute. reflexivity.
  - unfold unique_numbers. decide_by_computation.
Defined.
(** * Calls one after the other *)

Lemma set_status_set_status (st st' : string) (r : RawTextTicketData) :
  set_status st (set_status st' r) = set_status st r.
Proof. reflexivity. Qed.

Lemma set_status_id (r : RawTextTicketData) : set_status (status r) r = r.
Proof. by destruct r. Qed.

(** X22.  Closing a ticket and reopening the entity that [closeTicket]
    returned gives back an entity over the record object one started with.
    If the ticket was open, the record objects and the records in
    memory are then exactly as before the two calls, and the store file
    holds them; whatever its status was, it is "open" now and nothing else
    of any record changed.  The index holds the entity under its number. *)
Theorem closeTicket_then_reopenTicket (t t1 t2 : TextTicket) (s s1 s2 : State) :
  closeTicket (VTicket t) s = (Returned t1, s1) →
  reopenTicket (VTicket t1) s1 = (Returned t2, s2) →
  ∃ r p,
    objects (world s) !! _data t = Some r ∧
    storage (options (manager s)) = Some p ∧
    t1 = t ∧ t2 = t ∧
    objects (world s2) = <[_data t := set_status "open" r]> (objects (world s)) ∧
    (status r = "open" → objects (world s2) = objects (world s) ∧ records s2 = records s) ∧
    _rawTickets (manager s2) = _rawTickets (manager s) ∧
    files (world s2) !! p = Some (JsonArray (records s2)) ∧
    tickets (manager s2) = <[number r := t]> (tickets (manager s)).
Proof.
  intros H1 H2.
  apply (flipTicket_Returned Close) in H1 as (t0 & s0 & [= <-] & _ & Hm0 & Ho0 & _ & H1).
  apply restatus_Returned in H1 as (r & p & Hr & Hp & -> & Hm1 & Hw1).
  apply (flipTicket_Returned Reopen) in H2 as (t0 & s0' & [= <-] & _ & Hm0' & Ho0' & _ & H2).
  apply restatus_Returned in H2 as (r1 & p' & Hr1 & Hp' & -> & Hm2 & Hw2).
  rewrite Ho0 in Hr, Hw1. rewrite Hm0 in Hm1, Hw1, Hp.
  rewrite Ho0' in Hr1, Hw2. rewrite Hm0' in Hm2, Hw2, Hp'.
  rewrite Hm1 in Hm2, Hw2, Hp'. rewrite Hw1 in Hr1, Hw2. cbn in Hm2, Hw2, Hp', Hr1.
  rewrite list_lookup_insert_eq in Hr1 by (by eapply lookup_lt_Some).
  injection Hr1 as <-. rewrite Hp in Hp'. injection Hp' as <-.
  rewrite list_insert_insert_eq, set_status_set_status in Hw2.
  rewrite insert_insert_eq in Hm2.
  assert (Ho2 : objects (world s2) = <[_data t := set_status "open" r]> (objects (world s))).
  { by rewrite Hw2. }
  exists r, p. destruct t as [i]. cbn in *. split_and!; try done.
  - intros Hopen. rewrite <- Hopen, set_status_id, list_insert_id in Ho2 by done.
    split; [done|]. unfold records. by rewrite Ho2, Hm2.
  - by rewrite Hm2.
  - rewrite Hw2. cbn. rewrite lookup_insert_eq. unfold records. by rewrite Hw2, Hm2.
  - by rewrite Hm2.
Qed.

Lemma closeTicket_then_reopenTicket_witness :
  let t := {| _data := 0 |} in
  let s := Demo.loaded in
  let s1 := snd (closeTicket (VTicket t) s) in
  let s2 := snd (reopenTicket (VTicket t) s1) in
  ∃ r p,
    objects (world s) !! _data t = Some r ∧
    storage (options (manager s)) = Some p ∧
    t = t ∧ t = t ∧
    objects (world s2) = <[_data t := set_status "open" r]> (objects (world s)) ∧
    (status r = "open" → objects (world s2) = objects (world s) ∧ records s2 = records s) ∧
    _rawTickets (manager s2) = _rawTickets (manager s) ∧
    files (world s2) !! p = Some (JsonArray (records s2)) ∧
    tickets (manager s2) = <[number r := t]> (tickets (manager s)).
Proof.
  intros t s s1 s2. apply (closeTicket_then_reopenTicket t t t s s1 s2).
  - vm_compute. reflexivity.
  - vm_compute. reflexivity.
Defined.

Lemma List_filter_all {A : Type} (f : A → bool) (l : list A) :
  Forall (λ x, f x = true) l → List.filter f l = l.
Proof. induction 1 as [|x l Hx _ IH]; cbn; [done|]. by rewrite Hx, IH. Qed.

(** X23.  Creating a ticket and deleting the entity that [createTicket]
    returned leaves the records in memory as they were before the two calls,
    provided no earlier record has the id of the new channel, and the store
    file holds them.  The index does not come back the same: the entry under
    the new ticket's number is gone, also when it belonged, before the two
    calls, to a ticket of another guild that carries the same number. *)
Theorem createTicket_then_deleteTicket (guild : resolvable Guild) (user : resolvable User)
    (t : TextTicket) (b : bool) (s s1 s2 : State) :
  valid_refs s →
  createTicket guild user s = (Returned t, s1) →
  deleteTicket (VTicket t) s1 = (Returned b, s2) →
  ∃ r p,
    objects (world s1) !! _data t = Some r ∧
    storage (options (manager s)) = Some p ∧
    (Forall (λ r', channelId r' ≠ channelId r) (records s) → records s2 = records s) ∧
    files (world s2) !! p = Some (JsonArray (records s2)) ∧
    tickets (manager s2) = delete (number r) (tickets (manager s)).
Proof.
  intros Hvalid H1 H2.
  apply createTicket_Returned in H1 as (g & u & c & p & _ & _ & _ & Hp & -> & Hm1 & Ho1 & _).
  apply deleteTicket_Returned in H2 as (t0 & r & p' & [= <-] & _ & Hr & Hp' & _ & Hm2 & Ho2 & Hf2).
  rewrite Hm1 in Hp', Hm2, Hf2. rewrite Ho1 in Hr, Ho2, Hm2, Hf2.
  cbn -[other_channels snapshot] in *.
  rewrite list_lookup_middle in Hr by done. injection Hr as <-.
  rewrite Hp in Hp'. injection Hp' as <-.
  assert (Hrec : records s2
                 = List.filter (λ r', negb (strict_eq (channelId r') (channel_id c)))
                     (records s ++ [created_record s g u c])).
  { unfold records. rewrite Hm2, Ho2. cbn -[other_channels snapshot].
    rewrite snapshot_other_channels. by rewrite snapshot_push. }
  exists (created_record s g u c), p. split_and!; try done.
  - rewrite Ho1. by apply list_lookup_middle.
  - intros Hfresh. rewrite Hrec, List.filter_app. cbn.
    unfold strict_eq. rewrite String.eqb_refl. cbn. rewrite app_nil_r.
    apply List_filter_all. eapply Forall_impl; [exact Hfresh|].
    intros r' Hne. cbn in Hne.
    by destruct (String.eqb_spec (channelId r') (channel_id c)).
  - rewrite Hf2, lookup_insert_eq. unfold records. by rewrite Hm2, Ho2.
  - rewrite Hm2. cbn. apply delete_insert_eq.
Qed.

Lemma createTicket_then_deleteTicket_witness :
  let t := {| _data := 3 |} in
  let s := Demo.loaded in
  let s1 := snd (createTicket (ById "100") (ById "8") s) in
  let s2 := snd (deleteTicket (VTicket t) s1) in
  ∃ r p,
    objects (world s1) !! _data t = Some r ∧
    storage (options (manager s)) = Some p ∧
    (Forall (λ r', channelId r' ≠ channelId r) (records s) → records s2 = records s) ∧
    files (world s2) !! p = Some (JsonArray (records s2)) ∧
    tickets (manager s2) = delete (number r) (tickets (manager s)).
Proof.
  intros t s s1 s2.
  apply (createTicket_then_deleteTicket (ById "100") (ById "8") t true s s1 s2).
  - decide_by_computation.
  - vm_compute. reflexivity.
  - vm_compute. reflexivity.
Defined.

(** X24.  Once [createTicket] has returned, [checkDoubleTickets] answers
    [true] for the guild and the user of the new ticket, and the index gives
    the new entity under the new number.  ([createTicket] itself does not
    ask [checkDoubleTickets].) *)
Theorem createTicket_then_checkDoubleTickets (guild : resolvable Guild) (user : resolvable User)
    (t : TextTicket) (s s' : State) :
  valid_refs s →
  createTicket guild user s = (Returned t, s') →
  ∃ g u r,
    guilds_resolve (discord (world s)) guild = Some g ∧
    users_resolve (discord (world s)) user = Some u ∧
    checkDoubleTickets (guild_id g) (user_id u) s' = (Returned true, s') ∧
    objects (world s') !! _data t = Some r ∧
    tickets (manager s') !! number r = Some t.
Proof.
  intros Hvalid H.
  apply createTicket_Returned in H as (g & u & c & p & _ & Hg & Hu & _ & -> & Hm & Ho & _).
  exists g, u, (created_record s g u c). split_and!; try done.
  - destruct (checkDoubleTickets_spec (guild_id g) (user_id u) s') as (b & Hb & Hiff).
    rewrite Hb. f_equal. f_equal. apply Hiff.
    exists (created_record s g u c). split; [|done].
    unfold records. rewrite Hm, Ho. cbn -[snapshot]. rewrite snapshot_push by done.
    apply elem_of_app. right. by left.
  - rewrite Ho. by apply list_lookup_middle.
  - rewrite Hm. cbn. apply lookup_insert_eq.
Qed.

Lemma createTicket_then_checkDoubleTickets_witness :
  let t := {| _data := 3 |} in
  let s := Demo.loaded in
  let s' := snd (createTicket (ById "100") (ById "8") s) in
  ∃ g u r,
    guilds_resolve (discord (world s)) (ById "100") = Some g ∧
    users_resolve (discord (world s)) (ById "8") = Some u ∧
    checkDoubleTickets (guild_id g) (user_id u) s' = (Returned true, s') ∧
    objects (world s') !! _data t = Some r ∧
    tickets (manager s') !! number r = Some t.
Proof.
  intros t s s'.
  apply (createTicket_then_checkDoubleTickets (ById "100") (ById "8") t s s').
  - decide_by_computation.
  - vm_compute. reflexivity.
Defined.
